(** * FileGossip backend: ingestion, retrieval and deletion

    A shallow embedding of [index.js]: the chunker, the cosine similarity,
    the JSON vector store and the three Express handlers
    ([POST /api/docs], [POST /api/chat], [DELETE /api/docs/:source]),
    followed by the properties of the pipeline.

    JavaScript values are modelled as the program has them:
    - a string is its sequence of UTF-16 code units;
    - a number is an IEEE 754 binary64 value (Rocq's primitive [float]);
      integer-valued numbers that are only counted or printed
      ([Date.now()], loop indices, [.length]) are integers;
    - a request body is the value [express.json()] parsed, or
      [undefined]; its fields are JSON values of any type, as the
      handlers check none;
    - the store file holds the JSON text of the array last written, and
      reading it gives what [JSON.parse] makes of that text;
    - what the handlers do to the outside world (model loading, embedding,
      reading and writing the store, reading the clock, calling the
      language model) is threaded through an explicit [World]. *)

From Stdlib Require Import ZArith NArith List Bool Lia Floats.
From Stdlib Require Import String Ascii DecimalString.
From Stdlib Require DecimalPos DecimalZ.
From Stdlib Require Import Sorted Permutation.
Import ListNotations.

Set Implicit Arguments.
Open Scope Z_scope.

(* ================================================================= *)
(** ** JavaScript strings *)

Definition code_unit := N.
Definition jsstring := list code_unit.

(** A string literal of the source (ASCII only). *)
Definition js (s : string) : jsstring :=
  List.map N_of_ascii (list_ascii_of_string s).

(** The line feed, ['\n']. *)
Definition LF : code_unit := 10%N.

(** ECMAScript [WhiteSpace] and [LineTerminator] code points: what
    [String.prototype.trim] strips. *)
Definition is_white_space (c : code_unit) : bool :=
  ((c =? 9) || (c =? 10) || (c =? 11) || (c =? 12) || (c =? 13)
   || (c =? 32) || (c =? 160) || (c =? 5760)
   || ((8192 <=? c) && (c <=? 8202))
   || (c =? 8232) || (c =? 8233) || (c =? 8239) || (c =? 8287)
   || (c =? 12288) || (c =? 65279))%N.

Fixpoint trimStart (s : jsstring) : jsstring :=
  match s with
  | [] => []
  | c :: s' => if is_white_space c then trimStart s' else s
  end.

Definition trimEnd (s : jsstring) : jsstring := List.rev (trimStart (List.rev s)).

(** [s.trim()] *)
Definition trim (s : jsstring) : jsstring := trimEnd (trimStart s).

(** Truthiness of a string: only [''] is falsy. *)
Definition truthy (s : jsstring) : bool :=
  match s with [] => false | _ :: _ => true end.

(** [s.split(sep)] for a one-code-unit separator; [''.split(sep)] is [['']]. *)
Fixpoint split (sep : code_unit) (s : jsstring) : list jsstring :=
  match s with
  | [] => [[]]
  | c :: s' =>
      if (c =? sep)%N then [] :: split sep s'
      else match split sep s' with
           | l :: ls => (c :: l) :: ls
           | [] => [[c]]
           end
  end.

(** [parts.join(sep)] *)
Fixpoint join (sep : jsstring) (parts : list jsstring) : jsstring :=
  match parts with
  | [] => []
  | [p] => p
  | p :: ps => p ++ sep ++ join sep ps
  end.

(** [String(n)] for an integer-valued number below 1e21 in magnitude:
    its decimal digits, with a leading minus sign when negative. *)
Definition number_to_string (n : Z) : jsstring :=
  js (NilZero.string_of_int (Z.to_int n)).

(** [s.length] *)
Definition str_length (s : jsstring) : Z := Z.of_nat (List.length s).

(** [a === b] on strings. *)
Definition jsstring_eqb (a b : jsstring) : bool :=
  if list_eq_dec N.eq_dec a b then true else false.

(* ================================================================= *)
(** ** JSON values *)

Set Warnings "-register-all".

(** A value as [JSON.parse] builds it. An object is given by the members
    of its text, in order; of two members of the same name [JSON.parse]
    keeps the last. *)
Inductive Json :=
| JNull
| JBool (b : bool)
| JNumber (x : float)
| JString (s : jsstring)
| JArray (items : list Json)
| JObject (members : list (jsstring * Json)).

(** The member of a given name, the last one if there are several. *)
Fixpoint member (name : jsstring) (members : list (jsstring * Json)) : option Json :=
  match members with
  | [] => None
  | (k, v) :: rest =>
      match member name rest with
      | Some v' => Some v'
      | None => if jsstring_eqb k name then Some v else None
      end
  end.

(** [v.name] for the names the handlers destructure ([text], [source],
    [question], [topK]); [None] is [undefined]. An object has the
    property when it has the member; an array or a primitive has no
    property of these names, its own or inherited. (Reading a property
    of [null] throws: see [destructure].) *)
Definition property (name : string) (v : Json) : option Json :=
  match v with
  | JObject members => member (js name) members
  | _ => None
  end.

(** Truthiness of a value: [undefined], [null], [false], [0], [-0],
    [NaN] and [''] are falsy, everything else is truthy. *)
Definition js_truthy (v : option Json) : bool :=
  match v with
  | None => false
  | Some JNull => false
  | Some (JBool b) => b
  | Some (JNumber x) => negb ((x =? 0)%float || is_nan x)
  | Some (JString s) => truthy s
  | Some (JArray _) => true
  | Some (JObject _) => true
  end.

(* ================================================================= *)
(** ** JavaScript arrays *)

(** What [ToIntegerOrInfinity] yields. An integer is used as such
    wherever one of these is expected. *)
Inductive IntegerOrInfinity :=
| NegInfinity
| Integer (n : Z)
| PosInfinity.

Coercion Integer : Z >-> IntegerOrInfinity.

(** [ToIntegerOrInfinity] on a number: NaN and the zeros give 0, the
    infinities themselves, and any other number its integer part
    (truncation towards zero). *)
Definition ToIntegerOrInfinity (x : float) : IntegerOrInfinity :=
  match Prim2SF x with
  | S754_nan => Integer 0
  | S754_zero _ => Integer 0
  | S754_infinity true => NegInfinity
  | S754_infinity false => PosInfinity
  | S754_finite negative m e =>
      let magnitude := if 0 <=? e then Zpos m * 2 ^ e else Zpos m / 2 ^ (- e) in
      Integer (if negative then - magnitude else magnitude)
  end.

(** [arr.slice(0, end)] once [end] has gone through
    [ToIntegerOrInfinity]: a negative [end] counts from the end of the
    array. *)
Definition slice0 (A : Type) (arr : list A) (end_ : IntegerOrInfinity) : list A :=
  let len := Z.of_nat (List.length arr) in
  let final :=
    match end_ with
    | NegInfinity => 0
    | Integer relativeEnd =>
        if relativeEnd <? 0 then Z.max (len + relativeEnd) 0 else Z.min relativeEnd len
    | PosInfinity => len
    end in
  firstn (Z.to_nat final) arr.

(** [arr.map((x, i) => f(x, i))] *)
Fixpoint mapi_from (A B : Type) (f : A -> nat -> B) (i : nat) (arr : list A) : list B :=
  match arr with
  | [] => []
  | x :: xs => f x i :: mapi_from f (S i) xs
  end.

Definition mapi (A B : Type) (f : A -> nat -> B) (arr : list A) : list B :=
  mapi_from f 0 arr.

Section ArraySort.
Variable A : Type.
(** The comparator handed to [sort]. *)
Variable comparefn : A -> A -> float.

(** ECMAScript [SortCompare]: a NaN result counts as [+0]. *)
Definition SortCompare (x y : A) : float :=
  let v := comparefn x y in
  if is_nan v then 0%float else v.

(** [x] stays in front of [y] unless the comparator says [y] goes first. *)
Definition keeps_before (x y : A) : bool :=
  negb (0 <? SortCompare x y)%float.

Fixpoint sort_insert (x : A) (sorted : list A) : list A :=
  match sorted with
  | [] => [x]
  | y :: rest =>
      if keeps_before x y then x :: y :: rest
      else y :: sort_insert x rest
  end.

(** [arr.sort(comparefn)]: ECMAScript requires a stable sort, which for
    a consistent comparator fixes the result whatever the algorithm. The
    engine's algorithm is represented by stable insertion: each element
    enters the sorted rest of the array in front of the first element
    that the comparator does not put before it. For an inconsistent
    comparator, which [(a, b) => b.score - a.score] is as soon as a score
    is NaN, ECMAScript leaves the order to the engine, and the engine's
    order need not be the one of insertion: what is stated below of the
    order of a ranking is stated for the case where no score is NaN (see
    [scores_defined]), and what is stated for every store does not depend
    on the order. *)
Fixpoint Array_sort (arr : list A) : list A :=
  match arr with
  | [] => []
  | x :: rest => sort_insert x (Array_sort rest)
  end.
End ArraySort.

(* ================================================================= *)
(** ** Cosine similarity (index.js, [cosineSim]) *)

(** [a[i]] read as a number: an index past the end yields [undefined],
    which arithmetic turns into NaN. *)
Definition at_index (a : list float) (i : nat) : float := nth i a nan.

(** [1e-8] as the binary64 value JavaScript parses it to. *)
Definition epsilon : float := 0x1.5798ee2308c3ap-27%float.

(** One turn of the [for] loop over [(dot, na, nb)]. *)
Definition cosine_step (a b : list float) (acc : float * float * float) (i : nat)
  : float * float * float :=
  let '(dot, na, nb) := acc in
  ((dot + at_index a i * at_index b i)%float,
   (na + at_index a i * at_index a i)%float,
   (nb + at_index b i * at_index b i)%float).

Definition cosineSim (a b : list float) : float :=
  let '(dot, na, nb) :=
    fold_left (cosine_step a b) (seq 0 (List.length a)) (0, 0, 0)%float in
  (dot / (sqrt na * sqrt nb + epsilon))%float.

(* ================================================================= *)
(** ** Chunking (index.js, [chunkText]) *)

(** The loop state: the chunks pushed so far and the running buffer. *)
Definition chunk_state := (list jsstring * jsstring)%type.

(** [if (current.trim()) chunks.push(current.trim())] *)
Definition flush (chunks : list jsstring) (current : jsstring) : list jsstring :=
  if truthy (trim current) then chunks ++ [trim current] else chunks.

(** The body of [for (const line of text.split('\n'))]. *)
Definition chunk_step (maxChars : Z) (st : chunk_state) (line : jsstring) : chunk_state :=
  let '(chunks, current) := st in
  if str_length (current ++ LF :: line) >? maxChars
  then (flush chunks current, line)
  else (chunks, current ++ LF :: line).

Definition chunkText (text : jsstring) (maxChars : Z) : list jsstring :=
  let '(chunks, current) :=
    fold_left (chunk_step maxChars) (split LF text) ([], []) in
  flush chunks current.

(** The default of the [maxChars] parameter. *)
Definition default_maxChars : Z := 500.

(* ================================================================= *)
(** ** Records, requests and responses *)

(** A record of the store. [source] is whatever the request gave as
    [source], which need not be a string. A component of [embedding] is
    a number, or [None] for [null], which is what a component becomes in
    the file when it was NaN or infinite. *)
Record ChunkRecord := {
  id : jsstring;
  text : jsstring;
  source : Json;
  embedding : list (option float)
}.

(** An array of numbers or [null]s as arithmetic reads it: [ToNumber]
    makes [+0] of [null]. *)
Definition numbers (v : list (option float)) : list float :=
  List.map (fun c => match c with Some x => x | None => 0%float end) v.

(** *** Through the file and back: [JSON.parse(JSON.stringify(data))] *)

(** A number: [JSON.stringify] writes NaN and the infinities as [null]
    and [-0] as [0], and any other number with digits that [JSON.parse]
    reads back as the same number. *)
Definition json_number (x : float) : option float :=
  if (x =? 0)%float then Some 0%float
  else if is_finite x then Some x
  else None.

(** A value: its numbers go through, at any depth; strings, booleans
    and [null] are unchanged; an object keeps its members. *)
Fixpoint json_value (v : Json) : Json :=
  match v with
  | JNull => JNull
  | JBool b => JBool b
  | JNumber x =>
      match json_number x with
      | Some y => JNumber y
      | None => JNull
      end
  | JString s => JString s
  | JArray items => JArray (List.map json_value items)
  | JObject members =>
      JObject (List.map (fun kv => match kv with (k, v') => (k, json_value v') end) members)
  end.

(** A record: [id] and [text] are strings, [source] is a value and
    [embedding] an array of numbers or [null]s. *)
Definition json_record (r : ChunkRecord) : ChunkRecord :=
  {| id := id r;
     text := text r;
     source := json_value (source r);
     embedding :=
       List.map (fun c => match c with Some x => json_number x | None => None end)
                (embedding r) |}.

Definition through_json (data : list ChunkRecord) : list ChunkRecord :=
  List.map json_record data.

(** [{ ...item, score }] *)
Record Scored := {
  item : ChunkRecord;
  score : float
}.

(** An element of the [chunks] array of the chat response. *)
Record Citation := {
  cite_id : jsstring;
  cite_text : jsstring;
  cite_source : Json;
  cite_score : float
}.

(** [req.body]: the value [express.json()] parsed from the request (in
    its default strict mode an object or an array), or [None] for
    [undefined], which is what Express 5 leaves when the request carries
    no JSON body. *)
Definition Body := option Json.

(** What destructuring [req.body] binds to a name, when it binds:
    [None] is [undefined]. *)
Definition field (name : string) (body : Body) : option Json :=
  match body with
  | Some v => property name v
  | None => None
  end.

(** The fields [POST /api/docs] reads of its body. *)
Definition docs_text (body : Body) : option Json := field "text" body.
Definition docs_source (body : Body) : option Json := field "source" body.

(** The fields [POST /api/chat] reads of its body. *)
Definition chat_question (body : Body) : option Json := field "question" body.
Definition chat_topK (body : Body) : option Json := field "topK" body.

(** What a handler answers: the value it hands to [res.json], with the
    status set before. *)
Inductive Response :=
| Inserted (inserted : nat)
| Answer (answer : jsstring) (chunks : list Citation)
| Removed (removed remaining : nat) (src : jsstring)
| Failure (status : Z) (error : jsstring)
          (details : option jsstring) (src : option jsstring).

(** The HTTP status of a response ([res.json] alone answers 200). *)
Definition status_of (r : Response) : Z :=
  match r with
  | Failure st _ _ _ => st
  | _ => 200
  end.

(* ================================================================= *)
(** ** The world the handlers run in *)

(** A promise or a call either yields a value or throws. *)
Inductive outcome (A : Type) :=
| Ok (a : A)
| Throw (message : jsstring).
Arguments Ok {A} a.
Arguments Throw {A} message.

(** The feature-extraction pipeline once loaded: text to vector. *)
Definition Extractor := jsstring -> outcome (list float).

(** The TypeErrors the handlers can run into. *)
Inductive Fault :=
(** [const { first, ... } = value] with [value] undefined or null *)
| Undestructurable (first : string) (value : option Json)
(** [callee()] where [callee] is not a function *)
| NotCallable (callee : string).

(** What the handlers ask of their environment. *)
Record Platform := {
  (** [await pipeline('feature-extraction', 'Xenova/all-MiniLM-L6-v2')] *)
  pipeline : outcome Extractor;
  (** the successive readings of [Date.now()] *)
  Date_now : nat -> Z;
  (** [groq.chat.completions.create] followed by
      [.choices[0].message.content], on the system and user contents *)
  chat_completion : jsstring -> jsstring -> outcome jsstring;
  decodeURIComponent : jsstring -> outcome jsstring;
  (** [err.message] of the TypeError the engine throws *)
  TypeError_message : Fault -> jsstring;
  (** the engine's [ToNumber] on a string, an array or an object
      ([StringToNumber], [ToPrimitive]), which can throw *)
  ToNumber_of : Json -> outcome float
}.

Inductive Event :=
| LoadModel
| Embed (input : jsstring)
| ReadStore
| WriteStore (data : list ChunkRecord)
| ReadClock
| Generate (system user : jsstring).

Record World := {
  (** the module variable [embedder]; [None] is [null] *)
  embedder : option Extractor;
  (** [vector-store.json]: the array whose JSON text the file holds,
      which is the last one written; [None] when the file does not exist *)
  vector_store : option (list ChunkRecord);
  (** how many times the clock has been read *)
  ticks : nat;
  (** the effects performed so far, oldest first *)
  trace : list Event
}.

Definition log (e : Event) (w : World) : World :=
  {| embedder := embedder w; vector_store := vector_store w;
     ticks := ticks w; trace := trace w ++ [e] |}.

(** Computations that read and change the world and may throw. *)
Definition M (A : Type) := World -> outcome A * World.

Definition ret (A : Type) (a : A) : M A := fun w => (Ok a, w).

(** A pure step that may throw. *)
Definition lift (A : Type) (o : outcome A) : M A := fun w => (o, w).

Definition bind (A B : Type) (m : M A) (k : A -> M B) : M B :=
  fun w =>
    match m w with
    | (Ok a, w') => k a w'
    | (Throw e, w') => (Throw e, w')
    end.

Notation "x <- m ;; k" := (bind m (fun x => k))
  (at level 61, m at next level, right associativity).

(** [try { body } catch (err) { handler(err.message) }] around a handler. *)
Definition try_catch (body : M Response) (handler : jsstring -> Response)
  : World -> Response * World :=
  fun w =>
    match body w with
    | (Ok r, w') => (r, w')
    | (Throw e, w') => (handler e, w')
    end.

Section Server.
Variable P : Platform.

(** [getEmbedder]: the model is loaded on first use and kept. *)
Definition getEmbedder : M Extractor :=
  fun w =>
    match embedder w with
    | Some e => (Ok e, w)
    | None =>
        match pipeline P with
        | Ok e =>
            (Ok e, {| embedder := Some e; vector_store := vector_store w;
                      ticks := ticks w; trace := trace w ++ [LoadModel] |})
        | Throw msg => (Throw msg, log LoadModel w)
        end
    end.

(** [computeEmbedding] *)
Definition computeEmbedding (input : jsstring) : M (list float) :=
  extractor <- getEmbedder ;;
  fun w => (extractor input, log (Embed input) w).

(** [loadDb]: the file, when there is one, holds the text [saveDb]
    wrote, and [JSON.parse] reads the array back from it. *)
Definition loadDb : M (list ChunkRecord) :=
  fun w =>
    (Ok match vector_store w with
        | None => []
        | Some data => through_json data
        end,
     log ReadStore w).

(** [saveDb]: the JSON text of the whole array replaces the content of
    the file. What the text makes of the array shows when it is read
    back: see [loadDb] and [through_json]. *)
Definition saveDb (data : list ChunkRecord) : M unit :=
  fun w =>
    (Ok tt, {| embedder := embedder w; vector_store := Some data;
               ticks := ticks w; trace := trace w ++ [WriteStore data] |}).

(** [Date.now()] *)
Definition now : M Z :=
  fun w =>
    (Ok (Date_now P (ticks w)),
     {| embedder := embedder w; vector_store := vector_store w;
        ticks := S (ticks w); trace := trace w ++ [ReadClock] |}).

(* --------------------------------------------------------------- *)
(** *** What the two POST handlers do with [req.body] *)

(** [const { first, ... } = req.body]: the value whose properties are
    read; a TypeError when [req.body] is [undefined] or [null]. *)
Definition destructure (first : string) (body : Body) : M Json :=
  match body with
  | None => lift (Throw (TypeError_message P (Undestructurable first None)))
  | Some JNull => lift (Throw (TypeError_message P (Undestructurable first (Some JNull))))
  | Some v => ret v
  end.

(** [if (!x || !x.trim()) ...] on the field [x] called [name]:
    [None] when the test holds; [Some s] when it fails, [x] being then
    the string [s]; and a TypeError when [x] is truthy and is no string,
    for only a string has a [trim] method. *)
Definition required_string (name : string) (x : option Json) : M (option jsstring) :=
  if negb (js_truthy x) then ret None
  else
    match x with
    | Some (JString s) => ret (if truthy (trim s) then Some s else None)
    | _ => lift (Throw (TypeError_message P (NotCallable (name ++ ".trim"))))
    end.

(** [ToNumber] on a JSON value. *)
Definition ToNumber (v : Json) : outcome float :=
  match v with
  | JNull => Ok 0%float
  | JBool b => Ok (if b then 1 else 0)%float
  | JNumber x => Ok x
  | _ => ToNumber_of P v
  end.

(** The [end] that [slice(0, v)] works with. *)
Definition slice_end (v : Json) : outcome IntegerOrInfinity :=
  match ToNumber v with
  | Ok x => Ok (ToIntegerOrInfinity x)
  | Throw msg => Throw msg
  end.

(* --------------------------------------------------------------- *)
(** *** POST /api/docs *)

(** The embedding loop from index [i] on: one record per chunk. *)
Fixpoint embed_chunks (source_label : Json) (chunks : list jsstring) (i : nat)
  : M (list ChunkRecord) :=
  match chunks with
  | [] => ret []
  | chunk :: rest =>
      vector <- computeEmbedding chunk ;;
      stamp <- now ;;
      vectors <- embed_chunks source_label rest (S i) ;;
      ret ({| id := number_to_string stamp ++ js "-" ++ number_to_string (Z.of_nat i);
              text := chunk;
              source := source_label;
              embedding := List.map Some vector |} :: vectors)
  end.

(** The default of [source] in the destructuring pattern. *)
Definition default_source : Json := JString (js "manual").

Definition ingest (body : Body) : M Response :=
  obj <- destructure "text" body ;;
  let text_field := property "text" obj in
  let source_label :=
    match property "source" obj with
    | Some v => v
    | None => default_source
    end in
  checked <- required_string "text" text_field ;;
  match checked with
  | None => ret (Failure 400 (js "text is required") None None)
  | Some t =>
      vectors <- embed_chunks source_label (chunkText t default_maxChars) 0 ;;
      db <- loadDb ;;
      _ <- saveDb (db ++ vectors) ;;
      ret (Inserted (List.length vectors))
  end.

Definition post_docs (body : Body) : World -> Response * World :=
  try_catch (ingest body)
    (fun _ => Failure 500 (js "Failed to index document") None None).

(* --------------------------------------------------------------- *)
(** *** POST /api/chat *)

(** The comparator [(a, b) => b.score - a.score]. *)
Definition by_score_desc (a b : Scored) : float := (score b - score a)%float.

Definition with_score (qEmbedding : list float) (it : ChunkRecord) : Scored :=
  {| item := it; score := cosineSim qEmbedding (numbers (embedding it)) |}.

(** The similarity search: [db.map(...).sort(...).slice(0, topK)], for
    the [topK] that [slice] works with. *)
Definition similarity_search (qEmbedding : list float) (db : list ChunkRecord)
           (topK : IntegerOrInfinity)
  : list Scored :=
  slice0 (Array_sort by_score_desc (List.map (with_score qEmbedding) db)) topK.

Definition contextText (scored : list Scored) : jsstring :=
  join [LF; LF]
    (mapi (fun s i =>
             js "Chunk " ++ number_to_string (Z.of_nat i + 1) ++ js ":"
             ++ [LF] ++ text (item s))
          scored).

Definition system_prompt : jsstring :=
  js "You are an advanced AI assistant. Your task is to provide accurate and concise answers based on the provided context. If the answer is not present in the context, clearly state that you do not have enough information to answer.you may include html tags to well format your answer(note : use <br/> to return to line instead of \n).".

Definition user_prompt (context question : jsstring) : jsstring :=
  js "Context:" ++ [LF] ++ context ++ [LF; LF]
  ++ js "Question: " ++ question ++ [LF; LF]
  ++ js "Please provide a detailed answer, referencing specific parts of the context when applicable, and ensure clarity and precision in your response.".

Definition cite (s : Scored) : Citation :=
  {| cite_id := id (item s); cite_text := text (item s);
     cite_source := source (item s); cite_score := score s |}.

Definition complete (system user : jsstring) : M jsstring :=
  fun w => (chat_completion P system user, log (Generate system user) w).

(** The default of [topK] in the destructuring pattern. *)
Definition default_topK : Json := JNumber 5.

Definition chat (body : Body) : M Response :=
  obj <- destructure "question" body ;;
  let question_field := property "question" obj in
  let topK :=
    match property "topK" obj with
    | Some v => v
    | None => default_topK
    end in
  checked <- required_string "question" question_field ;;
  match checked with
  | None => ret (Failure 400 (js "question is required") None None)
  | Some question =>
      db <- loadDb ;;
      if (List.length db =? 0)%nat
      then ret (Failure 400 (js "No documents indexed yet") None None)
      else
        qEmbedding <- computeEmbedding question ;;
        end_ <- lift (slice_end topK) ;;
        let scored := similarity_search qEmbedding db end_ in
        answer <- complete system_prompt (user_prompt (contextText scored) question) ;;
        ret (Answer answer (List.map cite scored))
  end.

Definition post_chat (body : Body) : World -> Response * World :=
  try_catch (chat body)
    (fun msg => Failure 500 (js "Failed to process chat") (Some msg) None).

(* --------------------------------------------------------------- *)
(** *** DELETE /api/docs/:source *)

(** [item.source === source_label], the label being a string: strict
    equality holds of that very string only. *)
Definition has_source (source_label : jsstring) (it : ChunkRecord) : bool :=
  match source it with
  | JString s => jsstring_eqb s source_label
  | _ => false
  end.

(** Lines 197-207: the store part of the handler, for the validated
    [source]. *)
Definition deleteBySource (source_label : jsstring) : M Response :=
  db <- loadDb ;;
  let before := List.length db in
  let filtered := filter (fun it => negb (has_source source_label it)) db in
  let removed := (before - List.length filtered)%nat in
  if (removed =? 0)%nat
  then ret (Failure 404 (js "No vectors found for source") None (Some source_label))
  else
    _ <- saveDb filtered ;;
    ret (Removed removed (List.length filtered) source_label).

Definition delete_source (param : jsstring) : M Response :=
  fun w =>
    match decodeURIComponent P param with
    | Throw msg => (Throw msg, w)
    | Ok decoded =>
        let source_label := trim decoded in
        if negb (truthy source_label)
        then (Ok (Failure 400 (js "source is required") None None), w)
        else deleteBySource source_label w
    end.

Definition delete_docs (param : jsstring) : World -> Response * World :=
  try_catch (delete_source param)
    (fun msg => Failure 500 (js "Failed to delete source") (Some msg) None).
End Server.

(* ================================================================= *)
(** ** Notions used to state and prove the properties *)

(** *** Binary64 *)

Definition emin64 : Z := emin.

Definition signed_nonzero (s : bool) (r : spec_float) : Prop :=
  match r with
  | S754_finite s' _ _ | S754_infinity s' => s' = s
  | _ => False
  end.

Definition aligned (m : positive) (e ez : Z) : Z := Zpos (fst (shl_align m e ez)).

Definition SFzero : spec_float := S754_zero false.

Definition SFkey (x : spec_float) : Z * Z * Z :=
  match x with
  | S754_nan => (0, 0, 0)
  | S754_zero _ => (0, 0, 0)
  | S754_infinity true => (-2, 0, 0)
  | S754_infinity false => (2, 0, 0)
  | S754_finite true m e => (-1, - e, Zneg m)
  | S754_finite false m e => (1, e, Zpos m)
  end.

Definition lex_lt (k k' : Z * Z * Z) : Prop :=
  let '(a, b, c) := k in
  let '(a', b', c') := k' in
  a < a' \/ (a = a' /\ (b < b' \/ (b = b' /\ c < c'))).

Definition lex_le (k k' : Z * Z * Z) : Prop :=
  let '(a, b, c) := k in
  let '(a', b', c') := k' in
  a < a' \/ (a = a' /\ (b < b' \/ (b = b' /\ c <= c'))).


(** *** Lines of a text *)

(** The lines a list of lines keeps once blank ones are dropped. *)
Definition nonblank (ls : list jsstring) : list jsstring :=
  filter (fun l => truthy (trim l)) ls.

(** The non-blank lines of a text, in order. *)
Definition nonblank_lines (s : jsstring) : list jsstring :=
  nonblank (split LF s).

(** Non-blank lines, each without the white space at its two ends. *)
Definition trimmed (ls : list jsstring) : list jsstring :=
  List.map trim (nonblank ls).

Definition trimmed_lines (s : jsstring) : list jsstring :=
  List.map trim (nonblank_lines s).

(** Chunks put back together, a line break between consecutive chunks. *)
Definition reassemble (chunks : list jsstring) : jsstring := join [LF] chunks.

Definition white (s : jsstring) : Prop := Forall (fun c => is_white_space c = true) s.

(** What the loop of [chunkText] maintains, [pre] being the lines already
    consumed: every pushed chunk is within [maxChars] or is one oversized
    line, trimmed; the buffer is within [maxChars], or is one oversized
    line, or is still empty; and every oversized non-blank line met so
    far is a chunk of its own or is the buffer. *)
Definition chunk_inv (maxChars : Z) (pre : list jsstring) (st : chunk_state) : Prop :=
  let '(chunks, current) := st in
  (forall c, In c chunks ->
     str_length c <= maxChars
     \/ exists line, In line pre /\ maxChars < str_length line /\ c = trim line)
  /\ (str_length current <= maxChars
      \/ (In current pre /\ maxChars < str_length current)
      \/ current = [])
  /\ (forall line, In line pre -> maxChars < str_length line ->
        truthy (trim line) = true ->
        In (trim line) chunks \/ line = current).

(** The loop of [chunkText] loses no non-blank line: the trimmed lines of
    the chunks pushed so far, then those of the buffer, are the trimmed
    lines consumed so far. *)
Definition lines_inv (pre : list jsstring) (st : chunk_state) : Prop :=
  let '(chunks, current) := st in
  List.concat (List.map trimmed_lines chunks) ++ trimmed_lines current = trimmed pre.

(** The loop of [chunkText] only groups lines: the chunks pushed so far
    are the non-blank buffers completed so far, trimmed, and those
    buffers followed by the running one hold, line for line, the empty
    string the buffer starts as and then the lines consumed so far. *)
Definition grouping_inv (pre : list jsstring) (st : chunk_state) : Prop :=
  let '(chunks, current) := st in
  exists completed,
    chunks = trimmed completed
    /\ List.concat (List.map (split LF) (completed ++ [current])) = [] :: pre.

(** *** Ranking *)

(** Scores never increase along the list. *)
Definition descending (l : list Scored) : Prop :=
  StronglySorted (fun x y => (score y <=? score x)%float = true) l.

(** JavaScript's [s.score === v]. *)
Definition has_score (v : float) (s : Scored) : bool := (score s =? v)%float.

(** No record of the store gets NaN as its score for the query. *)
Definition scores_defined (qEmbedding : list float) (db : list ChunkRecord) : Prop :=
  Forall (fun it => is_nan (cosineSim qEmbedding (numbers (embedding it))) = false) db.

(** How many elements [slice(0, topK)] keeps of an array of [n]. *)
Definition kept (n : nat) (topK : IntegerOrInfinity) : Z :=
  match topK with
  | NegInfinity => 0
  | Integer k => if k <? 0 then Z.max (Z.of_nat n + k) 0 else Z.min k (Z.of_nat n)
  | PosInfinity => Z.of_nat n
  end.

(** *** The store and the embedder, as a request finds them *)

(** What [loadDb] returns in a world. *)
Definition stored (w : World) : list ChunkRecord :=
  match vector_store w with
  | None => []
  | Some data => through_json data
  end.

(** The records a deletion of [source_label] targets, and the others. *)
Definition matching (source_label : jsstring) (db : list ChunkRecord) : list ChunkRecord :=
  filter (has_source source_label) db.

Definition others (source_label : jsstring) (db : list ChunkRecord) : list ChunkRecord :=
  filter (fun it => negb (has_source source_label it)) db.

(** The extractor [getEmbedder] hands out in a world: the one already
    loaded, else the outcome of loading. *)
Definition extractor_in_use (P : Platform) (w : World) : outcome Extractor :=
  match embedder w with
  | Some e => Ok e
  | None => pipeline P
  end.

(** [computeEmbedding input] throws: the model does not load, or the
    extractor throws on [input]. *)
Definition embedding_fails (P : Platform) (w : World) (input : jsstring) : Prop :=
  match extractor_in_use P w with
  | Throw _ => True
  | Ok e => exists msg, e input = Throw msg
  end.

Definition is_write (e : Event) : bool :=
  match e with
  | WriteStore _ => true
  | _ => false
  end.

(** [w'] comes after [w] with the store file untouched: same content,
    and no write among the effects performed in between. *)
Definition store_untouched (w w' : World) : Prop :=
  vector_store w' = vector_store w
  /\ exists events, trace w' = trace w ++ events
                    /\ forallb (fun e => negb (is_write e)) events = true.

(** The [chunks] array of a chat response. *)
Definition chunks_of (r : Response) : list Citation :=
  match r with
  | Answer _ cs => cs
  | _ => []
  end.

(** The code unit of ['-']. *)
Definition DASH : code_unit := 45%N.

(** The identifier the ingestion loop builds at index [i] when the clock
    reads [stamp]. *)
Definition record_id (stamp : Z) (i : nat) : jsstring :=
  number_to_string stamp ++ js "-" ++ number_to_string (Z.of_nat i).

(** The label the ingestion handler gives the records of a request. *)
Definition label_of (body : Body) : Json :=
  match docs_source body with
  | Some v => v
  | None => default_source
  end.

(** The records of an outcome of the embedding loop. *)
Definition records_of (r : outcome (list ChunkRecord) * World) : list ChunkRecord :=
  match fst r with
  | Ok recs => recs
  | Throw _ => []
  end.

(** *** Concrete stores, platforms and requests used in examples *)

Definition demo_record (label : string) (e : list float) : ChunkRecord :=
  {| id := js label; text := js label; source := JString (js "demo");
     embedding := List.map Some e |}.

(** Three records in two dimensions and a query along the first axis. *)
Definition demo_db : list ChunkRecord :=
  [demo_record "a" [1; 0]%float; demo_record "b" [0; 1]%float;
   demo_record "c" [1; 1]%float].

Definition demo_query : list float := [1; 0]%float.

(** A store whose second record has components near the largest binary64
    value (1.5e308): against the unit query (0.6, 0.8) its dot product
    overflows and its score is NaN. The first record scores about 0.8
    and the third, which is the query itself, about 1. *)
Definition overflow_db : list ChunkRecord :=
  [demo_record "a" [0; 1]%float;
   demo_record "b" [0x1.ab36d48e1acfp+1023; 0x1.ab36d48e1acfp+1023]%float;
   demo_record "c" [0x1.3333333333333p-1; 0x1.999999999999ap-1]%float].

Definition overflow_query : list float :=
  [0x1.3333333333333p-1; 0x1.999999999999ap-1]%float.

(** The messages of V8 for the two TypeErrors. *)
Definition v8_message (f : Fault) : jsstring :=
  match f with
  | Undestructurable first None =>
      js "Cannot destructure property '" ++ js first
      ++ js "' of 'req.body' as it is undefined."
  | Undestructurable first (Some _) =>
      js "Cannot destructure property '" ++ js first
      ++ js "' of 'req.body' as it is null."
  | NotCallable callee => js callee ++ js " is not a function"
  end.

(** A platform for examples: the model loads and maps every text to the
    first axis, the clock stands still within one millisecond, the
    language model answers, and the decoder is the identity (which is
    what [decodeURIComponent] is on a string without a percent sign).
    [ToNumber] gives NaN on what is not a number, as it does on an
    object or on a string that is no numeric literal. *)
Definition demo_platform : Platform :=
  {| pipeline := Ok (fun _ => Ok [1; 0]%float);
     Date_now := fun _ => 1700000000000;
     chat_completion := fun _ _ => Ok (js "Paris.");
     decodeURIComponent := fun s => Ok s;
     TypeError_message := v8_message;
     ToNumber_of := fun _ => Ok nan |}.

(** A platform whose model fails on every text. *)
Definition failing_platform : Platform :=
  {| pipeline := Ok (fun _ => Throw (js "inference failed"));
     Date_now := fun _ => 1700000000000;
     chat_completion := fun _ _ => Ok (js "Paris.");
     decodeURIComponent := fun s => Ok s;
     TypeError_message := v8_message;
     ToNumber_of := fun _ => Ok nan |}.

(** A platform whose model returns a vector with a NaN component. *)
Definition nan_platform : Platform :=
  {| pipeline := Ok (fun _ => Ok [nan; 1]%float);
     Date_now := fun _ => 1700000000000;
     chat_completion := fun _ _ => Ok (js "Paris.");
     decodeURIComponent := fun s => Ok s;
     TypeError_message := v8_message;
     ToNumber_of := fun _ => Ok nan |}.

(** A fresh process: nothing loaded, no store file, nothing done yet. *)
Definition fresh_world : World :=
  {| embedder := None; vector_store := None; ticks := 0; trace := [] |}.

Definition world_with (db : list ChunkRecord) : World :=
  {| embedder := None; vector_store := Some db; ticks := 0; trace := [] |}.

Definition demo_question : jsstring := js "What is the capital of France?".

(** The body [{ question: ..., topK: topK }]. *)
Definition demo_chat (topK : float) : Body :=
  Some (JObject [(js "question", JString demo_question); (js "topK", JNumber topK)]).
Arguments demo_chat topK%_float.

(** The body [{ text: t, source: 'geo' }]. *)
Definition demo_docs (t : string) : Body :=
  Some (JObject [(js "text", JString (js t)); (js "source", JString (js "geo"))]).

(** *** More about chunks *)

(** A string with no white space at either end. *)
Definition is_trimmed (s : jsstring) : Prop := trim s = s.

(** The code units a buffer gathers from a list of lines: each line after
    a line feed. *)
Definition gathered (ls : list jsstring) : jsstring :=
  List.concat (List.map (fun l => LF :: l) ls).

(** The length the buffer reaches on a list of lines. *)
Definition gathered_length (ls : list jsstring) : Z :=
  fold_right (fun l n => 1 + str_length l + n) 0 ls.

(** *** Requests *)

(** A body the handlers can destructure: anything but [undefined] and
    [null]. *)
Definition destructurable (body : Body) : bool :=
  match body with
  | None => false
  | Some JNull => false
  | Some _ => true
  end.

(** A field of which [!x || !x.trim()] holds: missing or otherwise
    falsy, or a string of white space only. *)
Definition blank_field (x : option Json) : bool :=
  match x with
  | Some (JString s) => negb (truthy (trim s))
  | _ => negb (js_truthy x)
  end.

(** A field on which [x.trim()] throws: a truthy value that is no
    string. *)
Definition untrimmable (x : option Json) : bool :=
  match x with
  | Some (JString _) => false
  | _ => js_truthy x
  end.

(** The [topK] a chat request runs with. *)
Definition topK_of (body : Body) : Json :=
  match chat_topK body with
  | Some v => v
  | None => default_topK
  end.

(** A label no delete request can name: a value that is no string, the
    empty string, or a string with white space at either end. *)
Definition unreachable_label (v : Json) : Prop :=
  match v with
  | JString s => s = [] \/ trim s <> s
  | _ => True
  end.

(** A record ingested with the label [" geo"], leading space included. *)
Definition spaced_record : ChunkRecord :=
  {| id := js "1700000000000-0"; text := js "Paris."; source := JString (js " geo");
     embedding := [Some 1; Some 0]%float |}.

(** *** The server over a sequence of requests *)

(** The three routes. *)
Inductive Request :=
| PostDocs (body : Body)
| PostChat (body : Body)
| DeleteDocs (param : jsstring).

(** One request, handled to its end. *)
Definition serve (P : Platform) (req : Request) : World -> Response * World :=
  match req with
  | PostDocs body => post_docs P body
  | PostChat body => post_chat P body
  | DeleteDocs param => delete_docs P param
  end.

(** Requests handled one after another (no two handlers interleaved):
    the world they leave. *)
Fixpoint serve_all (P : Platform) (reqs : list Request) (w : World) : World :=
  match reqs with
  | [] => w
  | req :: rest => serve_all P rest (snd (serve P req w))
  end.

(** The identifier made at clock tick [t] for batch index [k]. *)
Definition id_at (P : Platform) (tk : nat * nat) : jsstring :=
  record_id (Date_now P (fst tk)) (snd tk).

(** Identifiers made at strictly increasing clock ticks, all before [hi]. *)
Definition stamped (P : Platform) (hi : nat) (ids : list jsstring) : Prop :=
  exists tags : list (nat * nat),
    ids = List.map (id_at P) tags
    /\ StronglySorted lt (List.map fst tags)
    /\ Forall (fun t => (t < hi)%nat) (List.map fst tags).

Definition is_load (e : Event) : bool :=
  match e with
  | LoadModel => true
  | _ => false
  end.

(** How many times the model has been loaded, or tried. *)
Definition loads (w : World) : nat := List.length (filter is_load (trace w)).

(** A text as the store is meant to hold it: not empty, no white space
    at either end. *)
Definition clean_text (r : ChunkRecord) : Prop :=
  text r <> [] /\ trim (text r) = text r.

(** A platform whose clock advances by one millisecond at each reading. *)
Definition ticking_platform : Platform :=
  {| pipeline := Ok (fun _ => Ok [1; 0]%float);
     Date_now := fun n => 1700000000000 + Z.of_nat n;
     chat_completion := fun _ _ => Ok (js "Paris.");
     decodeURIComponent := fun s => Ok s;
     TypeError_message := v8_message;
     ToNumber_of := fun _ => Ok nan |}.

Definition demo_session : list Request :=
  [PostDocs (demo_docs "Paris is the capital of France.");
   PostChat (demo_chat 1);
   PostDocs (demo_docs "Berlin is the capital of Germany.");
   DeleteDocs (js "nowhere")].

(** Between [w] and [w'] the model has been left as it was, or loaded
    once, as [e], from not being loaded. *)
Definition loaded_once (e : Extractor) (w w' : World) : Prop :=
  (embedder w' = embedder w /\ loads w' = loads w)
  \/ (embedder w = None /\ embedder w' = Some e /\ loads w' = S (loads w)).

(* ================================================================= *)
(** * Properties *)

Unset Implicit Arguments.

(** ** Binary64 arithmetic: what the ranking relies on *)

Lemma digits2_bounds p :
  2 ^ (Zpos (digits2_pos p) - 1) <= Zpos p < 2 ^ Zpos (digits2_pos p).
Proof.
  induction p as [p IH|p IH|]; simpl digits2_pos; [| |simpl; lia];
    rewrite Pos2Z.inj_succ;
    replace (Z.succ (Z.pos (digits2_pos p)) - 1) with (Z.succ (Z.pos (digits2_pos p) - 1)) by lia;
    rewrite !Z.pow_succ_r by lia; lia.
Qed.

Lemma shr_1_m r : 0 <= shr_m r -> shr_m (shr_1 r) = Z.div2 (shr_m r).
Proof. destruct r as [[|[p|p|]|p] r s]; simpl; intros; try reflexivity; lia. Qed.

Lemma iter_pos_shr p : forall r, 0 <= shr_m r ->
  shr_m (iter_pos shr_1 p r) = Z.shiftr (shr_m r) (Zpos p).
Proof.
  induction p as [p IH|p IH|]; intros r Hr; simpl iter_pos.
  - assert (H1 : 0 <= shr_m (shr_1 r)).
    { rewrite shr_1_m by easy. now apply Z.div2_nonneg. }
    assert (H2 : 0 <= shr_m (iter_pos shr_1 p (shr_1 r))).
    { rewrite IH by easy. now apply Z.shiftr_nonneg. }
    rewrite (IH _ H2), (IH _ H1), shr_1_m by easy.
    rewrite Z.div2_spec, !Z.shiftr_shiftr by lia.
    f_equal; lia.
  - assert (H2 : 0 <= shr_m (iter_pos shr_1 p r)).
    { rewrite IH by easy. now apply Z.shiftr_nonneg. }
    rewrite (IH _ H2), (IH _ Hr), Z.shiftr_shiftr by lia.
    f_equal; lia.
  - rewrite shr_1_m by easy. now rewrite Z.div2_spec.
Qed.

Lemma shr_fexp_pos m e l :
  0 < m -> emin64 <= e ->
  0 < shr_m (fst (shr_fexp prec emax m e l)) /\ emin64 <= snd (shr_fexp prec emax m e l).
Proof.
  intros Hm He. unfold shr_fexp, shr.
  assert (Hrec : shr_m (shr_record_of_loc m l) = m) by (destruct l as [|[]]; reflexivity).
  destruct m as [|p|p]; try lia. simpl Zdigits2.
  pose proof (digits2_bounds p) as [Hlo Hhi].
  remember (fexp prec emax (Z.pos (digits2_pos p) + e) - e) as n eqn:Hn.
  destruct n as [|q|q]; simpl; rewrite ?Hrec; try (split; [lia|exact He]).
  unfold fexp in Hn. fold emin64 in Hn.
  assert (Hq : Zpos q = Zpos (digits2_pos p) - prec) by (unfold emin64 in *; lia).
  split; [|lia].
  rewrite iter_pos_shr by (rewrite Hrec; lia). rewrite Hrec.
  rewrite Z.shiftr_div_pow2 by lia.
  apply Z.div_str_pos. split; [apply Z.pow_pos_nonneg; lia|].
  eapply Z.le_trans; [|exact Hlo].
  apply Z.pow_le_mono_r; [lia|]. rewrite Hq. unfold prec. lia.
Qed.

Lemma round_nearest_even_pos m l : 0 < m -> 0 < round_nearest_even m l.
Proof. intros; destruct l as [|[]]; simpl; try lia. destruct (Z.even m); lia. Qed.

Lemma binary_round_aux_nonzero s m e l :
  0 < m -> emin64 <= e -> signed_nonzero s (binary_round_aux prec emax s m e l).
Proof.
  intros Hm He. unfold binary_round_aux.
  destruct (shr_fexp_pos m e l Hm He) as [H1 H1'].
  destruct (shr_fexp prec emax m e l) as [r1 e1]; simpl in H1, H1'.
  pose proof (round_nearest_even_pos (shr_m r1) (loc_of_shr_record r1) H1) as H2.
  destruct (shr_fexp_pos _ e1 loc_Exact H2 H1') as [H3 H3'].
  destruct (shr_fexp prec emax _ e1 loc_Exact) as [r2 e2]; simpl in H3, H3'.
  destruct (shr_m r2); try lia.
  destruct (e2 <=? emax - prec); reflexivity.
Qed.

Lemma binary_round_nonzero s m e :
  emin64 <= e -> signed_nonzero s (binary_round prec emax s m e).
Proof.
  intros He. unfold binary_round, shl_align.
  set (f := fexp prec emax (Z.pos (digits2_pos m) + e)).
  assert (Hf : emin64 <= f) by (unfold f, fexp, emin64; lia).
  destruct (f - e); apply binary_round_aux_nonzero; lia.
Qed.

Lemma iter_xO m d : Zpos (Pos.iter xO m d) = Zpos m * 2 ^ Zpos d.
Proof.
  induction d using Pos.peano_ind.
  - simpl. lia.
  - rewrite Pos.iter_succ, Pos2Z.inj_succ, Z.pow_succ_r by lia. lia.
Qed.

Lemma shl_align_val m e e' : e' <= e ->
  Zpos (fst (shl_align m e e')) = Zpos m * 2 ^ (e - e').
Proof.
  intros H. unfold shl_align.
  destruct (e' - e) as [|d|d] eqn:E; simpl fst.
  - replace (e - e') with 0 by lia. lia.
  - lia.
  - rewrite iter_xO. f_equal. f_equal. lia.
Qed.

Lemma bounded_facts m e :
  bounded prec emax m e = true ->
  emin64 <= e /\ Zpos (digits2_pos m) <= prec /\ (emin64 < e -> Zpos (digits2_pos m) = prec).
Proof.
  unfold bounded, canonical_mantissa, fexp. fold emin64. intros H.
  apply andb_prop in H as [H _]. apply Z.eqb_eq in H. lia.
Qed.

Lemma aligned_pos m e ez : 0 < aligned m e ez.
Proof. unfold aligned. lia. Qed.

Lemma magnitude_compare mx ex my ey :
  bounded prec emax mx ex = true -> bounded prec emax my ey = true ->
  match Z.compare ex ey with
  | Lt => Lt
  | Gt => Gt
  | Eq => Pos.compare_cont Eq mx my
  end = Z.compare (aligned mx ex (Z.min ex ey)) (aligned my ey (Z.min ex ey)).
Proof.
  intros Hx Hy.
  apply bounded_facts in Hx as (Hx1 & Hx2 & Hx3).
  apply bounded_facts in Hy as (Hy1 & Hy2 & Hy3).
  pose proof (digits2_bounds mx) as [Lx Ux].
  pose proof (digits2_bounds my) as [Ly Uy].
  unfold aligned. rewrite !shl_align_val by lia.
  assert (P : forall d, d <= prec -> 2 ^ d <= 2 ^ prec).
  { intros d Hd. destruct (Z_lt_le_dec d 0).
    - rewrite Z.pow_neg_r by lia. apply Z.pow_nonneg; lia.
    - apply Z.pow_le_mono_r; lia. }
  assert (Q : forall k, 1 <= k -> 2 <= 2 ^ k).
  { intros k Hk. change 2 with (2 ^ 1) at 1. apply Z.pow_le_mono_r; lia. }
  destruct (Z.compare_spec ex ey) as [E|E|E].
  - subst ey. rewrite Z.min_id, Z.sub_diag, !Z.mul_1_r. reflexivity.
  - rewrite Z.min_l by lia. rewrite Z.sub_diag, Z.mul_1_r.
    symmetry. apply Z.compare_lt_iff.
    specialize (Hy3 ltac:(lia)). rewrite Hy3 in Ly.
    specialize (Q (ey - ex) ltac:(lia)). specialize (P _ Hx2).
    assert (2 ^ prec = 2 * 2 ^ (prec - 1)) by reflexivity.
    nia.
  - rewrite Z.min_r by lia. rewrite Z.sub_diag, Z.mul_1_r.
    symmetry. apply Z.compare_gt_iff.
    specialize (Hx3 ltac:(lia)). rewrite Hx3 in Lx.
    specialize (Q (ex - ey) ltac:(lia)). specialize (P _ Hy2).
    assert (2 ^ prec = 2 * 2 ^ (prec - 1)) by reflexivity.
    nia.
Qed.

Lemma binary_normalize_sign d e :
  emin64 <= e ->
  SFltb SFzero (binary_normalize prec emax d e false) = (0 <? d).
Proof.
  intros He. destruct d as [|p|p]; simpl binary_normalize.
  - reflexivity.
  - pose proof (binary_round_nonzero false p e He) as H.
    destruct (binary_round prec emax false p e); simpl in H; try contradiction; subst; reflexivity.
  - pose proof (binary_round_nonzero true p e He) as H.
    destruct (binary_round prec emax true p e); simpl in H; try contradiction; subst; reflexivity.
Qed.

Lemma SFsub_pos x y :
  valid_binary x = true -> valid_binary y = true ->
  x <> S754_nan -> y <> S754_nan ->
  SFltb SFzero (SF64sub y x) = SFltb x y.
Proof.
  intros Vx Vy Nx Ny.
  destruct x as [sx|sx| |sx mx ex], y as [sy|sy| |sy my ey];
    try congruence;
    try (destruct sx; try destruct sy; reflexivity);
    try (destruct sy; reflexivity).
  simpl in Vx, Vy.
  unfold SF64sub, SFsub.
  pose proof (bounded_facts _ _ Vx) as (Hx1 & _).
  pose proof (bounded_facts _ _ Vy) as (Hy1 & _).
  rewrite binary_normalize_sign by lia.
  pose proof (magnitude_compare mx ex my ey Vx Vy) as M.
  rewrite (Z.min_comm ey ex).
  fold (aligned mx ex (Z.min ex ey)). fold (aligned my ey (Z.min ex ey)).
  pose proof (aligned_pos mx ex (Z.min ex ey)) as Px.
  pose proof (aligned_pos my ey (Z.min ex ey)) as Py.
  unfold SFltb, SFcompare.
  destruct sx, sy; simpl cond_Zopp;
    match goal with |- (0 <? ?d) = _ => destruct (Z.ltb_spec 0 d) end;
    try (exfalso; lia); try reflexivity;
    destruct (Z.compare_spec ex ey);
    destruct (Z.compare_spec (aligned mx ex (Z.min ex ey)) (aligned my ey (Z.min ex ey)));
    try discriminate; try rewrite M; try reflexivity;
    exfalso; unfold aligned in *; lia.
Qed.

Lemma SFltb_key x y :
  x <> S754_nan -> y <> S754_nan ->
  (SFltb x y = true <-> lex_lt (SFkey x) (SFkey y)).
Proof.
  intros Nx Ny. unfold SFltb, SFcompare.
  destruct x as [sx|sx| |sx mx ex], y as [sy|sy| |sy my ey]; try congruence;
    try destruct sx; try destruct sy; simpl; try (split; [discriminate|lia]);
    try (split; [lia|reflexivity]).
  all: rewrite ?Pos.compare_cont_spec; simpl Pos.switch_Eq.
  all: destruct (Z.compare_spec ex ey); destruct (Pos.compare_spec mx my); simpl;
    split; intros; try discriminate; try reflexivity; try lia.
Qed.

Lemma SFleb_key x y :
  x <> S754_nan -> y <> S754_nan ->
  (SFleb x y = true <-> lex_le (SFkey x) (SFkey y)).
Proof.
  intros Nx Ny. unfold SFleb, SFcompare.
  destruct x as [sx|sx| |sx mx ex], y as [sy|sy| |sy my ey]; try congruence;
    try destruct sx; try destruct sy; simpl; try (split; [discriminate|lia]);
    try (split; [lia|reflexivity]).
  all: rewrite ?Pos.compare_cont_spec; simpl Pos.switch_Eq.
  all: destruct (Z.compare_spec ex ey); destruct (Pos.compare_spec mx my); simpl;
    split; intros; try discriminate; try reflexivity; try lia.
Qed.

Lemma lex_le_trans k1 k2 k3 : lex_le k1 k2 -> lex_le k2 k3 -> lex_le k1 k3.
Proof. destruct k1 as [[??]?], k2 as [[??]?], k3 as [[??]?]; simpl; lia. Qed.

Lemma lex_not_lt k1 k2 : ~ lex_lt k1 k2 <-> lex_le k2 k1.
Proof. destruct k1 as [[??]?], k2 as [[??]?]; simpl; lia. Qed.

Lemma is_nan_spec x : is_nan x = false <-> Prim2SF x <> S754_nan.
Proof.
  unfold is_nan. rewrite FloatAxioms.eqb_spec. unfold SFeqb, SFcompare.
  destruct (Prim2SF x) as [s|s| |s m e]; simpl.
  - split; [discriminate|reflexivity].
  - destruct s; (split; [discriminate|reflexivity]).
  - split; [discriminate|congruence].
  - rewrite Z.compare_refl, Pos.compare_cont_refl.
    destruct s; (split; [discriminate|reflexivity]).
Qed.

Lemma sub_pos_ltb x y : is_nan x = false -> is_nan y = false ->
  (0 <? y - x)%float = (x <? y)%float.
Proof.
  intros Nx Ny. apply is_nan_spec in Nx, Ny.
  rewrite !FloatAxioms.ltb_spec, FloatAxioms.sub_spec.
  change (Prim2SF 0) with SFzero.
  apply SFsub_pos; auto using Prim2SF_valid.
Qed.

Lemma leb_trans x y z : (x <=? y)%float = true -> (y <=? z)%float = true -> (x <=? z)%float = true.
Proof.
  rewrite !FloatAxioms.leb_spec. intros H1 H2.
  assert (Nx : Prim2SF x <> S754_nan) by (intros E; rewrite E in H1; discriminate).
  assert (Ny : Prim2SF y <> S754_nan) by (intros E; rewrite E in H2; discriminate).
  assert (Nz : Prim2SF z <> S754_nan).
  { intros E; rewrite E in H2. unfold SFleb, SFcompare in H2. destruct (Prim2SF y); discriminate. }
  apply SFleb_key in H1, H2; auto. apply SFleb_key; auto. eapply lex_le_trans; eauto.
Qed.

Lemma ltb_false_leb x y : is_nan x = false -> is_nan y = false ->
  (x <? y)%float = false -> (y <=? x)%float = true.
Proof.
  intros Nx Ny H. apply is_nan_spec in Nx, Ny.
  rewrite FloatAxioms.ltb_spec in H. rewrite FloatAxioms.leb_spec.
  apply SFleb_key; auto. apply lex_not_lt. rewrite <- SFltb_key by auto. congruence.
Qed.

Lemma SFeqb_key x y :
  x <> S754_nan -> y <> S754_nan ->
  (SFeqb x y = true <-> SFkey x = SFkey y).
Proof.
  intros Nx Ny. unfold SFeqb, SFcompare.
  destruct x as [sx|sx| |sx mx ex], y as [sy|sy| |sy my ey]; try congruence;
    try destruct sx; try destruct sy; simpl; try (split; [discriminate|congruence]);
    try (split; [congruence|reflexivity]).
  all: rewrite ?Pos.compare_cont_spec; simpl Pos.switch_Eq.
  all: destruct (Z.compare_spec ex ey); destruct (Pos.compare_spec mx my); simpl;
    split; intros H'; try discriminate; try reflexivity; try congruence;
    try (injection H'; intros; exfalso; lia).
Qed.

Lemma SFltb_not_nan x y : SFltb x y = true -> x <> S754_nan /\ y <> S754_nan.
Proof.
  unfold SFltb, SFcompare. destruct x, y; try discriminate; split; discriminate.
Qed.

Lemma SFeqb_not_nan x y : SFeqb x y = true -> x <> S754_nan /\ y <> S754_nan.
Proof.
  unfold SFeqb, SFcompare. destruct x, y; try discriminate; split; discriminate.
Qed.

Lemma ltb_leb x y : (x <? y)%float = true -> (x <=? y)%float = true.
Proof.
  rewrite FloatAxioms.ltb_spec, FloatAxioms.leb_spec. intros H.
  destruct (SFltb_not_nan _ _ H) as [Nx Ny].
  apply SFltb_key in H; auto. apply SFleb_key; auto.
  destruct (SFkey (Prim2SF x)) as [[??]?], (SFkey (Prim2SF y)) as [[??]?]; simpl in *; lia.
Qed.

Lemma ltb_eqb_false x y v :
  (x <? y)%float = true -> (x =? v)%float = true -> (y =? v)%float = false.
Proof.
  rewrite FloatAxioms.ltb_spec, !FloatAxioms.eqb_spec. intros H E.
  destruct (SFltb_not_nan _ _ H) as [Nx Ny].
  destruct (SFeqb_not_nan _ _ E) as [_ Nv].
  apply SFltb_key in H; auto. apply SFeqb_key in E; auto.
  destruct (SFeqb (Prim2SF y) (Prim2SF v)) eqn:E'; [|reflexivity].
  apply SFeqb_key in E'; auto.
  rewrite E, <- E' in H.
  destruct (SFkey (Prim2SF y)) as [[??]?]; simpl in H; lia.
Qed.

Lemma SF64mul_comm (x y : spec_float) : SF64mul x y = SF64mul y x.
Proof.
  unfold SF64mul, SFmul.
  destruct x as [sx|sx| |sx mx ex], y as [sy|sy| |sy my ey]; trivial;
    try (rewrite (xorb_comm sx sy); reflexivity).
  now rewrite (xorb_comm sx sy), (Pos.mul_comm mx my), (Z.add_comm ex ey).
Qed.

Lemma float_mul_comm (x y : float) : (x * y)%float = (y * x)%float.
Proof. apply Prim2SF_inj. rewrite !FloatAxioms.mul_spec. apply SF64mul_comm. Qed.

Lemma is_nan_ltb_zero v : is_nan v = true -> (0 <? v)%float = false.
Proof.
  intros H. destruct (0 <? v)%float eqn:E; [|reflexivity].
  rewrite FloatAxioms.ltb_spec in E. apply SFltb_not_nan in E as [_ E].
  apply is_nan_spec in E. congruence.
Qed.

(** NaN compares with nothing. *)
Lemma leb_nan_r x : (x <=? nan)%float = false.
Proof.
  rewrite FloatAxioms.leb_spec. change (Prim2SF nan) with S754_nan.
  unfold SFleb, SFcompare. now destruct (Prim2SF x).
Qed.

Lemma leb_nan_l x : (nan <=? x)%float = false.
Proof.
  rewrite FloatAxioms.leb_spec. change (Prim2SF nan) with S754_nan.
  reflexivity.
Qed.

(** *** [ToIntegerOrInfinity] of a number that is zero or below *)

Lemma pow2_le a b : 0 <= a <= b -> 2 ^ a <= 2 ^ b.
Proof. intros H. apply Z.pow_le_mono_r; lia. Qed.

(** A number that is zero or below has [-Infinity] or an integer [n <= 0]
    as its integer part, and [n] is 0 exactly for the numbers above -1. *)
Lemma ToIntegerOrInfinity_nonpositive x :
  (x <=? 0)%float = true ->
  ToIntegerOrInfinity x = NegInfinity
  \/ exists n, ToIntegerOrInfinity x = Integer n /\ n <= 0
               /\ (n = 0 <-> (-1 <? x)%float = true).
Proof.
  rewrite FloatAxioms.leb_spec, FloatAxioms.ltb_spec.
  change (Prim2SF 0) with (S754_zero false).
  change (Prim2SF (-1)) with (S754_finite true 4503599627370496 (-52)).
  pose proof (Prim2SF_valid x) as V. unfold ToIntegerOrInfinity.
  destruct (Prim2SF x) as [s|s| |s m e]; unfold SFleb, SFltb, SFcompare.
  - intros _. right. exists 0. now repeat split.
  - destruct s; [now left|discriminate].
  - discriminate.
  - destruct s; [intros _|discriminate]. right.
    simpl in V. apply bounded_facts in V as (V1 & V2 & V3).
    pose proof (digits2_bounds m) as [L U].
    assert (Em : emin64 = -1074) by reflexivity.
    assert (Pr : prec = 53) by reflexivity.
    rewrite Em, Pr in *. clear Em Pr.
    assert (U53 : Zpos m < 2 ^ 53).
    { eapply Z.lt_le_trans; [exact U|]. apply pow2_le. lia. }
    eexists. split; [reflexivity|].
    destruct (Z.leb_spec 0 e) as [He|He].
    + assert (0 < 2 ^ e) by (apply Z.pow_pos_nonneg; lia).
      split; [nia|].
      destruct (Z.compare_spec (-52) e); lia.
    + assert (P : 0 < 2 ^ (- e)) by (apply Z.pow_pos_nonneg; lia).
      pose proof (Z.div_pos (Zpos m) (2 ^ (- e)) ltac:(lia) P) as D.
      split; [lia|]. split.
      * intros Hz. assert (Z0 : Zpos m / 2 ^ (- e) = 0) by lia.
        apply Z.div_small_iff in Z0; [|lia]. destruct Z0 as [Z0|Z0]; [|lia].
        destruct (Z.compare_spec (-52) e) as [E|E|E]; [| |reflexivity]; exfalso.
        -- subst e. rewrite V3 in L by lia. simpl in Z0, L. lia.
        -- rewrite V3 in L by lia.
           assert (2 ^ (- e) <= 2 ^ 52) by (apply pow2_le; lia).
           change (2 ^ (53 - 1)) with (2 ^ 52) in L. lia.
      * intros Hlt.
        assert (E : e < -52).
        { destruct (Z.compare_spec (-52) e) as [E|E|E]; [| |exact E].
          - exfalso. subst e. rewrite V3 in L by lia.
            change (2 ^ (53 - 1)) with 4503599627370496 in L.
            rewrite Pos.compare_cont_spec in Hlt.
            unfold Pos.switch_Eq in Hlt.
            destruct (Pos.compare_spec 4503599627370496 m) as [H|H|H];
              cbv beta iota delta [CompOpp] in Hlt;
              [discriminate Hlt|discriminate Hlt|].
            apply Pos2Z.pos_lt_pos in H. exact (Zle_not_lt _ _ L H).
          - discriminate. }
        assert (2 ^ 53 <= 2 ^ (- e)) by (apply pow2_le; lia).
        rewrite Z.div_small by lia. reflexivity.
Qed.

(* ================================================================= *)
(** ** Cosine similarity *)

(** Swapping the two vectors swaps the two norm accumulators and leaves
    the dot product alone, turn by turn. *)
Lemma cosine_loop_swap (a b : list float) (idx : list nat) :
  forall dot na nb,
    fold_left (cosine_step b a) idx (dot, nb, na) =
    (let '(d, x, y) := fold_left (cosine_step a b) idx (dot, na, nb) in (d, y, x)).
Proof.
  induction idx as [|i idx IH]; intros dot na nb; simpl.
  - reflexivity.
  - rewrite (float_mul_comm (at_index b i) (at_index a i)). apply IH.
Qed.

(** C8. For vectors of equal length, [cosineSim a b] and [cosineSim b a]
    are the same binary64 value (NaN included, when the sums overflow);
    hence JavaScript's [===] on the two results holds whenever that
    common value is a number. *)
Theorem cosineSim_symmetric (a b : list float) :
  List.length a = List.length b ->
  cosineSim a b = cosineSim b a
  /\ (cosineSim a b =? cosineSim b a)%float = negb (is_nan (cosineSim a b)).
Proof.
  intros Hlen.
  assert (E : cosineSim a b = cosineSim b a).
  { unfold cosineSim. rewrite <- Hlen.
    rewrite (cosine_loop_swap a b (seq 0 (List.length a)) 0%float 0%float 0%float).
    destruct (fold_left (cosine_step a b) (seq 0 (List.length a)) (0, 0, 0)%float)
      as [[dot na] nb].
    now rewrite (float_mul_comm (sqrt nb) (sqrt na)). }
  split; [exact E|].
  rewrite <- E. unfold is_nan. now rewrite negb_involutive.
Qed.

Lemma cosineSim_symmetric_witness :
  cosineSim [1; 2]%float [3; 4]%float = cosineSim [3; 4]%float [1; 2]%float
  /\ (cosineSim [1; 2] [3; 4] =? cosineSim [3; 4] [1; 2])%float
     = negb (is_nan (cosineSim [1; 2]%float [3; 4]%float)).
Proof. apply (cosineSim_symmetric [1; 2]%float [3; 4]%float). reflexivity. Defined.

(* ================================================================= *)
(** ** Strings: [trim] and [split] *)

Lemma trimStart_length s : (List.length (trimStart s) <= List.length s)%nat.
Proof.
  induction s as [|c s IH]; simpl; [lia|].
  destruct (is_white_space c); simpl; lia.
Qed.

Lemma trim_length s : (List.length (trim s) <= List.length s)%nat.
Proof.
  unfold trim, trimEnd. rewrite length_rev.
  etransitivity; [apply trimStart_length|].
  rewrite length_rev. apply trimStart_length.
Qed.

Lemma trimStart_white s : white s -> trimStart s = [].
Proof.
  induction 1 as [|c s Hc _ IH]; simpl; [reflexivity|]. now rewrite Hc.
Qed.

Lemma trimStart_split s : exists w, white w /\ s = w ++ trimStart s.
Proof.
  induction s as [|c s (w & Hw & E)]; simpl.
  - exists []. split; [constructor|reflexivity].
  - destruct (is_white_space c) eqn:Hc.
    + exists (c :: w). split; [now constructor|]. simpl. now f_equal.
    + exists []. split; [constructor|reflexivity].
Qed.

Lemma trimEnd_split s : exists w, white w /\ s = trimEnd s ++ w.
Proof.
  destruct (trimStart_split (List.rev s)) as (w & Hw & E).
  exists (List.rev w). split.
  - now apply Forall_rev.
  - unfold trimEnd. rewrite <- rev_app_distr, <- E. now rewrite rev_involutive.
Qed.

Lemma white_app a b : white a -> white b -> white (a ++ b).
Proof. intros; now apply Forall_app. Qed.

Lemma trim_white s : white s -> trim s = [].
Proof. intros H. unfold trim. now rewrite (trimStart_white s H). Qed.

Lemma trim_cons_white c s : is_white_space c = true -> trim (c :: s) = trim s.
Proof. intros H. unfold trim. simpl. now rewrite H. Qed.

Lemma trimStart_snoc c s :
  is_white_space c = true ->
  trimStart (s ++ [c]) = if truthy (trimStart s) then trimStart s ++ [c] else [].
Proof.
  intros Hc. induction s as [|d s IH]; simpl.
  - now rewrite Hc.
  - destruct (is_white_space d); [exact IH|reflexivity].
Qed.

Lemma trimEnd_snoc c s : is_white_space c = true -> trimEnd (s ++ [c]) = trimEnd s.
Proof.
  intros Hc. unfold trimEnd. rewrite rev_app_distr. simpl. now rewrite Hc.
Qed.

Lemma trim_snoc_white c s : is_white_space c = true -> trim (s ++ [c]) = trim s.
Proof.
  intros Hc. unfold trim. rewrite (trimStart_snoc c s Hc).
  destruct (trimStart s) as [|d t]; simpl truthy; cbv iota.
  - reflexivity.
  - now apply trimEnd_snoc.
Qed.

Lemma split_nonempty sep s : split sep s <> [].
Proof.
  destruct s as [|c s]; simpl; [discriminate|].
  destruct (c =? sep)%N; [discriminate|].
  destruct (split sep s); discriminate.
Qed.

Lemma split_app sep a b :
  split sep (a ++ sep :: b) = split sep a ++ split sep b.
Proof.
  induction a as [|c a IH]; simpl.
  - now rewrite N.eqb_refl.
  - destruct (c =? sep)%N.
    + now rewrite IH.
    + rewrite IH. pose proof (split_nonempty sep a) as Hne.
      destruct (split sep a); [contradiction|reflexivity].
Qed.

Lemma split_no_sep sep s : Forall (fun l => ~ In sep l) (split sep s).
Proof.
  induction s as [|c s IH]; simpl.
  - constructor; [intros []|constructor].
  - destruct (N.eqb_spec c sep) as [E|E].
    + constructor; [intros []|exact IH].
    + destruct (split sep s) as [|l ls]; [repeat constructor; intros [H|[]]; congruence|].
      inversion IH as [|? ? Hl Hls]; subst. constructor; [|exact Hls].
      intros [H|H]; [congruence|contradiction].
Qed.

Lemma split_single sep l : ~ In sep l -> split sep l = [l].
Proof.
  induction l as [|c l IH]; simpl; intros H; [reflexivity|].
  destruct (N.eqb_spec c sep) as [E|E]; [exfalso; auto|].
  rewrite IH by tauto. reflexivity.
Qed.

Lemma split_snoc sep c s :
  c <> sep ->
  exists init lst, split sep s = init ++ [lst] /\ split sep (s ++ [c]) = init ++ [lst ++ [c]].
Proof.
  intros Hc. induction s as [|d s (init & lst & E1 & E2)]; simpl.
  - exists [], []. split; [reflexivity|].
    destruct (N.eqb_spec c sep); [contradiction|reflexivity].
  - destruct (d =? sep)%N.
    + exists ([] :: init), lst. rewrite E1, E2. split; reflexivity.
    + rewrite E1, E2. destruct init as [|l0 init]; simpl.
      * exists [], (d :: lst). split; reflexivity.
      * exists ((d :: l0) :: init), lst. split; reflexivity.
Qed.

Lemma white_lines s : white s -> Forall white (split LF s).
Proof.
  induction 1 as [|c s Hc Hs IH]; simpl.
  - repeat constructor.
  - destruct (c =? LF)%N.
    + constructor; [constructor|exact IH].
    + destruct (split LF s) as [|l ls]; [repeat constructor; exact Hc|].
      inversion IH; subst. constructor; [now constructor|assumption].
Qed.

(** *** Non-blank lines survive trimming *)

Lemma trimmed_lines_split s : trimmed_lines s = trimmed (split LF s).
Proof. reflexivity. Qed.

Lemma trimmed_app a b : trimmed (a ++ b) = trimmed a ++ trimmed b.
Proof. unfold trimmed, nonblank. now rewrite filter_app, map_app. Qed.

Lemma trimmed_cons_trim l l' ls : trim l = trim l' -> trimmed (l :: ls) = trimmed (l' :: ls).
Proof. intros E. unfold trimmed, nonblank. simpl. rewrite E. now destruct (truthy (trim l')); simpl; rewrite ?E. Qed.

Lemma trimmed_blank l ls : trim l = [] -> trimmed (l :: ls) = trimmed ls.
Proof. intros E. unfold trimmed, nonblank. simpl. now rewrite E. Qed.

Lemma trim_nil : trim [] = [].
Proof. reflexivity. Qed.

Lemma trimmed_lines_trimStart s : trimmed_lines (trimStart s) = trimmed_lines s.
Proof.
  induction s as [|c s IH]; simpl; [reflexivity|].
  destruct (is_white_space c) eqn:Hc; [|reflexivity].
  rewrite IH, !trimmed_lines_split. simpl.
  destruct (c =? LF)%N.
  - symmetry. apply trimmed_blank, trim_nil.
  - pose proof (split_nonempty LF s) as Hne.
    destruct (split LF s) as [|l ls]; [contradiction|].
    symmetry. apply trimmed_cons_trim. now apply trim_cons_white.
Qed.

Lemma trimmed_lines_snoc c s :
  is_white_space c = true -> trimmed_lines (s ++ [c]) = trimmed_lines s.
Proof.
  intros Hc. rewrite !trimmed_lines_split.
  destruct (N.eq_dec c LF) as [E|E].
  - subst c. rewrite split_app, trimmed_app.
    replace (trimmed (split LF [])) with (@nil jsstring) by reflexivity.
    apply app_nil_r.
  - destruct (split_snoc LF c s E) as (init & lst & E1 & E2).
    rewrite E1, E2, !trimmed_app. f_equal.
    apply trimmed_cons_trim. now apply trim_snoc_white.
Qed.

Lemma trimmed_lines_app_white w : white w ->
  forall s, trimmed_lines (s ++ w) = trimmed_lines s.
Proof.
  induction 1 as [|c w Hc _ IH]; intros s.
  - now rewrite app_nil_r.
  - change (s ++ c :: w) with (s ++ [c] ++ w). rewrite app_assoc, IH.
    now apply trimmed_lines_snoc.
Qed.

Lemma trimmed_lines_trimEnd s : trimmed_lines (trimEnd s) = trimmed_lines s.
Proof.
  destruct (trimEnd_split s) as (w & Hw & E).
  rewrite E at 2. symmetry. now apply trimmed_lines_app_white.
Qed.

Lemma trimmed_lines_trim s : trimmed_lines (trim s) = trimmed_lines s.
Proof. unfold trim. now rewrite trimmed_lines_trimEnd, trimmed_lines_trimStart. Qed.

Lemma trimmed_lines_join chunks :
  trimmed_lines (reassemble chunks) = List.concat (List.map trimmed_lines chunks).
Proof.
  unfold reassemble.
  induction chunks as [|p ps IH]; [reflexivity|].
  destruct ps as [|q ps].
  - simpl. now rewrite app_nil_r.
  - change (join [LF] (p :: q :: ps)) with (p ++ LF :: join [LF] (q :: ps)).
    rewrite trimmed_lines_split, split_app, trimmed_app, <- !trimmed_lines_split, IH.
    reflexivity.
Qed.

(* ================================================================= *)
(** ** The chunker *)

(** An invariant of a left fold that may mention the elements consumed
    so far. *)
Lemma fold_left_prefix_ind (A S : Type) (f : S -> A -> S)
      (I : list A -> S -> Prop) (l : list A) (s0 : S) :
  I [] s0 ->
  (forall pre x st, In x l -> I pre st -> I (pre ++ [x]) (f st x)) ->
  I l (fold_left f l s0).
Proof.
  intros H0 Hstep.
  assert (G : forall rest pre st,
             incl rest l -> I pre st -> I (pre ++ rest) (fold_left f rest st)).
  { induction rest as [|x rest IH]; intros pre st Hin Hi; simpl.
    - now rewrite app_nil_r.
    - replace (pre ++ x :: rest) with ((pre ++ [x]) ++ rest)
        by (now rewrite <- app_assoc).
      apply IH.
      + intros y Hy. apply Hin. now right.
      + apply Hstep; [apply Hin; now left|exact Hi]. }
  apply (G l [] s0); [apply incl_refl|exact H0].
Qed.

Lemma in_flush c chunks current :
  In c (flush chunks current) <->
  In c chunks \/ (c = trim current /\ truthy (trim current) = true).
Proof.
  unfold flush. destruct (truthy (trim current)) eqn:E.
  - rewrite in_app_iff. simpl. intuition congruence.
  - intuition congruence.
Qed.

Lemma str_length_trim s : str_length (trim s) <= str_length s.
Proof. unfold str_length. pose proof (trim_length s). lia. Qed.

Lemma str_length_app_line current line :
  str_length (current ++ LF :: line) = str_length current + 1 + str_length line.
Proof. unfold str_length. rewrite length_app. simpl. lia. Qed.

Lemma chunk_inv_step maxChars pre line st :
  chunk_inv maxChars pre st ->
  chunk_inv maxChars (pre ++ [line]) (chunk_step maxChars st line).
Proof.
  destruct st as [chunks current]. intros (Hc & Hb & Ho).
  unfold chunk_step.
  destruct (Z.gtb_spec (str_length (current ++ LF :: line)) maxChars) as [G|G].
  - (* flush, then restart the buffer with the line *)
    repeat split.
    + intros c Hin. apply in_flush in Hin as [Hin|[-> Ht]].
      * destruct (Hc c Hin) as [?|(l & Hl & ? & ?)]; [now left|right].
        exists l. rewrite in_app_iff. tauto.
      * destruct Hb as [Hb|[[Hb1 Hb2]|Hb]].
        -- left. pose proof (str_length_trim current). lia.
        -- right. exists current. rewrite in_app_iff. tauto.
        -- subst current. discriminate Ht.
    + destruct (Z_le_gt_dec (str_length line) maxChars) as [L|L]; [now left|].
      right; left. rewrite in_app_iff. simpl. split; [tauto|lia].
    + intros l Hl Hover Ht. apply in_app_iff in Hl as [Hl|[<-|[]]]; [|now right].
      left. apply in_flush.
      destruct (Ho l Hl Hover Ht) as [?|<-]; [now left|right; now split].
  - (* the line joins the buffer *)
    rewrite str_length_app_line in G.
    assert (0 <= str_length current) by (unfold str_length; lia).
    assert (0 <= str_length line) by (unfold str_length; lia).
    repeat split.
    + intros c Hin.
      destruct (Hc c Hin) as [?|(l & Hl & ? & ?)]; [now left|right].
      exists l. rewrite in_app_iff. tauto.
    + left. rewrite str_length_app_line. lia.
    + intros l Hl Hover Ht. apply in_app_iff in Hl as [Hl|[<-|[]]]; [|lia].
      destruct (Ho l Hl Hover Ht) as [?|<-]; [now left|lia].
Qed.

Lemma chunk_inv_loop maxChars ls :
  chunk_inv maxChars ls (fold_left (chunk_step maxChars) ls ([], [])).
Proof.
  apply fold_left_prefix_ind.
  - repeat split; [intros c []| now right; right | intros l []].
  - intros pre x st _. apply chunk_inv_step.
Qed.

Lemma chunkText_white text maxChars : white text -> chunkText text maxChars = [].
Proof.
  intros Hw. unfold chunkText.
  assert (I : let '(chunks, current) :=
                fold_left (chunk_step maxChars) (split LF text) ([], []) in
              chunks = [] /\ white current).
  { apply (fold_left_prefix_ind _ _ (chunk_step maxChars)
             (fun _ st => let '(chunks, current) := st in chunks = [] /\ white current)).
    - split; [reflexivity|constructor].
    - intros pre x [chunks current] Hx [-> Hcur]. unfold chunk_step.
      assert (Hwx : white x).
      { pose proof (white_lines text Hw) as F. rewrite Forall_forall in F. now apply F. }
      destruct (str_length (current ++ LF :: x) >? maxChars).
      + split; [|exact Hwx]. unfold flush. now rewrite (trim_white current Hcur).
      + split; [reflexivity|]. apply white_app; [exact Hcur|now constructor]. }
  destruct (fold_left (chunk_step maxChars) (split LF text) ([], [])) as [chunks current].
  destruct I as [-> Hcur]. unfold flush. now rewrite (trim_white current Hcur).
Qed.

(** C4. Every chunk of [chunkText text maxChars] has at most [maxChars]
    code units, unless it is a single line of the input that is itself
    longer than [maxChars] (the chunk is then that whole line, trimmed);
    such a line, when not blank, is never split: it is a chunk of its own;
    and an empty or white-space-only input yields no chunk. *)
Theorem chunkText_bounded (text : jsstring) (maxChars : Z) :
  (forall c, In c (chunkText text maxChars) ->
     str_length c <= maxChars
     \/ exists line, In line (split LF text)
                     /\ maxChars < str_length line /\ c = trim line)
  /\ (forall line, In line (split LF text) -> maxChars < str_length line ->
        truthy (trim line) = true -> In (trim line) (chunkText text maxChars))
  /\ (white text -> chunkText text maxChars = []).
Proof.
  pose proof (chunk_inv_loop maxChars (split LF text)) as I.
  unfold chunkText.
  destruct (fold_left (chunk_step maxChars) (split LF text) ([], [])) as [chunks current] eqn:E.
  destruct I as (Hc & Hb & Ho).
  split; [|split].
  - intros c Hin. apply in_flush in Hin as [Hin|[-> Ht]]; [now apply Hc|].
    destruct Hb as [Hb|[[Hb1 Hb2]|Hb]].
    + left. pose proof (str_length_trim current). lia.
    + right. now exists current.
    + subst current. discriminate Ht.
  - intros l Hl Hover Ht. apply in_flush.
    destruct (Ho l Hl Hover Ht) as [?|<-]; [now left|right; now split].
  - intros Hw. pose proof (chunkText_white text maxChars Hw) as W.
    unfold chunkText in W. now rewrite E in W.
Qed.

Lemma chunkText_bounded_witness :
  (forall c, In c (chunkText (js "abcdefgh" ++ [LF] ++ js "de") 4) ->
     str_length c <= 4
     \/ exists line, In line (split LF (js "abcdefgh" ++ [LF] ++ js "de"))
                     /\ 4 < str_length line /\ c = trim line)
  /\ (forall line, In line (split LF (js "abcdefgh" ++ [LF] ++ js "de")) ->
        4 < str_length line -> truthy (trim line) = true ->
        In (trim line) (chunkText (js "abcdefgh" ++ [LF] ++ js "de") 4))
  /\ (white (js "abcdefgh" ++ [LF] ++ js "de") ->
      chunkText (js "abcdefgh" ++ [LF] ++ js "de") 4 = []).
Proof. exact (chunkText_bounded (js "abcdefgh" ++ [LF] ++ js "de") 4). Defined.

Lemma trimmed_lines_flush chunks current :
  List.concat (List.map trimmed_lines (flush chunks current)) =
  List.concat (List.map trimmed_lines chunks) ++ trimmed_lines current.
Proof.
  unfold flush. rewrite <- (trimmed_lines_trim current).
  destruct (trim current) as [|c t] eqn:E; simpl truthy; cbv iota.
  - now rewrite app_nil_r.
  - rewrite map_app, concat_app. simpl. now rewrite app_nil_r.
Qed.

Lemma lines_inv_step maxChars pre line st :
  ~ In LF line ->
  lines_inv pre st -> lines_inv (pre ++ [line]) (chunk_step maxChars st line).
Proof.
  destruct st as [chunks current]. unfold lines_inv, chunk_step. intros Hline K.
  assert (Hl : trimmed_lines line = trimmed [line]).
  { now rewrite trimmed_lines_split, split_single. }
  destruct (str_length (current ++ LF :: line) >? maxChars).
  - now rewrite trimmed_lines_flush, K, Hl, trimmed_app.
  - rewrite (trimmed_lines_split (current ++ LF :: line)), split_app, trimmed_app,
      <- !trimmed_lines_split, app_assoc, K, Hl.
    now rewrite trimmed_app.
Qed.

Lemma flush_trimmed completed current :
  flush (trimmed completed) current = trimmed (completed ++ [current]).
Proof.
  unfold flush. rewrite trimmed_app.
  replace (trimmed [current])
    with (if truthy (trim current) then [trim current] else [])
    by (unfold trimmed, nonblank; simpl; now destruct (truthy (trim current))).
  destruct (truthy (trim current)); [reflexivity|now rewrite app_nil_r].
Qed.

Lemma concat_lines_snoc (bs : list jsstring) (b : jsstring) :
  List.concat (List.map (split LF) (bs ++ [b]))
  = List.concat (List.map (split LF) bs) ++ split LF b.
Proof. rewrite map_app, concat_app. simpl. now rewrite app_nil_r. Qed.

Lemma grouping_inv_step maxChars pre line st :
  ~ In LF line ->
  grouping_inv pre st -> grouping_inv (pre ++ [line]) (chunk_step maxChars st line).
Proof.
  destruct st as [chunks current]. unfold grouping_inv, chunk_step.
  intros Hline (completed & Hc & Hl).
  destruct (str_length (current ++ LF :: line) >? maxChars).
  - exists (completed ++ [current]). split.
    + rewrite Hc. apply flush_trimmed.
    + rewrite concat_lines_snoc, Hl, (split_single LF line Hline). reflexivity.
  - exists completed. split; [exact Hc|].
    rewrite concat_lines_snoc in Hl |- *.
    rewrite split_app, (split_single LF line Hline), app_assoc, Hl. reflexivity.
Qed.

(** C7, as the code has it. Put back together with a line break between
    consecutive chunks, the chunks carry the non-blank lines of the input
    in their order, each without the white space at its two ends. Nothing
    else is lost: the chunks are the non-blank buffers of the loop, each
    trimmed as a whole, and those buffers hold the lines of the input,
    whole and in order, after the empty string the buffer starts as. So
    only the white space that opens a chunk's first line or closes its
    last line is not kept. *)
Theorem chunkText_keeps_trimmed_lines (text : jsstring) (maxChars : Z) :
  trimmed_lines (reassemble (chunkText text maxChars)) = trimmed_lines text
  /\ exists buffers,
       chunkText text maxChars = trimmed buffers
       /\ List.concat (List.map (split LF) buffers) = [] :: split LF text.
Proof.
  assert (F : forall x, In x (split LF text) -> ~ In LF x).
  { pose proof (split_no_sep LF text) as F. now rewrite Forall_forall in F. }
  split.
  - rewrite trimmed_lines_join. unfold chunkText.
    assert (K : lines_inv (split LF text)
                  (fold_left (chunk_step maxChars) (split LF text) ([], []))).
    { apply fold_left_prefix_ind.
      - reflexivity.
      - intros pre x st Hx. apply lines_inv_step. now apply F. }
    destruct (fold_left (chunk_step maxChars) (split LF text) ([], [])) as [chunks current].
    rewrite trimmed_lines_flush. exact K.
  - unfold chunkText.
    assert (G : grouping_inv (split LF text)
                  (fold_left (chunk_step maxChars) (split LF text) ([], []))).
    { apply fold_left_prefix_ind.
      - exists []. split; reflexivity.
      - intros pre x st Hx. apply grouping_inv_step. now apply F. }
    destruct (fold_left (chunk_step maxChars) (split LF text) ([], [])) as [chunks current].
    destruct G as (completed & Hc & Hl).
    exists (completed ++ [current]). split; [|exact Hl].
    rewrite Hc. apply flush_trimmed.
Qed.

(** C7 as stated fails: the input [" a"] has the non-blank line [" a"],
    and its only chunk is ["a"]. *)
Lemma chunkText_drops_edge_space :
  chunkText (js " a") default_maxChars = [js "a"]
  /\ nonblank_lines (reassemble (chunkText (js " a") default_maxChars)) = [js "a"]
  /\ nonblank_lines (js " a") = [js " a"]
  /\ nonblank_lines (reassemble (chunkText (js " a") default_maxChars))
     <> nonblank_lines (js " a").
Proof. repeat split; try reflexivity. discriminate. Qed.

(* ================================================================= *)
(** ** Sorting by score and the similarity search *)

Lemma sort_insert_perm (A : Type) (c : A -> A -> float) x l :
  Permutation (sort_insert c x l) (x :: l).
Proof.
  induction l as [|y l IH]; simpl; [reflexivity|].
  destruct (keeps_before c x y); [reflexivity|].
  rewrite IH. apply perm_swap.
Qed.

Lemma Array_sort_perm (A : Type) (c : A -> A -> float) l :
  Permutation (Array_sort c l) l.
Proof.
  induction l as [|x l IH]; simpl; [reflexivity|].
  rewrite sort_insert_perm. now constructor.
Qed.

Lemma Array_sort_length (A : Type) (c : A -> A -> float) l :
  List.length (Array_sort c l) = List.length l.
Proof. apply Permutation_length, Array_sort_perm. Qed.

Lemma slice0_length (A : Type) (l : list A) topK :
  Z.of_nat (List.length (slice0 l topK)) = kept (List.length l) topK.
Proof.
  unfold slice0, kept. rewrite length_firstn.
  destruct topK as [|k|]; [lia| |lia].
  destruct (k <? 0) eqn:E; lia.
Qed.

Lemma slice0_prefix (A : Type) (l : list A) topK :
  exists rest, l = slice0 l topK ++ rest.
Proof.
  unfold slice0. eexists. symmetry. apply firstn_skipn.
Qed.

(** With both scores numbers, the comparator lets [x] stay in front of
    [y] exactly when the score of [x] is not the smaller one. *)
Lemma keeps_before_by_score x y :
  is_nan (score x) = false -> is_nan (score y) = false ->
  keeps_before by_score_desc x y = negb (score x <? score y)%float.
Proof.
  intros Nx Ny. unfold keeps_before, SortCompare, by_score_desc. f_equal.
  rewrite <- (sub_pos_ltb (score x) (score y) Nx Ny).
  destruct (is_nan (score y - score x)) eqn:E; [|reflexivity].
  now rewrite (is_nan_ltb_zero _ E).
Qed.

Lemma sort_insert_descending x l :
  is_nan (score x) = false ->
  Forall (fun y => is_nan (score y) = false) l ->
  descending l -> descending (sort_insert by_score_desc x l).
Proof.
  intros Nx Nl Hs. induction Hs as [|y l Hs IH Hy]; simpl.
  - repeat constructor.
  - inversion Nl as [|? ? Ny Nl']; subst.
    rewrite (keeps_before_by_score x y Nx Ny).
    destruct (score x <? score y)%float eqn:E; simpl.
    + constructor; [now apply IH|].
      rewrite Forall_forall. intros w Hw.
      apply (Permutation_in _ (sort_insert_perm _ by_score_desc x l)) in Hw.
      destruct Hw as [<-|Hw]; [now apply ltb_leb|].
      rewrite Forall_forall in Hy. now apply Hy.
    + pose proof (ltb_false_leb _ _ Nx Ny E) as Hyx.
      constructor; [now constructor|].
      constructor; [exact Hyx|].
      rewrite Forall_forall in Hy |- *. intros w Hw.
      eapply leb_trans; [apply Hy, Hw|exact Hyx].
Qed.

Lemma Array_sort_descending l :
  Forall (fun y => is_nan (score y) = false) l ->
  descending (Array_sort by_score_desc l).
Proof.
  induction 1 as [|x l Nx Nl IH]; simpl; [constructor|].
  apply sort_insert_descending; [exact Nx| |exact IH].
  rewrite Forall_forall in Nl |- *. intros y Hy. apply Nl.
  now apply (Permutation_in _ (Array_sort_perm _ by_score_desc l)).
Qed.

(** Stability: an element never moves in front of one that ties with it. *)
Lemma sort_insert_stable v x l :
  is_nan (score x) = false ->
  Forall (fun y => is_nan (score y) = false) l ->
  filter (has_score v) (sort_insert by_score_desc x l) =
  filter (has_score v) (x :: l).
Proof.
  intros Nx Nl. induction Nl as [|y l Ny Nl IH]; [reflexivity|].
  simpl sort_insert. rewrite (keeps_before_by_score x y Nx Ny).
  destruct (score x <? score y)%float eqn:E; simpl negb; cbv iota; [|reflexivity].
  simpl filter in *. rewrite IH.
  destruct (has_score v x) eqn:Hx; [|reflexivity].
  unfold has_score in *. now rewrite (ltb_eqb_false _ _ _ E Hx).
Qed.

Lemma Array_sort_stable v l :
  Forall (fun y => is_nan (score y) = false) l ->
  filter (has_score v) (Array_sort by_score_desc l) = filter (has_score v) l.
Proof.
  induction 1 as [|x l Nx Nl IH]; [reflexivity|].
  simpl Array_sort. rewrite sort_insert_stable.
  - simpl. now rewrite IH.
  - exact Nx.
  - rewrite Forall_forall in Nl |- *. intros y Hy. apply Nl.
    now apply (Permutation_in _ (Array_sort_perm _ by_score_desc l)).
Qed.

Lemma descending_prefix a b : descending (a ++ b) -> descending a.
Proof.
  induction a as [|x a IH]; intros H; [constructor|].
  inversion H as [|? ? Hs Hx]; subst.
  constructor; [now apply IH|].
  now apply Forall_app in Hx as [Hx _].
Qed.

Lemma scores_defined_scored q db :
  scores_defined q db ->
  Forall (fun y => is_nan (score y) = false) (List.map (with_score q) db).
Proof.
  intros H. apply Forall_map. exact H.
Qed.

(** C1, as the code has it. On every store the search returns exactly
    the number of results [slice(0, topK)] keeps, [min(topK, N)] for a
    non-negative [topK] and [max(N + topK, 0)] for a negative one, which
    counts from the end, and the results are records of the store with
    their cosine scores. When no record scores NaN against the query,
    the results are in descending order of score and records of equal
    score come in store order, earliest first. *)
Theorem similarity_search_ranked (q : list float) (db : list ChunkRecord) (topK : Z) :
  Z.of_nat (List.length (similarity_search q db topK)) = kept (List.length db) topK
  /\ (0 <= topK ->
      Z.of_nat (List.length (similarity_search q db topK))
      = Z.min topK (Z.of_nat (List.length db)))
  /\ (topK < 0 ->
      Z.of_nat (List.length (similarity_search q db topK))
      = Z.max (Z.of_nat (List.length db) + topK) 0)
  /\ (exists rest,
        Permutation (similarity_search q db topK ++ rest) (List.map (with_score q) db))
  /\ (scores_defined q db ->
      descending (similarity_search q db topK)
      /\ (forall v, exists rest,
            filter (has_score v) (List.map (with_score q) db)
            = filter (has_score v) (similarity_search q db topK) ++ rest)).
Proof.
  unfold similarity_search.
  set (scored := List.map (with_score q) db) in *.
  assert (L : Z.of_nat (List.length (slice0 (Array_sort by_score_desc scored) topK))
              = kept (List.length db) topK).
  { rewrite slice0_length, Array_sort_length. unfold scored. now rewrite length_map. }
  destruct (slice0_prefix _ (Array_sort by_score_desc scored) topK) as [rest E].
  split; [exact L|]. split; [|split; [|split]].
  - intros Hk. rewrite L. unfold kept.
    destruct (Z.ltb_spec topK 0); [lia|reflexivity].
  - intros Hk. rewrite L. unfold kept.
    destruct (Z.ltb_spec topK 0); [reflexivity|lia].
  - exists rest. rewrite <- E. apply Array_sort_perm.
  - intros Hd. apply scores_defined_scored in Hd. fold scored in Hd. split.
    + apply descending_prefix with rest. rewrite <- E.
      now apply Array_sort_descending.
    + intros v. exists (filter (has_score v) rest).
      rewrite <- filter_app, <- E. symmetry. now apply Array_sort_stable.
Qed.

Lemma similarity_search_ranked_witness :
  scores_defined demo_query demo_db
  /\ Z.of_nat (List.length (similarity_search demo_query demo_db 2))
     = kept (List.length demo_db) 2
  /\ Z.of_nat (List.length (similarity_search demo_query demo_db 2))
     = Z.min 2 (Z.of_nat (List.length demo_db))
  /\ (exists rest,
        Permutation (similarity_search demo_query demo_db 2 ++ rest)
                    (List.map (with_score demo_query) demo_db))
  /\ descending (similarity_search demo_query demo_db 2)
  /\ (forall v, exists rest,
        filter (has_score v) (List.map (with_score demo_query) demo_db)
        = filter (has_score v) (similarity_search demo_query demo_db 2) ++ rest).
Proof.
  assert (H : scores_defined demo_query demo_db)
    by (repeat constructor; vm_compute; reflexivity).
  destruct (similarity_search_ranked demo_query demo_db 2) as (A & B & _ & C & D).
  destruct (D H) as [D1 D2].
  split; [exact H|]. split; [exact A|]. split; [apply B; lia|].
  split; [exact C|]. split; [exact D1|exact D2].
Defined.

(** C1 as stated fails twice. With [topK = -1] a store of three records
    yields two results, more than [min(topK, N) = -1]. And on a store
    where a record scores NaN the comparator is inconsistent: the results
    come out with the scores [0.8; NaN; 1] (to eight digits), the best
    record last; indeed no order of the three scored records is
    descending, so whatever the engine makes of the inconsistent
    comparator the results are not sorted. *)
Lemma similarity_search_unranked :
  (List.length (similarity_search demo_query demo_db (-1)) = 2%nat
   /\ Z.min (-1) (Z.of_nat (List.length demo_db)) = -1)
  /\ (exists s1 s3,
        List.map score (similarity_search overflow_query overflow_db 5) = [s1; nan; s3]
        /\ (s1 <? s3)%float = true)
  /\ ~ descending (similarity_search overflow_query overflow_db 5)
  /\ (forall l,
        Permutation l (List.map (with_score overflow_query) overflow_db) ->
        ~ descending l).
Proof.
  split; [split; reflexivity|]. split; [|split].
  - eexists. eexists. split; vm_compute; reflexivity.
  - intros H. unfold descending in H.
    apply StronglySorted_inv in H as [_ H].
    remember (similarity_search overflow_query overflow_db 5) as r eqn:E.
    vm_compute in E. subst r.
    inversion H as [|? ? Hx _]; subst. vm_compute in Hx. discriminate Hx.
  - intros l Hp Hd.
    set (b := with_score overflow_query
                (demo_record "b" [0x1.ab36d48e1acfp+1023; 0x1.ab36d48e1acfp+1023]%float)).
    assert (Nb : score b = nan) by (vm_compute; reflexivity).
    assert (Hb : In b l).
    { apply (Permutation_in _ (Permutation_sym Hp)). right. now left. }
    pose proof (Permutation_length Hp) as Hl. simpl in Hl.
    destruct l as [|x [|y [|z [|? ?]]]]; try discriminate Hl.
    unfold descending in Hd.
    apply StronglySorted_inv in Hd as [Hd Hx].
    apply StronglySorted_inv in Hd as [_ Hy].
    inversion Hx as [|? ? Hxy Hxz']; subst. inversion Hxz' as [|? ? Hxz _]; subst.
    inversion Hy as [|? ? Hyz _]; subst.
    destruct Hb as [<-|[<-|[<-|[]]]].
    + rewrite Nb, leb_nan_r in Hxy. discriminate Hxy.
    + rewrite Nb, leb_nan_l in Hxy. discriminate Hxy.
    + rewrite Nb, leb_nan_l in Hxz. discriminate Hxz.
Qed.

(* ================================================================= *)
(** ** Deletion by source *)

Lemma jsstring_eqb_eq a b : jsstring_eqb a b = true <-> a = b.
Proof.
  unfold jsstring_eqb. destruct (list_eq_dec N.eq_dec a b); split; congruence.
Qed.

Lemma filter_partition_length (A : Type) (p : A -> bool) l :
  (List.length (filter p l) + List.length (filter (fun x => negb (p x)) l)
   = List.length l)%nat.
Proof.
  induction l as [|x l IH]; simpl; [reflexivity|].
  destruct (p x); simpl; lia.
Qed.

Lemma has_source_eq src it : has_source src it = true <-> source it = JString src.
Proof.
  unfold has_source. destruct (source it) as [|b|x|s|items|members];
    try (split; [discriminate|congruence]).
  rewrite jsstring_eqb_eq. split; congruence.
Qed.

Lemma removed_count src db :
  (List.length db - List.length (others src db))%nat = List.length (matching src db).
Proof.
  pose proof (filter_partition_length _ (has_source src) db).
  unfold others, matching. lia.
Qed.

(** C3. Lines 197-207 on any store and any source string: the records
    whose [source] is exactly the argument are the ones removed, the
    others are written back unchanged and in their order, the response
    carries the number removed and the number remaining, and 404 is the
    answer, with the store left as it was, exactly when no record
    matched. The handler reaches these lines with the decoded, trimmed
    path parameter once it is not blank. *)
Theorem deleteBySource_exact (P : Platform) (w : World) (src : jsstring) :
  deleteBySource src w =
    (if (List.length (matching src (stored w)) =? 0)%nat
     then (Ok (Failure 404 (js "No vectors found for source") None (Some src)),
           log ReadStore w)
     else (Ok (Removed (List.length (matching src (stored w)))
                       (List.length (others src (stored w))) src),
           {| embedder := embedder w;
              vector_store := Some (others src (stored w));
              ticks := ticks w;
              trace := trace w ++ [ReadStore; WriteStore (others src (stored w))] |}))
  /\ (forall it, In it (matching src (stored w))
                 <-> In it (stored w) /\ source it = JString src)
  /\ (forall it, In it (others src (stored w))
                 <-> In it (stored w) /\ source it <> JString src)
  /\ (List.length (matching src (stored w)) + List.length (others src (stored w))
      = List.length (stored w))%nat
  /\ (forall param decoded,
        decodeURIComponent P param = Ok decoded ->
        trim decoded = src -> truthy src = true ->
        delete_docs P param w =
          (if (List.length (matching src (stored w)) =? 0)%nat
           then (Failure 404 (js "No vectors found for source") None (Some src),
                 log ReadStore w)
           else (Removed (List.length (matching src (stored w)))
                         (List.length (others src (stored w))) src,
                 {| embedder := embedder w;
                    vector_store := Some (others src (stored w));
                    ticks := ticks w;
                    trace := trace w ++ [ReadStore; WriteStore (others src (stored w))] |}))).
Proof.
  assert (E : deleteBySource src w =
    (if (List.length (matching src (stored w)) =? 0)%nat
     then (Ok (Failure 404 (js "No vectors found for source") None (Some src)),
           log ReadStore w)
     else (Ok (Removed (List.length (matching src (stored w)))
                       (List.length (others src (stored w))) src),
           {| embedder := embedder w;
              vector_store := Some (others src (stored w));
              ticks := ticks w;
              trace := trace w ++ [ReadStore; WriteStore (others src (stored w))] |}))).
  { unfold deleteBySource, bind, loadDb. fold (stored w). fold (others src (stored w)).
    rewrite removed_count.
    destruct (List.length (matching src (stored w)) =? 0)%nat; [reflexivity|].
    unfold saveDb, ret, log. simpl. now rewrite <- app_assoc. }
  split; [exact E|]. split; [|split; [|split]].
  - intros it. unfold matching. rewrite filter_In, has_source_eq. tauto.
  - intros it. unfold others. rewrite filter_In, negb_true_iff.
    rewrite <- not_true_iff_false, has_source_eq. tauto.
  - apply filter_partition_length.
  - intros param decoded Hd Ht Hs.
    unfold delete_docs, try_catch, delete_source. rewrite Hd, Ht, Hs. simpl negb. cbv iota.
    rewrite E. now destruct (List.length (matching src (stored w)) =? 0)%nat.
Qed.

(** C10. When the decoded path parameter is blank once trimmed, the
    delete endpoint answers 400 "source is required" (not 404) and the
    world is left exactly as it was: the store file is not read and not
    written. *)
Theorem delete_blank_source (P : Platform) (w : World) (param decoded : jsstring) :
  decodeURIComponent P param = Ok decoded ->
  truthy (trim decoded) = false ->
  delete_docs P param w = (Failure 400 (js "source is required") None None, w)
  /\ status_of (fst (delete_docs P param w)) = 400
  /\ vector_store (snd (delete_docs P param w)) = vector_store w
  /\ trace (snd (delete_docs P param w)) = trace w.
Proof.
  intros Hd Hb.
  assert (E : delete_docs P param w
              = (Failure 400 (js "source is required") None None, w)).
  { unfold delete_docs, try_catch, delete_source. now rewrite Hd, Hb. }
  rewrite E. repeat split.
Qed.

Lemma delete_blank_source_witness :
  decodeURIComponent demo_platform (js "  ") = Ok (js "  ")
  /\ truthy (trim (js "  ")) = false
  /\ (delete_docs demo_platform (js "  ") (world_with demo_db)
      = (Failure 400 (js "source is required") None None, world_with demo_db)
      /\ status_of (fst (delete_docs demo_platform (js "  ") (world_with demo_db))) = 400
      /\ vector_store (snd (delete_docs demo_platform (js "  ") (world_with demo_db)))
         = vector_store (world_with demo_db)
      /\ trace (snd (delete_docs demo_platform (js "  ") (world_with demo_db)))
         = trace (world_with demo_db)).
Proof.
  split; [reflexivity|]. split; [reflexivity|].
  apply (delete_blank_source demo_platform (world_with demo_db) (js "  ") (js "  "));
    reflexivity.
Defined.

(* ================================================================= *)
(** ** Request bodies *)

Lemma truthy_trim s : truthy (trim s) = true -> truthy s = true.
Proof. destruct s; [discriminate|reflexivity]. Qed.

Lemma bind_ok {A B : Type} (m : M A) (k : A -> M B) w a w' :
  m w = (Ok a, w') -> bind m k w = k a w'.
Proof. intros H. unfold bind. now rewrite H. Qed.

Lemma bind_throw {A B : Type} (m : M A) (k : A -> M B) w msg w' :
  m w = (Throw msg, w') -> bind m k w = (Throw msg, w').
Proof. intros H. unfold bind. now rewrite H. Qed.

Lemma destructure_ok P first body w :
  destructurable body = true ->
  exists obj, body = Some obj /\ destructure P first body w = (Ok obj, w).
Proof.
  destruct body as [[|b|x|s|items|members]|]; try discriminate; intros _;
    eexists; split; reflexivity.
Qed.

Lemma destructure_throws P first body w :
  destructurable body = false ->
  destructure P first body w
  = (Throw (TypeError_message P (Undestructurable first body)), w).
Proof. destruct body as [[|b|x|s|items|members]|]; try discriminate; reflexivity. Qed.

(** A body that has a field can be destructured. *)
Lemma field_destructurable name body v :
  field name body = Some v -> destructurable body = true.
Proof.
  destruct body as [[|b|x|s|items|members]|]; simpl; try discriminate; reflexivity.
Qed.

(** The three ways the test [!x || !x.trim()] goes. *)
Lemma field_cases x :
  blank_field x = true
  \/ untrimmable x = true
  \/ exists s, x = Some (JString s) /\ truthy (trim s) = true.
Proof.
  destruct x as [[|b|x|s|items|members]|]; simpl; auto.
  - destruct b; auto.
  - destruct ((x =? 0)%float || is_nan x); auto.
  - destruct (truthy (trim s)) eqn:E; auto. right. right. now exists s.
Qed.

Lemma required_string_blank P name x w :
  blank_field x = true -> required_string P name x w = (Ok None, w).
Proof.
  unfold required_string.
  destruct x as [[|b|x|s|items|members]|]; simpl; try reflexivity; try discriminate.
  - now destruct b.
  - now destruct ((x =? 0)%float || is_nan x).
  - intros H. apply negb_true_iff in H. rewrite H. now destruct (truthy s).
Qed.

Lemma required_string_untrimmable P name x w :
  untrimmable x = true ->
  required_string P name x w
  = (Throw (TypeError_message P (NotCallable (name ++ ".trim"))), w).
Proof.
  unfold required_string.
  destruct x as [[|b|x|s|items|members]|]; simpl; try reflexivity; try discriminate.
  - now destruct b.
  - now destruct ((x =? 0)%float || is_nan x).
Qed.

Lemma required_string_ok P name s w :
  truthy (trim s) = true ->
  required_string P name (Some (JString s)) w = (Ok (Some s), w).
Proof.
  intros H. unfold required_string. simpl. now rewrite (truthy_trim _ H), H.
Qed.

(* ================================================================= *)
(** ** The store file *)

Lemma json_number_idem x :
  match json_number x with
  | Some y => json_number y = Some y
  | None => True
  end.
Proof.
  unfold json_number. destruct (x =? 0)%float eqn:Z; [reflexivity|].
  destruct (is_finite x) eqn:F; [|exact I]. now rewrite Z, F.
Qed.

Lemma json_component_idem (c : option float) :
  match match c with Some x => json_number x | None => None end with
  | Some x => json_number x
  | None => None
  end
  = match c with Some x => json_number x | None => None end.
Proof.
  destruct c as [x|]; [|reflexivity].
  pose proof (json_number_idem x) as H. now destruct (json_number x).
Qed.

(** What has been through the file once goes through it unchanged. *)
Lemma json_value_idem : forall v, json_value (json_value v) = json_value v.
Proof.
  fix IH 1. intros [|b|x|s|items|members]; simpl; try reflexivity.
  - pose proof (json_number_idem x) as H.
    destruct (json_number x) as [y|]; simpl; [now rewrite H|reflexivity].
  - f_equal. revert items. fix IHitems 1. intros [|v items]; simpl; [reflexivity|].
    f_equal; [apply IH|apply IHitems].
  - f_equal. revert members. fix IHmembers 1. intros [|[k v] members]; simpl;
      [reflexivity|].
    f_equal; [f_equal; apply IH|apply IHmembers].
Qed.

Lemma json_record_idem r : json_record (json_record r) = json_record r.
Proof.
  unfold json_record. simpl. rewrite json_value_idem. f_equal.
  rewrite map_map. apply map_ext. intros c. apply json_component_idem.
Qed.

Lemma through_json_idem data : through_json (through_json data) = through_json data.
Proof.
  unfold through_json. rewrite map_map. apply map_ext. intros r. apply json_record_idem.
Qed.

Lemma through_json_app a b : through_json (a ++ b) = through_json a ++ through_json b.
Proof. apply map_app. Qed.

(** What [loadDb] returns is what the file would hold again. *)
Lemma stored_through_json w : through_json (stored w) = stored w.
Proof.
  unfold stored. destruct (vector_store w); [apply through_json_idem|reflexivity].
Qed.

(** Strings and record texts and identifiers go through the file
    unchanged, and so does the test of a label. *)
Lemma has_source_json src r : has_source src (json_record r) = has_source src r.
Proof.
  unfold has_source. simpl. destruct (source r) as [|b|x|s|items|members]; simpl;
    try reflexivity.
  now destruct (json_number x).
Qed.

Lemma through_json_filter (p : ChunkRecord -> bool) data :
  (forall r, p (json_record r) = p r) ->
  through_json (filter p data) = filter p (through_json data).
Proof.
  intros H. unfold through_json. induction data as [|r data IH]; simpl; [reflexivity|].
  rewrite H. destruct (p r); simpl; now rewrite IH.
Qed.

Lemma through_json_others src data :
  through_json (others src data) = others src (through_json data).
Proof.
  apply through_json_filter. intros r. now rewrite has_source_json.
Qed.

(** The store after a write of records read from it and filtered. *)
Lemma stored_others src w : through_json (others src (stored w)) = others src (stored w).
Proof. now rewrite through_json_others, stored_through_json. Qed.

(* ================================================================= *)
(** ** The chat endpoint *)

Lemma getEmbedder_ok P w e :
  extractor_in_use P w = Ok e ->
  exists w', getEmbedder P w = (Ok e, w')
             /\ vector_store w' = vector_store w
             /\ extractor_in_use P w' = Ok e.
Proof.
  unfold extractor_in_use, getEmbedder. intros H.
  destruct (embedder w) as [e'|] eqn:Ee.
  - injection H as ->. exists w. now rewrite Ee.
  - rewrite H. eexists. split; [reflexivity|]. split; reflexivity.
Qed.

(** A body that cannot be destructured: the TypeError is caught. *)
Lemma post_chat_undestructurable P w body :
  destructurable body = false ->
  post_chat P body w
  = (Failure 500 (js "Failed to process chat")
       (Some (TypeError_message P (Undestructurable "question" body))) None, w).
Proof.
  intros H. unfold post_chat, try_catch, chat.
  now erewrite bind_throw by (apply destructure_throws; exact H).
Qed.

(** A truthy [question] that is no string: [question.trim()] throws. *)
Lemma post_chat_untrimmable P w body :
  destructurable body = true ->
  untrimmable (chat_question body) = true ->
  post_chat P body w
  = (Failure 500 (js "Failed to process chat")
       (Some (TypeError_message P (NotCallable "question.trim"))) None, w).
Proof.
  intros H U. unfold post_chat, try_catch, chat.
  destruct (destructure_ok P "question" body w H) as (obj & -> & D).
  erewrite bind_ok by exact D.
  now erewrite bind_throw by (apply required_string_untrimmable; exact U).
Qed.

Lemma post_chat_blank P w body :
  destructurable body = true ->
  blank_field (chat_question body) = true ->
  post_chat P body w = (Failure 400 (js "question is required") None None, w).
Proof.
  intros H B. unfold post_chat, try_catch, chat.
  destruct (destructure_ok P "question" body w H) as (obj & -> & D).
  erewrite bind_ok by exact D.
  now erewrite bind_ok by (apply required_string_blank; exact B).
Qed.

(** Past the check of the question: the handler reads the store. *)
Lemma post_chat_checked P w body question :
  chat_question body = Some (JString question) ->
  truthy (trim question) = true ->
  post_chat P body w
  = try_catch
      (fun w' =>
         if (List.length (stored w) =? 0)%nat
         then (Ok (Failure 400 (js "No documents indexed yet") None None), w')
         else
           (qEmbedding <- computeEmbedding P question ;;
            end_ <- lift (slice_end P (topK_of body)) ;;
            let scored := similarity_search qEmbedding (stored w) end_ in
            answer <- complete P system_prompt
                        (user_prompt (contextText scored) question) ;;
            ret (Answer answer (List.map cite scored))) w')
      (fun msg => Failure 500 (js "Failed to process chat") (Some msg) None)
      (log ReadStore w).
Proof.
  intros Hq Hnb. unfold post_chat, try_catch, chat.
  destruct (destructure_ok P "question" body w (field_destructurable _ _ _ Hq))
    as (obj & -> & D).
  unfold bind at 1. rewrite D.
  change (property "question" obj) with (chat_question (Some obj)). rewrite Hq.
  unfold bind at 1. rewrite (required_string_ok P "question" question w Hnb).
  unfold bind at 1. unfold loadDb. fold (stored w).
  change (match property "topK" obj with Some v => v | None => default_topK end)
    with (topK_of (Some obj)).
  now destruct (List.length (stored w) =? 0)%nat.
Qed.

Lemma post_chat_empty P w body question :
  chat_question body = Some (JString question) ->
  truthy (trim question) = true ->
  stored w = [] ->
  post_chat P body w
  = (Failure 400 (js "No documents indexed yet") None None, log ReadStore w).
Proof.
  intros Hq Hnb Hs. rewrite (post_chat_checked P w body question Hq Hnb).
  unfold try_catch. now rewrite Hs.
Qed.

(** Past the two checks: the response by the outcome of the embedding,
    of the conversion of [topK] and of the completion. *)
Lemma post_chat_run P w body question :
  chat_question body = Some (JString question) ->
  truthy (trim question) = true ->
  stored w <> [] ->
  post_chat P body w =
  match computeEmbedding P question (log ReadStore w) with
  | (Throw msg, w1) => (Failure 500 (js "Failed to process chat") (Some msg) None, w1)
  | (Ok qE, w1) =>
      match slice_end P (topK_of body) with
      | Throw msg => (Failure 500 (js "Failed to process chat") (Some msg) None, w1)
      | Ok end_ =>
          let scored := similarity_search qE (stored w) end_ in
          let prompt := user_prompt (contextText scored) question in
          match chat_completion P system_prompt prompt with
          | Ok answer =>
              (Answer answer (List.map cite scored), log (Generate system_prompt prompt) w1)
          | Throw msg =>
              (Failure 500 (js "Failed to process chat") (Some msg) None,
               log (Generate system_prompt prompt) w1)
          end
      end
  end.
Proof.
  intros Hq Hnb Hs. rewrite (post_chat_checked P w body question Hq Hnb).
  unfold try_catch.
  destruct (stored w) as [|r db] eqn:Es; [contradiction|].
  change (List.length (r :: db) =? 0)%nat with false. cbv iota.
  unfold bind at 1.
  destruct (computeEmbedding P question (log ReadStore w)) as [[qE|msg] w1];
    [|reflexivity].
  unfold bind at 1. unfold lift.
  destruct (slice_end P (topK_of body)) as [end_|msg]; [|reflexivity].
  unfold bind, complete, ret. cbv zeta.
  now destruct (chat_completion P system_prompt _).
Qed.

(** The embedding of the question, when the extractor in use takes it. *)
Lemma computeEmbedding_ok P w e input v :
  extractor_in_use P w = Ok e -> e input = Ok v ->
  exists w1, computeEmbedding P input w = (Ok v, w1).
Proof.
  intros He Hv. destruct (getEmbedder_ok P w e He) as (w1 & G & _ & _).
  exists (log (Embed input) w1).
  unfold computeEmbedding. erewrite bind_ok by exact G. now rewrite Hv.
Qed.

(** Past the two checks and the embedding of the question. *)
Lemma post_chat_embedded P w body question e qE :
  chat_question body = Some (JString question) ->
  truthy (trim question) = true ->
  stored w <> [] ->
  extractor_in_use P w = Ok e ->
  e question = Ok qE ->
  fst (post_chat P body w) =
  match slice_end P (topK_of body) with
  | Throw msg => Failure 500 (js "Failed to process chat") (Some msg) None
  | Ok end_ =>
      match chat_completion P system_prompt
              (user_prompt (contextText (similarity_search qE (stored w) end_)) question)
      with
      | Ok answer => Answer answer (List.map cite (similarity_search qE (stored w) end_))
      | Throw msg => Failure 500 (js "Failed to process chat") (Some msg) None
      end
  end.
Proof.
  intros Hq Hnb Hs He Hv. rewrite (post_chat_run P w body question Hq Hnb Hs).
  destruct (computeEmbedding_ok P (log ReadStore w) e question qE He Hv) as (w1 & ->).
  destruct (slice_end P (topK_of body)) as [end_|msg]; [|reflexivity].
  cbv zeta. now destruct (chat_completion P system_prompt _).
Qed.

(** C6. A chat request with a non-blank question against an empty store
    (no file, or an empty array) is refused with 400 "No documents
    indexed yet"; the only effect is the read of the store: nothing is
    embedded and the language model is not called. *)
Theorem chat_empty_store (P : Platform) (w : World) (body : Body) (question : jsstring) :
  chat_question body = Some (JString question) ->
  truthy (trim question) = true ->
  stored w = [] ->
  post_chat P body w
  = (Failure 400 (js "No documents indexed yet") None None, log ReadStore w)
  /\ status_of (fst (post_chat P body w)) = 400
  /\ trace (snd (post_chat P body w)) = trace w ++ [ReadStore].
Proof.
  intros Hq Hnb Hs.
  rewrite (post_chat_empty P w body question Hq Hnb Hs). repeat split.
Qed.

Lemma chat_empty_store_witness :
  chat_question (demo_chat 1) = Some (JString (js "What is the capital of France?"))
  /\ truthy (trim (js "What is the capital of France?")) = true
  /\ stored fresh_world = []
  /\ (post_chat demo_platform (demo_chat 1) fresh_world
      = (Failure 400 (js "No documents indexed yet") None None, log ReadStore fresh_world)
      /\ status_of (fst (post_chat demo_platform (demo_chat 1) fresh_world)) = 400
      /\ trace (snd (post_chat demo_platform (demo_chat 1) fresh_world))
         = trace fresh_world ++ [ReadStore]).
Proof.
  split; [reflexivity|]. split; [reflexivity|]. split; [reflexivity|].
  apply (chat_empty_store demo_platform fresh_world (demo_chat 1)
           (js "What is the capital of France?")); reflexivity.
Defined.

Lemma similarity_search_length q db topK :
  Z.of_nat (List.length (similarity_search q db topK)) = kept (List.length db) topK.
Proof.
  unfold similarity_search. now rewrite slice0_length, Array_sort_length, length_map.
Qed.

(** C9, as the code has it. With a non-blank question, a non-empty store
    and the question embedded, a numeric [topK] of zero or below, integer
    or not, is accepted without validation. [slice(0, topK)] works with
    its integer part [n <= 0] (0 exactly for the numbers above -1), or
    with [-Infinity]. The request can then only fail on the completion.
    A success has as many [chunks] as [slice] keeps: none for [n = 0]
    and for [-Infinity], else [max(N + n, 0)] for a store of [N]
    records, so none only when the store has no more than [-n] records.
    When no record scores NaN, the [chunks] are those entries of the
    ranking. *)
Theorem chat_nonpositive_topK (P : Platform) (w : World) (body : Body)
        (question : jsstring) (topK : float) (e : Extractor) (qE : list float) :
  chat_question body = Some (JString question) ->
  truthy (trim question) = true ->
  chat_topK body = Some (JNumber topK) ->
  (topK <=? 0)%float = true ->
  stored w <> [] ->
  extractor_in_use P w = Ok e ->
  e question = Ok qE ->
  (ToIntegerOrInfinity topK = NegInfinity
   \/ exists n, ToIntegerOrInfinity topK = Integer n /\ n <= 0
                /\ (n = 0 <-> (-1 <? topK)%float = true))
  /\ (status_of (fst (post_chat P body w)) = 200
      \/ exists msg user,
           chat_completion P system_prompt user = Throw msg
           /\ fst (post_chat P body w)
              = Failure 500 (js "Failed to process chat") (Some msg) None)
  /\ (status_of (fst (post_chat P body w)) = 200 ->
      Z.of_nat (List.length (chunks_of (fst (post_chat P body w))))
      = match ToIntegerOrInfinity topK with
        | Integer n =>
            if n =? 0 then 0 else Z.max (Z.of_nat (List.length (stored w)) + n) 0
        | _ => 0
        end
      /\ (chunks_of (fst (post_chat P body w)) = []
          <-> ToIntegerOrInfinity topK = NegInfinity
              \/ exists n, ToIntegerOrInfinity topK = Integer n
                           /\ (n = 0 \/ Z.of_nat (List.length (stored w)) + n <= 0)))
  /\ (scores_defined qE (stored w) ->
      forall answer,
        chat_completion P system_prompt
          (user_prompt
             (contextText (similarity_search qE (stored w) (ToIntegerOrInfinity topK)))
             question) = Ok answer ->
        fst (post_chat P body w)
        = Answer answer
            (List.map cite (similarity_search qE (stored w) (ToIntegerOrInfinity topK)))).
Proof.
  intros Hq Hnb Hk Hle Hs He Hv.
  pose proof (ToIntegerOrInfinity_nonpositive topK Hle) as T.
  rewrite (post_chat_embedded P w body question e qE Hq Hnb Hs He Hv).
  unfold topK_of. rewrite Hk. unfold slice_end, ToNumber.
  pose proof (similarity_search_length qE (stored w) (ToIntegerOrInfinity topK)) as L.
  split; [exact T|].
  destruct (chat_completion P system_prompt
              (user_prompt
                 (contextText (similarity_search qE (stored w) (ToIntegerOrInfinity topK)))
                 question)) as [answer|msg] eqn:Ec.
  - split; [now left|]. split; [|intros _ a [= <-]; reflexivity].
    intros _. simpl chunks_of. rewrite length_map, L. clear Ec.
    assert (N : 0 < Z.of_nat (List.length (stored w))).
    { destruct (stored w); [congruence|simpl; lia]. }
    assert (E : forall l : list Scored, List.map cite l = [] <-> Z.of_nat (List.length l) = 0).
    { intros [|x l]; simpl; split; try reflexivity; try discriminate; lia. }
    rewrite E, L.
    destruct T as [T|(n & T & Hn & _)]; rewrite T; unfold kept.
    + split; [reflexivity|]. split; [now left|reflexivity].
    + destruct (Z.ltb_spec n 0), (Z.eqb_spec n 0); try lia.
      * split; [reflexivity|]. split.
        -- intros H1. right. exists n. split; [reflexivity|]. lia.
        -- intros [H1|(n' & [= <-] & H1)]; [discriminate H1|lia].
      * split; [lia|]. split.
        -- intros _. right. exists n. split; [reflexivity|]. now left.
        -- intros _. lia.
  - split; [right; exists msg; eexists; split; [exact Ec|reflexivity]|].
    split; [discriminate|].
    intros _ a H. discriminate H.
Qed.

Lemma chat_nonpositive_topK_witness :
  (ToIntegerOrInfinity (-1) = NegInfinity
   \/ exists n, ToIntegerOrInfinity (-1) = Integer n /\ n <= 0
                /\ (n = 0 <-> (-1 <? -1)%float = true))
  /\ (status_of (fst (post_chat demo_platform (demo_chat (-1)) (world_with demo_db))) = 200
      \/ exists msg user,
           chat_completion demo_platform system_prompt user = Throw msg
           /\ fst (post_chat demo_platform (demo_chat (-1)) (world_with demo_db))
              = Failure 500 (js "Failed to process chat") (Some msg) None)
  /\ (status_of (fst (post_chat demo_platform (demo_chat (-1)) (world_with demo_db))) = 200 ->
      Z.of_nat (List.length
        (chunks_of (fst (post_chat demo_platform (demo_chat (-1)) (world_with demo_db)))))
      = match ToIntegerOrInfinity (-1) with
        | Integer n =>
            if n =? 0 then 0
            else Z.max (Z.of_nat (List.length (stored (world_with demo_db))) + n) 0
        | _ => 0
        end
      /\ (chunks_of (fst (post_chat demo_platform (demo_chat (-1)) (world_with demo_db))) = []
          <-> ToIntegerOrInfinity (-1) = NegInfinity
              \/ exists n, ToIntegerOrInfinity (-1) = Integer n
                           /\ (n = 0
                               \/ Z.of_nat (List.length (stored (world_with demo_db))) + n
                                  <= 0)))
  /\ (scores_defined [1; 0]%float (stored (world_with demo_db)) ->
      forall answer,
        chat_completion demo_platform system_prompt
          (user_prompt
             (contextText
                (similarity_search [1; 0]%float (stored (world_with demo_db))
                   (ToIntegerOrInfinity (-1))))
             demo_question) = Ok answer ->
        fst (post_chat demo_platform (demo_chat (-1)) (world_with demo_db))
        = Answer answer
            (List.map cite
               (similarity_search [1; 0]%float (stored (world_with demo_db))
                  (ToIntegerOrInfinity (-1))))).
Proof.
  apply (chat_nonpositive_topK demo_platform (world_with demo_db) (demo_chat (-1))
           demo_question (-1)%float (fun _ => Ok [1; 0]%float) [1; 0]%float);
    try reflexivity.
  discriminate.
Defined.

(** C9 as stated fails: on a store of three records, [topK = -1] yields
    a success whose [chunks] holds the two best records, not none. *)
Lemma chat_negative_topK_returns_chunks :
  status_of (fst (post_chat demo_platform (demo_chat (-1)) (world_with demo_db))) = 200
  /\ List.map cite_id
       (chunks_of (fst (post_chat demo_platform (demo_chat (-1)) (world_with demo_db))))
     = [js "a"; js "c"]
  /\ chunks_of (fst (post_chat demo_platform (demo_chat (-1)) (world_with demo_db))) <> [].
Proof.
  split; [vm_compute; reflexivity|]. split; [vm_compute; reflexivity|].
  intros H. apply (f_equal (@List.length Citation)) in H. vm_compute in H. discriminate H.
Qed.

(** A [topK] between -1 and 0 is cut to 0: on the same store, [-0.5]
    yields a success with no chunk at all. *)
Example chat_fractional_topK :
  ToIntegerOrInfinity (-0.5) = Integer 0
  /\ fst (post_chat demo_platform (demo_chat (-0.5)) (world_with demo_db))
     = Answer (js "Paris.") [].
Proof. split; vm_compute; reflexivity. Qed.

(* ================================================================= *)
(** ** Ingestion *)

Lemma store_untouched_refl w : store_untouched w w.
Proof. split; [reflexivity|]. exists []. now rewrite app_nil_r. Qed.

Lemma store_untouched_trans w1 w2 w3 :
  store_untouched w1 w2 -> store_untouched w2 w3 -> store_untouched w1 w3.
Proof.
  intros (S1 & ev1 & T1 & Q1) (S2 & ev2 & T2 & Q2). split; [congruence|].
  exists (ev1 ++ ev2). rewrite T2, T1, app_assoc, forallb_app, Q1, Q2. now split.
Qed.

Lemma store_untouched_log e w : is_write e = false -> store_untouched w (log e w).
Proof.
  intros H. split; [reflexivity|]. exists [e]. simpl. now rewrite H.
Qed.

Lemma getEmbedder_untouched P w : store_untouched w (snd (getEmbedder P w)).
Proof.
  unfold getEmbedder. destruct (embedder w); [apply store_untouched_refl|].
  destruct (pipeline P); simpl.
  - split; [reflexivity|]. now exists [LoadModel].
  - now apply store_untouched_log.
Qed.

Lemma computeEmbedding_untouched P input w :
  store_untouched w (snd (computeEmbedding P input w)).
Proof.
  unfold computeEmbedding, bind.
  pose proof (getEmbedder_untouched P w) as H.
  destruct (getEmbedder P w) as [[e|msg] w1]; simpl in *; [|exact H].
  eapply store_untouched_trans; [exact H|]. now apply store_untouched_log.
Qed.

(** [computeEmbedding] applies the extractor in use, which stays in use. *)
Lemma computeEmbedding_spec P input w :
  match extractor_in_use P w with
  | Throw msg => fst (computeEmbedding P input w) = Throw msg
  | Ok e => fst (computeEmbedding P input w) = e input
            /\ extractor_in_use P (snd (computeEmbedding P input w)) = Ok e
  end.
Proof.
  unfold computeEmbedding, bind, getEmbedder, extractor_in_use.
  destruct (embedder w) as [e|] eqn:Ee; simpl.
  - now rewrite Ee.
  - destruct (pipeline P) as [e|msg]; simpl; [split|]; reflexivity.
Qed.

Lemma now_untouched P w :
  store_untouched w (snd (now P w))
  /\ extractor_in_use P (snd (now P w)) = extractor_in_use P w.
Proof.
  split; [|reflexivity]. split; [reflexivity|]. now exists [ReadClock].
Qed.

Lemma embed_chunks_untouched P src chunks :
  forall i w, store_untouched w (snd (embed_chunks P src chunks i w)).
Proof.
  induction chunks as [|chunk rest IH]; intros i w; simpl.
  - apply store_untouched_refl.
  - unfold bind at 1.
    pose proof (computeEmbedding_untouched P chunk w) as H1.
    destruct (computeEmbedding P chunk w) as [[v|msg] w1]; simpl in H1; [|exact H1].
    unfold bind at 1.
    pose proof (now_untouched P w1) as [H2 _].
    destruct (now P w1) as [[t|msg] w2]; simpl in H2;
      [|eapply store_untouched_trans; eassumption].
    unfold bind at 1. specialize (IH (S i) w2).
    destruct (embed_chunks P src rest (S i) w2) as [[vs|msg] w3]; simpl in IH |- *;
      eapply store_untouched_trans; try eassumption;
      eapply store_untouched_trans; eassumption.
Qed.

Lemma embed_chunks_fails P src chunks :
  forall i w,
    (exists chunk, In chunk chunks /\ embedding_fails P w chunk) ->
    exists msg, fst (embed_chunks P src chunks i w) = Throw msg.
Proof.
  induction chunks as [|chunk rest IH]; intros i w (c & Hin & Hf); [destruct Hin|].
  simpl embed_chunks. unfold bind at 1.
  pose proof (computeEmbedding_spec P chunk w) as Hs.
  unfold embedding_fails in Hf.
  destruct (extractor_in_use P w) as [e|m] eqn:Ee.
  - destruct Hs as [Hv He].
    destruct (computeEmbedding P chunk w) as [[v|msg] w1]; simpl in Hv, He;
      [|now exists msg].
    unfold bind at 1.
    pose proof (now_untouched P w1) as [_ Hn].
    destruct (now P w1) as [[t|msg] w2] eqn:En; simpl in Hn; [|now exists msg].
    assert (Hrest : exists chunk', In chunk' rest /\ embedding_fails P w2 chunk').
    { destruct Hin as [<-|Hin].
      - destruct Hf as [msg Hf]. congruence.
      - exists c. split; [exact Hin|]. unfold embedding_fails. now rewrite Hn, He. }
    destruct (IH (S i) w2 Hrest) as [msg Hm].
    unfold bind at 1.
    destruct (embed_chunks P src rest (S i) w2) as [[vs|msg'] w3]; simpl in Hm |- *;
      [discriminate Hm|now exists msg'].
  - destruct (computeEmbedding P chunk w) as [[v|msg] w1]; simpl in Hs;
      [discriminate Hs|now exists msg].
Qed.

Lemma trim_nil_white s : trim s = [] -> white s.
Proof.
  intros H. destruct (trimStart_split s) as (w1 & Hw1 & E1).
  destruct (trimEnd_split (trimStart s)) as (w2 & Hw2 & E2).
  fold (trim s) in E2. rewrite H in E2. simpl in E2.
  rewrite E1, E2. now apply white_app.
Qed.

Lemma chunkText_blank s maxChars : truthy (trim s) = false -> chunkText s maxChars = [].
Proof.
  intros H. apply chunkText_white, trim_nil_white.
  now destruct (trim s).
Qed.

(** A body that cannot be destructured: the TypeError is caught. *)
Lemma post_docs_undestructurable P w body :
  destructurable body = false ->
  post_docs P body w = (Failure 500 (js "Failed to index document") None None, w).
Proof.
  intros H. unfold post_docs, try_catch, ingest.
  now erewrite bind_throw by (apply destructure_throws; exact H).
Qed.

(** A truthy [text] that is no string: [text.trim()] throws. *)
Lemma post_docs_untrimmable P w body :
  destructurable body = true ->
  untrimmable (docs_text body) = true ->
  post_docs P body w = (Failure 500 (js "Failed to index document") None None, w).
Proof.
  intros H U. unfold post_docs, try_catch, ingest.
  destruct (destructure_ok P "text" body w H) as (obj & -> & D).
  unfold bind at 1. rewrite D.
  now erewrite bind_throw by (apply required_string_untrimmable; exact U).
Qed.

Lemma post_docs_blank P w body :
  destructurable body = true ->
  blank_field (docs_text body) = true ->
  post_docs P body w = (Failure 400 (js "text is required") None None, w).
Proof.
  intros H B. unfold post_docs, try_catch, ingest.
  destruct (destructure_ok P "text" body w H) as (obj & -> & D).
  unfold bind at 1. rewrite D.
  now erewrite bind_ok by (apply required_string_blank; exact B).
Qed.

(** What [POST /api/docs] does with a non-blank text, by the outcome of
    the embedding loop. *)
Lemma post_docs_run P w body t :
  docs_text body = Some (JString t) -> truthy (trim t) = true ->
  post_docs P body w =
  match embed_chunks P (label_of body) (chunkText t default_maxChars) 0 w with
  | (Ok recs, w') =>
      (Inserted (List.length recs),
       {| embedder := embedder w';
          vector_store := Some (stored w' ++ recs);
          ticks := ticks w';
          trace := trace w' ++ [ReadStore; WriteStore (stored w' ++ recs)] |})
  | (Throw msg, w') => (Failure 500 (js "Failed to index document") None None, w')
  end.
Proof.
  intros Ht Hnb. unfold post_docs, try_catch, ingest.
  destruct (destructure_ok P "text" body w (field_destructurable _ _ _ Ht))
    as (obj & -> & D).
  unfold bind at 1. rewrite D.
  change (property "text" obj) with (docs_text (Some obj)). rewrite Ht.
  unfold bind at 1. rewrite (required_string_ok P "text" t w Hnb).
  change (match property "source" obj with Some v => v | None => default_source end)
    with (label_of (Some obj)).
  unfold bind at 1.
  destruct (embed_chunks P (label_of (Some obj)) (chunkText t default_maxChars) 0 w)
    as [[recs|msg] w']; [|reflexivity].
  unfold bind, loadDb, saveDb, ret, log. fold (stored w'). simpl.
  now rewrite <- app_assoc.
Qed.

Lemma stored_untouched w w' : store_untouched w w' -> stored w' = stored w.
Proof. intros [H _]. unfold stored. now rewrite H. Qed.

(** C5. If the embedding of any chunk of the posted text fails (the model
    does not load, or the extractor throws on that chunk), the request
    ends in 500 "Failed to index document" and nothing is persisted: the
    store file holds what it held before, and no write is among the
    effects of the request. *)
Theorem ingest_aborts_on_embedding_failure
        (P : Platform) (w : World) (body : Body) (t : jsstring) :
  docs_text body = Some (JString t) ->
  (exists chunk, In chunk (chunkText t default_maxChars) /\ embedding_fails P w chunk) ->
  fst (post_docs P body w) = Failure 500 (js "Failed to index document") None None
  /\ vector_store (snd (post_docs P body w)) = vector_store w
  /\ stored (snd (post_docs P body w)) = stored w
  /\ store_untouched w (snd (post_docs P body w)).
Proof.
  intros Ht Hfail.
  assert (Hnb : truthy (trim t) = true).
  { destruct (truthy (trim t)) eqn:E; [reflexivity|].
    destruct Hfail as (c & Hin & _).
    now rewrite (chunkText_blank t default_maxChars E) in Hin. }
  destruct (embed_chunks_fails P (label_of body) (chunkText t default_maxChars) 0%nat w
              Hfail) as [msg Hm].
  pose proof (embed_chunks_untouched P (label_of body) (chunkText t default_maxChars)
                0%nat w) as Hu.
  rewrite (post_docs_run P w body t Ht Hnb).
  destruct (embed_chunks P (label_of body) (chunkText t default_maxChars) 0%nat w)
    as [[vs|m] w1]; simpl in Hm, Hu |- *; [discriminate Hm|].
  split; [reflexivity|]. split; [apply Hu|]. split; [|exact Hu].
  now apply stored_untouched.
Qed.

Lemma ingest_aborts_on_embedding_failure_witness :
  docs_text (demo_docs "Paris is the capital of France.")
  = Some (JString (js "Paris is the capital of France."))
  /\ (exists chunk,
        In chunk (chunkText (js "Paris is the capital of France.") default_maxChars)
        /\ embedding_fails failing_platform (world_with demo_db) chunk)
  /\ (fst (post_docs failing_platform (demo_docs "Paris is the capital of France.")
             (world_with demo_db))
      = Failure 500 (js "Failed to index document") None None
      /\ vector_store (snd (post_docs failing_platform
                              (demo_docs "Paris is the capital of France.")
                              (world_with demo_db)))
         = vector_store (world_with demo_db)
      /\ stored (snd (post_docs failing_platform
                        (demo_docs "Paris is the capital of France.")
                        (world_with demo_db)))
         = stored (world_with demo_db)
      /\ store_untouched (world_with demo_db)
           (snd (post_docs failing_platform
                   (demo_docs "Paris is the capital of France.")
                   (world_with demo_db)))).
Proof.
  assert (H : exists chunk,
             In chunk (chunkText (js "Paris is the capital of France.") default_maxChars)
             /\ embedding_fails failing_platform (world_with demo_db) chunk).
  { exists (js "Paris is the capital of France."). split.
    - vm_compute. now left.
    - exists (js "inference failed"). reflexivity. }
  split; [reflexivity|]. split; [exact H|].
  exact (ingest_aborts_on_embedding_failure failing_platform (world_with demo_db)
           (demo_docs "Paris is the capital of France.")
           (js "Paris is the capital of France.") eq_refl H).
Defined.

(** *** Record identifiers *)

Lemma js_inj s s' : js s = js s' -> s = s'.
Proof.
  unfold js. intros H.
  assert (E : list_ascii_of_string s = list_ascii_of_string s').
  { revert H. generalize (list_ascii_of_string s) (list_ascii_of_string s').
    induction l as [|a l IH]; intros [|a' l'] H; try discriminate; [reflexivity|].
    simpl in H. injection H as Ha Hl. f_equal; [|now apply IH].
    rewrite <- (ascii_N_embedding a), <- (ascii_N_embedding a'). now f_equal. }
  rewrite <- (string_of_list_ascii_of_string s), <- (string_of_list_ascii_of_string s').
  now f_equal.
Qed.

Lemma to_int_proper z : Z.to_int z <> Decimal.Pos Decimal.Nil /\ Z.to_int z <> Decimal.Neg Decimal.Nil.
Proof.
  destruct z as [|p|p]; simpl; split; try discriminate;
    intros [= H]; now apply (DecimalPos.Unsigned.to_uint_nonnil p).
Qed.

Lemma number_to_string_inj a b : number_to_string a = number_to_string b -> a = b.
Proof.
  unfold number_to_string. intros H. apply js_inj in H.
  apply DecimalZ.to_int_inj.
  destruct (to_int_proper a) as [A1 A2], (to_int_proper b) as [B1 B2].
  pose proof (NilZero.isi (Z.to_int a) A1 A2) as Ia.
  pose proof (NilZero.isi (Z.to_int b) B1 B2) as Ib.
  rewrite H in Ia. congruence.
Qed.

Lemma uint_digits_no_dash d : ~ In DASH (js (NilEmpty.string_of_uint d)).
Proof.
  induction d; simpl; intros H; try contradiction;
    destruct H as [H|H]; try discriminate H; now apply IHd.
Qed.

Lemma index_no_dash (i : nat) : ~ In DASH (number_to_string (Z.of_nat i)).
Proof.
  unfold number_to_string.
  destruct (Z.of_nat i) as [|p|p] eqn:E; [| |lia].
  - simpl. intros [H|[]]. discriminate H.
  - simpl Z.to_int. simpl NilZero.string_of_int. unfold NilZero.string_of_uint.
    pose proof (uint_digits_no_dash (Pos.to_uint p)) as H.
    destruct (Pos.to_uint p) eqn:Ep; try exact H.
    now apply DecimalPos.Unsigned.to_uint_nonnil in Ep.
Qed.

(** A string is cut in one way only at its last occurrence of a code unit. *)
Lemma last_occurrence_unique (x : code_unit) (a a' d d' : jsstring) :
  ~ In x d -> ~ In x d' -> a ++ x :: d = a' ++ x :: d' -> a = a' /\ d = d'.
Proof.
  intros Hd Hd'. revert a'.
  induction a as [|y a IH]; intros [|y' a'] E; simpl in E.
  - injection E as E. now split.
  - injection E as -> E. exfalso. apply Hd. rewrite E. apply in_elt.
  - injection E as <- E. exfalso. apply Hd'. rewrite <- E. apply in_elt.
  - injection E as -> E. destruct (IH a' E) as [-> ->]. now split.
Qed.

Lemma record_id_inj stamp stamp' i i' :
  record_id stamp i = record_id stamp' i' -> stamp = stamp' /\ i = i'.
Proof.
  unfold record_id. change (js "-") with [DASH]. simpl app. intros E.
  apply last_occurrence_unique in E as [E1 E2]; try apply index_no_dash.
  apply number_to_string_inj in E1, E2. split; [exact E1|lia].
Qed.

(** The records of one batch carry the successive indices from [i]. *)
Lemma embed_chunks_ids P src chunks :
  forall i w recs w',
    embed_chunks P src chunks i w = (Ok recs, w') ->
    Forall2 (fun r k => exists stamp, id r = record_id stamp k)
            recs (seq i (List.length chunks)).
Proof.
  induction chunks as [|chunk rest IH]; intros i w recs w' E; simpl in E.
  - injection E as <- _. constructor.
  - unfold bind at 1 in E.
    destruct (computeEmbedding P chunk w) as [[v|msg] w1]; [|discriminate E].
    unfold bind at 1 in E.
    destruct (now P w1) as [[stamp|msg] w2]; [|discriminate E].
    unfold bind at 1 in E.
    destruct (embed_chunks P src rest (S i) w2) as [[vs|msg] w3] eqn:Er; [|discriminate E].
    injection E as <- _. simpl. constructor.
    + exists stamp. reflexivity.
    + now apply (IH (S i) w2 vs w3).
Qed.

Lemma NoDup_by_index (A : Type) (f : A -> jsstring) (R : A -> nat -> Prop) l ks :
  Forall2 R l ks -> NoDup ks ->
  (forall x y k k', R x k -> R y k' -> f x = f y -> k = k') ->
  NoDup (List.map f l).
Proof.
  intros HF Hk Hinj. induction HF as [|x k l ks Hx HF IH]; simpl; [constructor|].
  inversion Hk as [|? ? Hnin Hk']; subst. constructor; [|now apply IH].
  intros Hin. apply in_map_iff in Hin as (y & Ey & Hy).
  apply Hnin.
  clear IH Hk Hk' Hnin. induction HF as [|z k' l ks Hz HF IH]; [destruct Hy|].
  destruct Hy as [->|Hy].
  - left. symmetry. now apply (Hinj x y k k').
  - right. now apply IH.
Qed.

(** Within one ingestion batch the identifiers are pairwise distinct,
    whatever the clock reads: the index suffix tells them apart. *)
Theorem batch_ids_distinct P src chunks i w recs w' :
  embed_chunks P src chunks i w = (Ok recs, w') ->
  NoDup (List.map id recs).
Proof.
  intros E. apply embed_chunks_ids in E.
  apply (NoDup_by_index _ id _ _ _ E (seq_NoDup _ _)).
  intros x y k k' [s Hx] [s' Hy] Exy. rewrite Hx, Hy in Exy.
  now apply record_id_inj in Exy.
Qed.

Lemma batch_ids_distinct_witness :
  embed_chunks demo_platform (JString (js "geo")) [js "a"; js "b"] 0 fresh_world
  = (Ok (records_of (embed_chunks demo_platform (JString (js "geo")) [js "a"; js "b"] 0 fresh_world)),
     snd (embed_chunks demo_platform (JString (js "geo")) [js "a"; js "b"] 0 fresh_world))
  /\ NoDup (List.map id
              (records_of (embed_chunks demo_platform (JString (js "geo")) [js "a"; js "b"] 0
                             fresh_world))).
Proof.
  assert (E : embed_chunks demo_platform (JString (js "geo")) [js "a"; js "b"] 0 fresh_world
    = (Ok (records_of (embed_chunks demo_platform (JString (js "geo")) [js "a"; js "b"] 0 fresh_world)),
       snd (embed_chunks demo_platform (JString (js "geo")) [js "a"; js "b"] 0 fresh_world)))
    by reflexivity.
  split; [exact E|].
  exact (batch_ids_distinct demo_platform (JString (js "geo")) [js "a"; js "b"] 0%nat
           fresh_world
           _ _ E).
Defined.

(** When every chunk embeds, the loop yields one record per chunk, in
    order, with the chunk as text, the label as source and the vector the
    extractor returned, and leaves the store file alone. *)
Lemma embed_chunks_ok P src e chunks :
  forall i w,
    extractor_in_use P w = Ok e ->
    Forall (fun c => exists v, e c = Ok v) chunks ->
    exists recs w',
      embed_chunks P src chunks i w = (Ok recs, w')
      /\ List.map text recs = chunks
      /\ Forall (fun r => source r = src) recs
      /\ Forall2 (fun r c => exists v, e c = Ok v /\ embedding r = List.map Some v)
                 recs chunks
      /\ vector_store w' = vector_store w.
Proof.
  induction chunks as [|chunk rest IH]; intros i w He Hall.
  - exists [], w. repeat split; constructor.
  - inversion Hall as [|? ? [v Hv] Hrest]; subst.
    pose proof (computeEmbedding_spec P chunk w) as Hs. rewrite He in Hs.
    destruct Hs as [Hf He1].
    pose proof (computeEmbedding_untouched P chunk w) as [Hst _].
    destruct (computeEmbedding P chunk w) as [o w1] eqn:Ec. simpl in Hf, He1, Hst.
    rewrite Hv in Hf. subst o.
    destruct (IH (S i) (snd (now P w1)) He1 Hrest) as (recs & w' & Er & Ht & Hsrc & Hemb & Hvs).
    eexists. exists w'. simpl embed_chunks.
    erewrite bind_ok by exact Ec.
    erewrite bind_ok by reflexivity.
    erewrite bind_ok by exact Er.
    split; [reflexivity|]. simpl. repeat split.
    + now rewrite Ht.
    + now constructor.
    + constructor; [now exists v|exact Hemb].
    + rewrite Hvs. exact Hst.
Qed.

Lemma through_json_text recs : List.map text (through_json recs) = List.map text recs.
Proof. unfold through_json. rewrite map_map. now apply map_ext. Qed.

Lemma through_json_id recs : List.map id (through_json recs) = List.map id recs.
Proof. unfold through_json. rewrite map_map. now apply map_ext. Qed.

(** The store a successful ingestion leaves, as it is read back. *)
Lemma stored_appended w' (recs : list ChunkRecord) (events : list Event) :
  stored {| embedder := embedder w';
            vector_store := Some (stored w' ++ recs);
            ticks := ticks w';
            trace := events |}
  = stored w' ++ through_json recs.
Proof.
  unfold stored at 1. simpl. now rewrite through_json_app, stored_through_json.
Qed.

(** Ingestion, when it succeeds: a non-blank text whose chunks all embed
    is answered with the number of its chunks, and the store then holds
    what it held followed by one record per chunk, in order, each with
    the chunk as text, the request's label as source and the chunk's
    vector as embedding, label and vector being as the JSON file gives
    them back: a number that is NaN or infinite as [null], [-0] as [0],
    anything else unchanged (a label that is a string, in particular). *)
Theorem ingest_appends (P : Platform) (w : World) (body : Body)
        (t : jsstring) (e : Extractor) :
  docs_text body = Some (JString t) ->
  truthy (trim t) = true ->
  extractor_in_use P w = Ok e ->
  Forall (fun c => exists v, e c = Ok v) (chunkText t default_maxChars) ->
  exists recs,
    fst (post_docs P body w) = Inserted (List.length (chunkText t default_maxChars))
    /\ stored (snd (post_docs P body w)) = stored w ++ recs
    /\ List.map text recs = chunkText t default_maxChars
    /\ Forall (fun r => source r = json_value (label_of body)) recs
    /\ (forall label, label_of body = JString label ->
        Forall (fun r => source r = JString label) recs)
    /\ Forall2 (fun r c => exists v, e c = Ok v /\ embedding r = List.map json_number v)
               recs (chunkText t default_maxChars).
Proof.
  intros Ht Hnb He Hall.
  destruct (embed_chunks_ok P (label_of body) e (chunkText t default_maxChars)
              0%nat w He Hall) as (recs & w' & Er & Htx & Hsrc & Hemb & Hvs).
  exists (through_json recs).
  rewrite (post_docs_run P w body t Ht Hnb), Er. simpl fst. simpl snd.
  rewrite stored_appended.
  assert (S : Forall (fun r => source r = json_value (label_of body)) (through_json recs)).
  { unfold through_json. apply Forall_map. eapply Forall_impl; [|exact Hsrc].
    intros r H. simpl. now rewrite H. }
  split; [now rewrite <- Htx, length_map|].
  split; [unfold stored; now rewrite Hvs|].
  split; [now rewrite through_json_text|].
  split; [exact S|]. split.
  - intros label Hl. rewrite Hl in S. exact S.
  - clear - Hemb. unfold through_json.
    induction Hemb as [|r c recs chunks (v & Hv & Hr) _ IH]; simpl; constructor;
      [|exact IH].
    exists v. split; [exact Hv|]. unfold json_record. simpl embedding.
    rewrite Hr, map_map. reflexivity.
Qed.

Lemma ingest_appends_witness :
  docs_text (demo_docs "Paris is the capital of France.")
  = Some (JString (js "Paris is the capital of France."))
  /\ truthy (trim (js "Paris is the capital of France.")) = true
  /\ extractor_in_use demo_platform (world_with demo_db) = Ok (fun _ => Ok [1; 0]%float)
  /\ Forall (fun c => exists v, (fun _ : jsstring => Ok [1; 0]%float) c = Ok v)
        (chunkText (js "Paris is the capital of France.") default_maxChars)
  /\ exists recs,
       fst (post_docs demo_platform (demo_docs "Paris is the capital of France.")
              (world_with demo_db))
       = Inserted (List.length (chunkText (js "Paris is the capital of France.")
                                  default_maxChars))
       /\ stored (snd (post_docs demo_platform (demo_docs "Paris is the capital of France.")
                         (world_with demo_db)))
          = stored (world_with demo_db) ++ recs
       /\ List.map text recs = chunkText (js "Paris is the capital of France.") default_maxChars
       /\ Forall (fun r => source r
                           = json_value (label_of (demo_docs "Paris is the capital of France.")))
            recs
       /\ (forall label,
             label_of (demo_docs "Paris is the capital of France.") = JString label ->
             Forall (fun r => source r = JString label) recs)
       /\ Forall2 (fun r c => exists v, (fun _ : jsstring => Ok [1; 0]%float) c = Ok v
                                        /\ embedding r = List.map json_number v)
            recs (chunkText (js "Paris is the capital of France.") default_maxChars).
Proof.
  assert (H : Forall (fun c => exists v, (fun _ : jsstring => Ok [1; 0]%float) c = Ok v)
                (chunkText (js "Paris is the capital of France.") default_maxChars)).
  { apply Forall_forall. intros c _. now exists [1; 0]%float. }
  split; [reflexivity|]. split; [reflexivity|]. split; [reflexivity|]. split; [exact H|].
  exact (ingest_appends demo_platform (world_with demo_db)
           (demo_docs "Paris is the capital of France.")
           (js "Paris is the capital of France.") (fun _ => Ok [1; 0]%float)
           eq_refl eq_refl eq_refl H).
Defined.

(** A vector with a NaN component reaches the file with [null] in its
    place, and is read back so; in the cosine similarity that component
    then counts as 0. *)
Example nan_component_stored_as_null :
  fst (post_docs nan_platform (demo_docs "Paris.") fresh_world) = Inserted 1
  /\ List.map embedding
       (stored (snd (post_docs nan_platform (demo_docs "Paris.") fresh_world)))
     = [[None; Some 1%float]]
  /\ List.map score
       (similarity_search [0; 1]%float
          (stored (snd (post_docs nan_platform (demo_docs "Paris.") fresh_world))) 5)
     = [cosineSim [0; 1]%float [0; 1]%float].
Proof. repeat split; vm_compute; reflexivity. Qed.

(** Requests that the handler cannot read, with the messages of V8: no
    body at all, a [text] that is a number. The falsy number 0 is taken
    for a missing text. *)
Example unreadable_requests :
  post_docs demo_platform None fresh_world
  = (Failure 500 (js "Failed to index document") None None, fresh_world)
  /\ post_chat demo_platform None fresh_world
     = (Failure 500 (js "Failed to process chat")
          (Some (js "Cannot destructure property 'question' of 'req.body' as it is undefined."))
          None, fresh_world)
  /\ post_docs demo_platform (Some (JObject [(js "text", JNumber 5)])) fresh_world
     = (Failure 500 (js "Failed to index document") None None, fresh_world)
  /\ post_chat demo_platform (Some (JObject [(js "question", JNumber 5)])) fresh_world
     = (Failure 500 (js "Failed to process chat")
          (Some (js "question.trim is not a function")) None, fresh_world)
  /\ post_docs demo_platform (Some (JObject [(js "text", JNumber 0)])) fresh_world
     = (Failure 400 (js "text is required") None None, fresh_world).
Proof. repeat split; vm_compute; reflexivity. Qed.

(** C2 does not hold of the code: two ingestion requests served within
    the same millisecond both create the identifier ["1700000000000-0"],
    and the store then holds two records with the same [id]. *)
Theorem ingest_duplicate_ids :
  fst (post_docs demo_platform (demo_docs "Paris is the capital of France.") fresh_world)
  = Inserted 1
  /\ fst (post_docs demo_platform (demo_docs "Berlin is the capital of Germany.")
            (snd (post_docs demo_platform (demo_docs "Paris is the capital of France.")
                    fresh_world)))
     = Inserted 1
  /\ List.map id
       (stored (snd (post_docs demo_platform (demo_docs "Berlin is the capital of Germany.")
                       (snd (post_docs demo_platform
                               (demo_docs "Paris is the capital of France.") fresh_world)))))
     = [js "1700000000000-0"; js "1700000000000-0"]
  /\ List.map text
       (stored (snd (post_docs demo_platform (demo_docs "Berlin is the capital of Germany.")
                       (snd (post_docs demo_platform
                               (demo_docs "Paris is the capital of France.") fresh_world)))))
     = [js "Paris is the capital of France."; js "Berlin is the capital of Germany."]
  /\ ~ NoDup
        (List.map id
           (stored (snd (post_docs demo_platform
                           (demo_docs "Berlin is the capital of Germany.")
                           (snd (post_docs demo_platform
                                   (demo_docs "Paris is the capital of France.")
                                   fresh_world)))))).
Proof.
  assert (E : List.map id
       (stored (snd (post_docs demo_platform (demo_docs "Berlin is the capital of Germany.")
                       (snd (post_docs demo_platform
                               (demo_docs "Paris is the capital of France.") fresh_world)))))
     = [js "1700000000000-0"; js "1700000000000-0"]) by (vm_compute; reflexivity).
  split; [vm_compute; reflexivity|]. split; [vm_compute; reflexivity|].
  split; [exact E|]. split; [vm_compute; reflexivity|].
  rewrite E. intros H. inversion H as [|? ? Hnin _]; subst. apply Hnin. now left.
Qed.

(* ================================================================= *)
(** ** Frame: the chat endpoint and the store *)

(** Whatever the request and however it ends, the chat endpoint leaves
    the store file alone: same content, and no write among its effects. *)
Theorem chat_leaves_store (P : Platform) (w : World) (body : Body) :
  store_untouched w (snd (post_chat P body w)).
Proof.
  destruct (destructurable body) eqn:D;
    [|rewrite (post_chat_undestructurable P w body D); apply store_untouched_refl].
  destruct (field_cases (chat_question body)) as [B|[U|(question & Hq & Hnb)]].
  - rewrite (post_chat_blank P w body D B). apply store_untouched_refl.
  - rewrite (post_chat_untrimmable P w body D U). apply store_untouched_refl.
  - assert (R : store_untouched w (log ReadStore w)) by now apply store_untouched_log.
    destruct (stored w) as [|r db] eqn:Es.
    + now rewrite (post_chat_empty P w body question Hq Hnb Es).
    + assert (Hs : stored w <> []) by (rewrite Es; discriminate).
      rewrite (post_chat_run P w body question Hq Hnb Hs).
      pose proof (computeEmbedding_untouched P question (log ReadStore w)) as C.
      destruct (computeEmbedding P question (log ReadStore w)) as [[qE|msg] w1];
        simpl in C |- *; [|eapply store_untouched_trans; eassumption].
      destruct (slice_end P (topK_of body)) as [end_|msg]; simpl;
        [|eapply store_untouched_trans; eassumption].
      assert (G : forall s u, store_untouched w1 (log (Generate s u) w1))
        by (intros; now apply store_untouched_log).
      destruct (chat_completion P _ _); simpl;
        (eapply store_untouched_trans; [exact R|]);
        (eapply store_untouched_trans; [exact C|]); apply G.
Qed.

(* ================================================================= *)
(** ** More about the chunker *)

Lemma trimStart_idem s : trimStart (trimStart s) = trimStart s.
Proof.
  induction s as [|c s IH]; simpl; [reflexivity|].
  destruct (is_white_space c) eqn:Hc; [exact IH|]. simpl. now rewrite Hc.
Qed.

Lemma trimEnd_idem s : trimEnd (trimEnd s) = trimEnd s.
Proof. unfold trimEnd. now rewrite rev_involutive, trimStart_idem. Qed.

Lemma trimStart_snoc_solid c s :
  is_white_space c = false -> trimStart (s ++ [c]) = trimStart s ++ [c].
Proof.
  intros Hc. induction s as [|d s IH]; simpl.
  - now rewrite Hc.
  - destruct (is_white_space d); [exact IH|reflexivity].
Qed.

Lemma trimEnd_cons_solid c s :
  is_white_space c = false -> trimEnd (c :: s) = c :: trimEnd s.
Proof.
  intros Hc. unfold trimEnd. simpl List.rev.
  rewrite (trimStart_snoc_solid c _ Hc), rev_app_distr. reflexivity.
Qed.

Lemma trimStart_trim s : trimStart (trim s) = trim s.
Proof.
  unfold trim. destruct (trimStart s) as [|c r] eqn:E; [reflexivity|].
  assert (Hc : is_white_space c = false).
  { pose proof (trimStart_idem s) as H. rewrite E in H. simpl in H.
    destruct (is_white_space c) eqn:Hc; [|reflexivity].
    exfalso. pose proof (trimStart_length r) as L.
    apply (f_equal (@List.length code_unit)) in H. simpl in H. lia. }
  rewrite (trimEnd_cons_solid c r Hc). simpl. now rewrite Hc.
Qed.

Lemma trim_idem s : trim (trim s) = trim s.
Proof.
  unfold trim at 1. rewrite trimStart_trim. unfold trim. apply trimEnd_idem.
Qed.

Lemma flush_trimmed_chunks chunks current :
  Forall (fun c => truthy c = true /\ is_trimmed c) chunks ->
  Forall (fun c => truthy c = true /\ is_trimmed c) (flush chunks current).
Proof.
  intros H. unfold flush. destruct (truthy (trim current)) eqn:E; [|exact H].
  apply Forall_app. split; [exact H|]. constructor; [|constructor].
  split; [exact E|apply trim_idem].
Qed.

Lemma chunkText_all_trimmed text maxChars :
  Forall (fun c => truthy c = true /\ is_trimmed c) (chunkText text maxChars).
Proof.
  unfold chunkText.
  assert (I : Forall (fun c => truthy c = true /\ is_trimmed c)
                (fst (fold_left (chunk_step maxChars) (split LF text) ([], [])))).
  { apply (fold_left_prefix_ind _ _ (chunk_step maxChars)
             (fun _ st => Forall (fun c => truthy c = true /\ is_trimmed c) (fst st))).
    - constructor.
    - intros pre x [chunks current] _ H. unfold chunk_step. simpl in H.
      destruct (str_length (current ++ LF :: x) >? maxChars); simpl; [|exact H].
      now apply flush_trimmed_chunks. }
  destruct (fold_left (chunk_step maxChars) (split LF text) ([], [])) as [chunks current].
  now apply flush_trimmed_chunks.
Qed.

(** Every chunk is a non-empty string with no white space at either end,
    whatever the text and the limit. *)
Theorem chunkText_chunks_trimmed (text : jsstring) (maxChars : Z) :
  Forall (fun c => c <> [] /\ trim c = c /\ trimStart c = c /\ trimEnd c = c)
         (chunkText text maxChars).
Proof.
  eapply Forall_impl; [|apply (chunkText_all_trimmed text maxChars)].
  intros c [Ht Hi]. unfold is_trimmed in Hi.
  split; [now destruct c|]. split; [exact Hi|]. split.
  - rewrite <- Hi. apply trimStart_trim.
  - transitivity (trimEnd (trim c)); [now rewrite Hi|].
    unfold trim. rewrite trimEnd_idem. exact Hi.
Qed.

Lemma white_of_lines s : Forall white (split LF s) -> white s.
Proof.
  induction s as [|c s IH]; simpl; intros H; [constructor|].
  destruct (N.eqb_spec c LF) as [E|E].
  - subst c. inversion H; subst. constructor; [reflexivity|now apply IH].
  - pose proof (split_nonempty LF s) as Hne.
    destruct (split LF s) as [|l ls]; [contradiction|].
    inversion H as [|? ? Hcl Hls]; subst. inversion Hcl; subst.
    constructor; [assumption|]. apply IH. now constructor.
Qed.

Lemma trim_app_blank a b : trim (a ++ b) = [] -> trim a = [] /\ trim b = [].
Proof.
  intros H. apply trim_nil_white in H. apply Forall_app in H as [Ha Hb].
  split; now apply trim_white.
Qed.

Lemma truthy_false_nil (s : jsstring) : truthy s = false <-> s = [].
Proof. destruct s; simpl; split; congruence. Qed.

(** A non-blank line met by the loop is never lost: it sits in a pushed
    chunk or in the buffer. *)
Lemma chunk_loop_keeps_content maxChars ls :
  (exists l, In l ls /\ truthy (trim l) = true) ->
  fst (fold_left (chunk_step maxChars) ls ([], [])) <> []
  \/ truthy (trim (snd (fold_left (chunk_step maxChars) ls ([], [])))) = true.
Proof.
  apply (fold_left_prefix_ind _ _ (chunk_step maxChars)
           (fun pre st =>
              (exists l, In l pre /\ truthy (trim l) = true) ->
              fst st <> [] \/ truthy (trim (snd st)) = true)).
  - intros (l & [] & _).
  - intros pre x [chunks current] _ IH (l & Hl & Hnb). simpl in IH.
    unfold chunk_step.
    apply in_app_iff in Hl as [Hl|[<-|[]]].
    + specialize (IH (ex_intro _ l (conj Hl Hnb))).
      destruct (str_length (current ++ LF :: x) >? maxChars); simpl.
      * left. unfold flush. destruct IH as [IH|IH].
        -- destruct (truthy (trim current)); [|exact IH].
           destruct chunks; [contradiction|discriminate].
        -- rewrite IH. now destruct chunks.
      * destruct IH as [IH|IH]; [now left|right].
        destruct (truthy (trim (current ++ LF :: x))) eqn:E; [reflexivity|].
        apply truthy_false_nil, trim_app_blank in E as [E _].
        rewrite E in IH. discriminate IH.
    + destruct (str_length (current ++ LF :: x) >? maxChars); simpl; [now right|].
      right. destruct (truthy (trim (current ++ LF :: x))) eqn:E; [reflexivity|].
      apply truthy_false_nil, trim_app_blank in E as [_ E].
      rewrite (trim_cons_white LF x eq_refl) in E. rewrite E in Hnb. discriminate Hnb.
Qed.

Lemma chunkText_nil_blank text maxChars :
  chunkText text maxChars = [] -> trim text = [].
Proof.
  intros H.
  destruct (trim text) as [|c r] eqn:E; [reflexivity|exfalso].
  assert (Hl : exists l, In l (split LF text) /\ truthy (trim l) = true).
  { destruct (Exists_dec (fun l => truthy (trim l) = true) (split LF text))
      as [Hex|Hno].
    - intros l. destruct (truthy (trim l)); [now left|right; discriminate].
    - apply Exists_exists in Hex. exact Hex.
    - exfalso. assert (W : white text).
      { apply white_of_lines. apply Forall_forall. intros l Hl.
        apply trim_nil_white. apply truthy_false_nil.
        destruct (truthy (trim l)) eqn:Et; [|reflexivity].
        exfalso. apply Hno. apply Exists_exists. now exists l. }
      rewrite (trim_white text W) in E. discriminate E. }
  pose proof (chunk_loop_keeps_content maxChars (split LF text) Hl) as K.
  unfold chunkText in H.
  destruct (fold_left (chunk_step maxChars) (split LF text) ([], [])) as [chunks current].
  simpl in K. unfold flush in H. destruct K as [K|K].
  - destruct (truthy (trim current)); [|contradiction].
    destruct chunks; [contradiction|discriminate H].
  - rewrite K in H. destruct chunks; discriminate H.
Qed.

(** [chunkText] returns no chunk exactly when the text is blank: a text
    with anything but white space in it always yields at least one
    chunk, whatever the limit. *)
Theorem chunkText_empty_iff_blank (text : jsstring) (maxChars : Z) :
  chunkText text maxChars = [] <-> trim text = [].
Proof.
  split; [apply chunkText_nil_blank|].
  intros H. apply chunkText_blank. now rewrite H.
Qed.

Lemma gathered_split s : gathered (split LF s) = LF :: s.
Proof.
  unfold gathered. induction s as [|c s IH]; simpl; [reflexivity|].
  destruct (N.eqb_spec c LF) as [E|E].
  - subst c. simpl. now rewrite IH.
  - pose proof (split_nonempty LF s) as Hne.
    destruct (split LF s) as [|l ls]; [contradiction|].
    simpl in *. injection IH as IH. now rewrite IH.
Qed.

Lemma gathered_length_spec ls : gathered_length ls = str_length (gathered ls).
Proof.
  induction ls as [|l ls IH]; [reflexivity|].
  change (gathered (l :: ls)) with (LF :: l ++ gathered ls).
  change (gathered_length (l :: ls)) with (1 + str_length l + gathered_length ls).
  rewrite IH. unfold str_length. cbn [List.length].
  rewrite length_app. lia.
Qed.

Lemma chunk_loop_fits maxChars ls :
  forall current,
    str_length current + gathered_length ls <= maxChars ->
    fold_left (chunk_step maxChars) ls ([], current) = ([], current ++ gathered ls).
Proof.
  induction ls as [|l ls IH]; intros current H.
  - simpl. now rewrite app_nil_r.
  - change (gathered_length (l :: ls))
      with (1 + str_length l + gathered_length ls) in H.
    assert (0 <= gathered_length ls).
    { rewrite gathered_length_spec. unfold str_length. lia. }
    cbn [fold_left]. unfold chunk_step at 2.
    destruct (Z.gtb_spec (str_length (current ++ LF :: l)) maxChars) as [G|G].
    + rewrite str_length_app_line in G. lia.
    + rewrite IH.
      * change (gathered (l :: ls)) with (LF :: l ++ gathered ls).
        now rewrite <- app_assoc.
      * rewrite str_length_app_line. lia.
Qed.

(** A text shorter than the limit is never cut: it comes back as one
    chunk, itself trimmed, or as no chunk when it is blank. (The buffer
    opens with a line feed, which counts: a text of exactly [maxChars]
    code units does not qualify.) *)
Theorem chunkText_short_text (text : jsstring) (maxChars : Z) :
  str_length text < maxChars ->
  chunkText text maxChars = if truthy (trim text) then [trim text] else [].
Proof.
  intros H.
  assert (Q : fold_left (chunk_step maxChars) (split LF text) ([], [])
              = ([], LF :: text)).
  { rewrite <- gathered_split. apply (chunk_loop_fits maxChars (split LF text) []).
    rewrite gathered_length_spec, gathered_split. unfold str_length in *.
    cbn [List.length]. lia. }
  unfold chunkText. unfold jsstring in Q |- *. rewrite Q. unfold flush.
  now rewrite (trim_cons_white LF text eq_refl).
Qed.

Lemma chunkText_short_text_witness :
  str_length (js "  Paris is the capital of France. ") < default_maxChars
  /\ chunkText (js "  Paris is the capital of France. ") default_maxChars
     = if truthy (trim (js "  Paris is the capital of France. "))
       then [trim (js "  Paris is the capital of France. ")] else [].
Proof.
  split; [reflexivity|].
  apply (chunkText_short_text (js "  Paris is the capital of France. ") default_maxChars).
  reflexivity.
Defined.

Lemma nonblank_app a b : nonblank (a ++ b) = nonblank a ++ nonblank b.
Proof. unfold nonblank. apply filter_app. Qed.

(** There are never more chunks than non-blank lines: every chunk holds
    at least one of them. *)
Theorem chunkText_count (text : jsstring) (maxChars : Z) :
  (List.length (chunkText text maxChars) <= List.length (nonblank_lines text))%nat.
Proof.
  unfold chunkText, nonblank_lines.
  assert (I : let st := fold_left (chunk_step maxChars) (split LF text) ([], []) in
              (List.length (fst st) + (if truthy (trim (snd st)) then 1 else 0)
               <= List.length (nonblank (split LF text)))%nat).
  { apply (fold_left_prefix_ind _ _ (chunk_step maxChars)
             (fun pre st =>
                (List.length (fst st) + (if truthy (trim (snd st)) then 1 else 0)
                 <= List.length (nonblank pre))%nat)).
    - simpl. lia.
    - intros pre x [chunks current] _ IH. simpl in IH.
      rewrite nonblank_app, length_app. unfold chunk_step.
      assert (Hx : List.length (nonblank [x])
                   = if truthy (trim x) then 1%nat else 0%nat).
      { unfold nonblank. simpl. now destruct (truthy (trim x)). }
      rewrite Hx.
      destruct (str_length (current ++ LF :: x) >? maxChars); simpl.
      + unfold flush. destruct (truthy (trim current)).
        * rewrite length_app. simpl. lia.
        * lia.
      + destruct (truthy (trim (current ++ LF :: x))) eqn:E; [|lia].
        destruct (truthy (trim current)) eqn:Ec; [lia|].
        destruct (truthy (trim x)) eqn:Ex; [lia|exfalso].
        apply truthy_false_nil, trim_nil_white in Ec, Ex.
        assert (W : white (current ++ LF :: x)).
        { apply white_app; [exact Ec|]. now constructor. }
        rewrite (trim_white _ W) in E. discriminate E. }
  destruct (fold_left (chunk_step maxChars) (split LF text) ([], [])) as [chunks current].
  simpl in I. unfold flush. destruct (truthy (trim current)).
  - rewrite length_app. simpl. lia.
  - lia.
Qed.

(* ================================================================= *)
(** ** More about the cosine similarity *)

Lemma Prim2SF_nan : Prim2SF nan = S754_nan.
Proof. reflexivity. Qed.

Lemma float_add_nan_r x : (x + nan)%float = nan.
Proof.
  apply Prim2SF_inj. rewrite FloatAxioms.add_spec, Prim2SF_nan.
  unfold SF64add, SFadd. now destruct (Prim2SF x).
Qed.

Lemma float_add_nan_l x : (nan + x)%float = nan.
Proof.
  apply Prim2SF_inj. rewrite FloatAxioms.add_spec, Prim2SF_nan. reflexivity.
Qed.

Lemma float_mul_nan_r x : (x * nan)%float = nan.
Proof.
  apply Prim2SF_inj. rewrite FloatAxioms.mul_spec, Prim2SF_nan.
  unfold SF64mul, SFmul. now destruct (Prim2SF x).
Qed.

Lemma float_div_nan_l x : (nan / x)%float = nan.
Proof.
  apply Prim2SF_inj. rewrite FloatAxioms.div_spec, Prim2SF_nan. reflexivity.
Qed.

(** Once the dot product is NaN it stays NaN. *)
Lemma cosine_loop_nan a b idx :
  forall na nb, fst (fst (fold_left (cosine_step a b) idx (nan, na, nb))) = nan.
Proof.
  induction idx as [|i idx IH]; intros na nb; simpl; [reflexivity|].
  rewrite float_add_nan_l. apply IH.
Qed.

Lemma cosine_loop_hits_nan a b idx i :
  In i idx -> at_index b i = nan ->
  forall dot na nb, fst (fst (fold_left (cosine_step a b) idx (dot, na, nb))) = nan.
Proof.
  intros Hin Hb. induction idx as [|j idx IH]; intros dot na nb; [destruct Hin|].
  simpl. destruct Hin as [->|Hin].
  - rewrite Hb, float_mul_nan_r, float_add_nan_r. apply cosine_loop_nan.
  - now apply IH.
Qed.

(** No check of dimensions: against a vector [b] shorter than [a], the
    components [b] lacks read as [undefined] and the similarity is NaN. *)
Theorem cosineSim_shorter_is_nan (a b : list float) :
  (List.length b < List.length a)%nat -> cosineSim a b = nan.
Proof.
  intros H. unfold cosineSim.
  pose proof (cosine_loop_hits_nan a b (seq 0 (List.length a)) (List.length b)) as K.
  assert (Hin : In (List.length b) (seq 0 (List.length a))) by (apply in_seq; lia).
  assert (Hb : at_index b (List.length b) = nan).
  { unfold at_index. apply nth_overflow. lia. }
  specialize (K Hin Hb 0%float 0%float 0%float).
  destruct (fold_left (cosine_step a b) (seq 0 (List.length a)) (0, 0, 0)%float)
    as [[dot na] nb].
  simpl in K. subst dot. apply float_div_nan_l.
Qed.

Lemma cosineSim_shorter_is_nan_witness :
  (List.length [1]%float < List.length [1; 0]%float)%nat
  /\ cosineSim [1; 0]%float [1]%float = nan.
Proof.
  split; [simpl; lia|].
  apply (cosineSim_shorter_is_nan [1; 0]%float [1]%float). simpl. lia.
Defined.

Lemma cosine_loop_ext a b b' idx :
  (forall i, In i idx -> at_index b i = at_index b' i) ->
  forall acc, fold_left (cosine_step a b) idx acc = fold_left (cosine_step a b') idx acc.
Proof.
  induction idx as [|i idx IH]; intros H acc; simpl; [reflexivity|].
  destruct acc as [[dot na] nb]. unfold cosine_step at 2 4.
  rewrite (H i (or_introl eq_refl)). apply IH. intros j Hj. apply H. now right.
Qed.

(** The loop runs over the indices of [a] only: what [b] holds beyond the
    length of [a] plays no part in the result. *)
Theorem cosineSim_ignores_excess (a b : list float) :
  cosineSim a b = cosineSim a (firstn (List.length a) b).
Proof.
  unfold cosineSim.
  rewrite (cosine_loop_ext a b (firstn (List.length a) b)); [reflexivity|].
  intros i Hi. apply in_seq in Hi. unfold at_index.
  rewrite nth_firstn. destruct (Nat.ltb_spec i (List.length a)); [reflexivity|lia].
Qed.

Lemma cosine_loop_zero a b idx :
  (forall i, In i idx -> at_index a i = 0%float /\ at_index b i = 0%float) ->
  fold_left (cosine_step a b) idx (0, 0, 0)%float = (0, 0, 0)%float.
Proof.
  induction idx as [|i idx IH]; intros H; simpl; [reflexivity|].
  destruct (H i (or_introl eq_refl)) as [-> ->].
  change (0 + 0 * 0)%float with 0%float. apply IH. intros j Hj. apply H. now right.
Qed.

(** What the [1e-8] in the denominator is for: the similarity of an
    all-zero vector with an all-zero vector at least as long is 0, not
    the NaN that 0/0 would be. *)
Theorem cosineSim_zero_vectors (a b : list float) :
  Forall (fun x => x = 0%float) a -> Forall (fun x => x = 0%float) b ->
  (List.length a <= List.length b)%nat ->
  cosineSim a b = 0%float.
Proof.
  intros Ha Hb Hlen. unfold cosineSim.
  rewrite cosine_loop_zero; [reflexivity|].
  intros i Hi. apply in_seq in Hi. unfold at_index.
  rewrite Forall_forall in Ha, Hb.
  split; [apply Ha|apply Hb]; apply nth_In; lia.
Qed.

Lemma cosineSim_zero_vectors_witness :
  Forall (fun x => x = 0%float) [0; 0]%float
  /\ Forall (fun x => x = 0%float) [0; 0; 0]%float
  /\ (List.length [0; 0]%float <= List.length [0; 0; 0]%float)%nat
  /\ cosineSim [0; 0]%float [0; 0; 0]%float = 0%float.
Proof.
  assert (Ha : Forall (fun x => x = 0%float) [0; 0]%float) by (repeat constructor).
  assert (Hb : Forall (fun x => x = 0%float) [0; 0; 0]%float) by (repeat constructor).
  assert (Hl : (List.length [0; 0]%float <= List.length [0; 0; 0]%float)%nat)
    by (simpl; lia).
  split; [exact Ha|]. split; [exact Hb|]. split; [exact Hl|].
  exact (cosineSim_zero_vectors [0; 0]%float [0; 0; 0]%float Ha Hb Hl).
Defined.

(* ================================================================= *)
(** ** More about the ranking *)

Lemma descending_cross a b :
  descending (a ++ b) ->
  forall x y, In x a -> In y b -> (score y <=? score x)%float = true.
Proof.
  induction a as [|z a IH]; intros H x y Hx Hy; [destruct Hx|].
  inversion H as [|? ? Hs Hz]; subst.
  destruct Hx as [<-|Hx].
  - rewrite Forall_forall in Hz. apply Hz. apply in_app_iff. now right.
  - now apply (IH Hs x y).
Qed.

(** The search returns the best: when no record scores NaN, the records
    left out of the results, together with the results, make up the
    store, and none of them scores above any result. *)
Theorem similarity_search_keeps_best (q : list float) (db : list ChunkRecord) (topK : Z) :
  scores_defined q db ->
  exists left_out,
    Permutation (similarity_search q db topK ++ left_out) (List.map (with_score q) db)
    /\ forall x y, In x (similarity_search q db topK) -> In y left_out ->
         (score y <=? score x)%float = true.
Proof.
  intros Hd. apply scores_defined_scored in Hd. unfold similarity_search.
  destruct (slice0_prefix _ (Array_sort by_score_desc (List.map (with_score q) db)) topK)
    as [rest E].
  exists rest. split.
  - rewrite <- E. apply Array_sort_perm.
  - apply descending_cross. rewrite <- E. now apply Array_sort_descending.
Qed.

Lemma similarity_search_keeps_best_witness :
  scores_defined demo_query demo_db
  /\ exists left_out,
       Permutation (similarity_search demo_query demo_db 2 ++ left_out)
                   (List.map (with_score demo_query) demo_db)
       /\ forall x y, In x (similarity_search demo_query demo_db 2) -> In y left_out ->
            (score y <=? score x)%float = true.
Proof.
  assert (H : scores_defined demo_query demo_db)
    by (repeat constructor; vm_compute; reflexivity).
  split; [exact H|].
  exact (similarity_search_keeps_best demo_query demo_db 2 H).
Defined.

Lemma firstn_le_prefix (A : Type) (n m : nat) (l : list A) :
  (n <= m)%nat -> exists more, firstn m l = firstn n l ++ more.
Proof.
  revert m l. induction n as [|n IH]; intros m l H.
  - now exists (firstn m l).
  - destruct m as [|m]; [lia|]. destruct l as [|x l].
    + now exists [].
    + destruct (IH m l ltac:(lia)) as [more E]. exists more. simpl. now rewrite E.
Qed.

(** Asking for more results only extends the list: for
    [0 <= topK <= topK'], the results for [topK] open the results for
    [topK'], in the same order. *)
Theorem similarity_search_extends (q : list float) (db : list ChunkRecord) (topK topK' : Z) :
  0 <= topK -> topK <= topK' ->
  exists more, similarity_search q db topK' = similarity_search q db topK ++ more.
Proof.
  intros H0 Hle. unfold similarity_search, slice0.
  set (sorted := Array_sort by_score_desc (List.map (with_score q) db)).
  destruct (Z.ltb_spec topK 0), (Z.ltb_spec topK' 0); try lia.
  apply firstn_le_prefix. lia.
Qed.

Lemma similarity_search_extends_witness :
  0 <= 1 /\ 1 <= 2
  /\ exists more,
       similarity_search demo_query demo_db 2
       = similarity_search demo_query demo_db 1 ++ more.
Proof.
  split; [lia|]. split; [lia|].
  apply (similarity_search_extends demo_query demo_db 1 2); lia.
Defined.

(* ================================================================= *)
(** ** The handlers, case by case *)

Lemma untrimmable_destructurable name body :
  untrimmable (field name body) = true -> destructurable body = true.
Proof.
  destruct body as [[|b|x|s|items|members]|]; simpl; try discriminate; reflexivity.
Qed.

(** [POST /api/docs] answers 400 exactly when the request has a body to
    destructure whose [text] is missing, otherwise falsy, or a string of
    white space only, and then nothing at all has been done: no model
    load, no embedding, no access to the store. A request without a
    body, or whose [text] is truthy and is no string, makes the handler
    throw a TypeError: the answer is 500, again with nothing done. *)
Theorem post_docs_400 (P : Platform) (w : World) (body : Body) :
  (status_of (fst (post_docs P body w)) = 400
   <-> destructurable body = true /\ blank_field (docs_text body) = true)
  /\ (status_of (fst (post_docs P body w)) = 400 ->
      post_docs P body w = (Failure 400 (js "text is required") None None, w))
  /\ (destructurable body = false \/ untrimmable (docs_text body) = true ->
      post_docs P body w = (Failure 500 (js "Failed to index document") None None, w)).
Proof.
  assert (I : status_of (fst (post_docs P body w)) = 400 ->
              destructurable body = true /\ blank_field (docs_text body) = true).
  { intros H. destruct (destructurable body) eqn:D;
      [|rewrite (post_docs_undestructurable P w body D) in H; discriminate H].
    split; [reflexivity|].
    destruct (field_cases (docs_text body)) as [B|[U|(t & Ht & Hnb)]]; [exact B| |].
    - rewrite (post_docs_untrimmable P w body D U) in H. discriminate H.
    - rewrite (post_docs_run P w body t Ht Hnb) in H.
      destruct (embed_chunks P (label_of body) (chunkText t default_maxChars) 0 w)
        as [[recs|msg] w']; discriminate H. }
  split; [split; [exact I|]|split].
  - intros [D B]. now rewrite (post_docs_blank P w body D B).
  - intros H. destruct (I H) as [D B]. exact (post_docs_blank P w body D B).
  - intros [D|U]; [exact (post_docs_undestructurable P w body D)|].
    exact (post_docs_untrimmable P w body (untrimmable_destructurable _ _ U) U).
Qed.

(** [POST /api/chat] answers 400 exactly when the request has a body to
    destructure and either its [question] is missing, otherwise falsy or
    a string of white space only, or its [question] is a string and the
    store is empty. A request without a body, or whose [question] is
    truthy and is no string, makes the handler throw a TypeError: the
    answer is 500 with the message of the error, and nothing is done. *)
Theorem post_chat_400 (P : Platform) (w : World) (body : Body) :
  (status_of (fst (post_chat P body w)) = 400
   <-> destructurable body = true
       /\ (blank_field (chat_question body) = true
           \/ (untrimmable (chat_question body) = false /\ stored w = [])))
  /\ (destructurable body = false ->
      post_chat P body w
      = (Failure 500 (js "Failed to process chat")
           (Some (TypeError_message P (Undestructurable "question" body))) None, w))
  /\ (untrimmable (chat_question body) = true ->
      post_chat P body w
      = (Failure 500 (js "Failed to process chat")
           (Some (TypeError_message P (NotCallable "question.trim"))) None, w)).
Proof.
  split; [split|split].
  - intros H. destruct (destructurable body) eqn:D;
      [|rewrite (post_chat_undestructurable P w body D) in H; discriminate H].
    split; [reflexivity|].
    destruct (field_cases (chat_question body)) as [B|[U|(q & Hq & Hnb)]];
      [now left| |].
    + rewrite (post_chat_untrimmable P w body D U) in H. discriminate H.
    + right. split; [now rewrite Hq|].
      destruct (stored w) as [|r db] eqn:Es; [reflexivity|exfalso].
      assert (Hs : stored w <> []) by (rewrite Es; discriminate).
      rewrite (post_chat_run P w body q Hq Hnb Hs) in H.
      destruct (computeEmbedding P q (log ReadStore w)) as [[qE|msg] w1];
        [|discriminate H].
      destruct (slice_end P (topK_of body)) as [end_|msg]; [|discriminate H].
      cbv zeta in H.
      destruct (chat_completion P system_prompt _); discriminate H.
  - intros [D [B|[U Hs]]]; [now rewrite (post_chat_blank P w body D B)|].
    destruct (field_cases (chat_question body)) as [B|[U'|(q & Hq & Hnb)]].
    + now rewrite (post_chat_blank P w body D B).
    + congruence.
    + now rewrite (post_chat_empty P w body q Hq Hnb Hs).
  - exact (post_chat_undestructurable P w body).
  - intros U.
    exact (post_chat_untrimmable P w body (untrimmable_destructurable _ _ U) U).
Qed.

(** Past its two checks, the chat endpoint turns every failure into a 500
    that carries the message of what failed: the model not loading, the
    extractor throwing on the question, the conversion of [topK] to a
    number throwing, or the completion call throwing. *)
Theorem chat_failure_details (P : Platform) (w : World) (body : Body)
        (question msg : jsstring) :
  chat_question body = Some (JString question) ->
  truthy (trim question) = true ->
  stored w <> [] ->
  (extractor_in_use P w = Throw msg
   \/ (exists e, extractor_in_use P w = Ok e /\ e question = Throw msg)
   \/ (exists e qE,
         extractor_in_use P w = Ok e /\ e question = Ok qE
         /\ slice_end P (topK_of body) = Throw msg)
   \/ (exists e qE end_,
         extractor_in_use P w = Ok e /\ e question = Ok qE
         /\ slice_end P (topK_of body) = Ok end_
         /\ chat_completion P system_prompt
              (user_prompt
                 (contextText (similarity_search qE (stored w) end_))
                 question) = Throw msg)) ->
  fst (post_chat P body w)
  = Failure 500 (js "Failed to process chat") (Some msg) None.
Proof.
  intros Hq Hnb Hs H.
  destruct H as [H|[(e & He & Hv)|[(e & qE & He & Hv & Hk)|(e & qE & k & He & Hv & Hk & Hc)]]].
  - rewrite (post_chat_run P w body question Hq Hnb Hs).
    pose proof (computeEmbedding_spec P question (log ReadStore w)) as C.
    change (extractor_in_use P (log ReadStore w)) with (extractor_in_use P w) in C.
    rewrite H in C.
    destruct (computeEmbedding P question (log ReadStore w)) as [[v|m] w1];
      simpl in C; [discriminate C|now injection C as ->].
  - rewrite (post_chat_run P w body question Hq Hnb Hs).
    pose proof (computeEmbedding_spec P question (log ReadStore w)) as C.
    change (extractor_in_use P (log ReadStore w)) with (extractor_in_use P w) in C.
    rewrite He in C. destruct C as [C _]. rewrite Hv in C.
    destruct (computeEmbedding P question (log ReadStore w)) as [[v|m] w1];
      simpl in C; [discriminate C|now injection C as ->].
  - now rewrite (post_chat_embedded P w body question e qE Hq Hnb Hs He Hv), Hk.
  - now rewrite (post_chat_embedded P w body question e qE Hq Hnb Hs He Hv), Hk, Hc.
Qed.

Lemma chat_failure_details_witness :
  chat_question (demo_chat 1) = Some (JString demo_question)
  /\ truthy (trim demo_question) = true
  /\ stored (world_with demo_db) <> []
  /\ (exists e, extractor_in_use failing_platform (world_with demo_db) = Ok e
                /\ e demo_question = Throw (js "inference failed"))
  /\ fst (post_chat failing_platform (demo_chat 1) (world_with demo_db))
     = Failure 500 (js "Failed to process chat") (Some (js "inference failed")) None.
Proof.
  assert (Hs : stored (world_with demo_db) <> []) by discriminate.
  assert (He : exists e, extractor_in_use failing_platform (world_with demo_db) = Ok e
                         /\ e demo_question = Throw (js "inference failed")).
  { eexists. split; reflexivity. }
  split; [reflexivity|]. split; [reflexivity|]. split; [exact Hs|]. split; [exact He|].
  exact (chat_failure_details failing_platform (world_with demo_db) (demo_chat 1)
           demo_question (js "inference failed") eq_refl eq_refl Hs
           (or_intror (or_introl He))).
Defined.

Lemma slice0_incl (A : Type) (l : list A) topK x : In x (slice0 l topK) -> In x l.
Proof.
  intros H. destruct (slice0_prefix _ l topK) as [rest E]. rewrite E.
  apply in_app_iff. now left.
Qed.

(** A successful chat answer cites records of the store: every chunk of
    the response carries the id, text and source of a stored record and
    that record's cosine score against the embedding of the question;
    there are as many chunks as [slice(0, topK)] keeps of the store, so
    at most 5 when the request names no [topK]. *)
Theorem chat_citations (P : Platform) (w : World) (body : Body)
        (question : jsstring) (e : Extractor) (qE : list float)
        (end_ : IntegerOrInfinity) (answer : jsstring) :
  chat_question body = Some (JString question) ->
  truthy (trim question) = true ->
  stored w <> [] ->
  extractor_in_use P w = Ok e ->
  e question = Ok qE ->
  slice_end P (topK_of body) = Ok end_ ->
  chat_completion P system_prompt
    (user_prompt (contextText (similarity_search qE (stored w) end_)) question)
  = Ok answer ->
  (forall c, In c (chunks_of (fst (post_chat P body w))) ->
     exists r, In r (stored w)
               /\ cite_id c = id r /\ cite_text c = text r /\ cite_source c = source r
               /\ cite_score c = cosineSim qE (numbers (embedding r)))
  /\ Z.of_nat (List.length (chunks_of (fst (post_chat P body w))))
     = kept (List.length (stored w)) end_
  /\ (chat_topK body = None ->
      (List.length (chunks_of (fst (post_chat P body w))) <= 5)%nat).
Proof.
  intros Hq Hnb Hs He Hv Hk Ha.
  rewrite (post_chat_embedded P w body question e qE Hq Hnb Hs He Hv), Hk, Ha.
  simpl chunks_of. rewrite length_map.
  pose proof (similarity_search_length qE (stored w) end_) as L.
  split; [|split; [exact L|]].
  - intros c Hc. apply in_map_iff in Hc as (s & <- & Hin).
    unfold similarity_search in Hin. apply slice0_incl in Hin.
    apply (Permutation_in _ (Array_sort_perm _ by_score_desc _)) in Hin.
    apply in_map_iff in Hin as (r & <- & Hr).
    exists r. repeat split; assumption.
  - intros Hn. unfold topK_of in Hk. rewrite Hn in Hk.
    assert (E : end_ = Integer 5) by (vm_compute in Hk; congruence).
    rewrite E in L |- *. cbv beta iota delta [kept] in L.
    change (5 <? 0) with false in L. cbv iota in L. lia.
Qed.

Lemma chat_citations_witness :
  chat_question (demo_chat 2) = Some (JString demo_question)
  /\ truthy (trim demo_question) = true
  /\ stored (world_with demo_db) <> []
  /\ extractor_in_use demo_platform (world_with demo_db) = Ok (fun _ => Ok [1; 0]%float)
  /\ (fun _ : jsstring => @Ok (list float) [1; 0]%float) demo_question = Ok [1; 0]%float
  /\ slice_end demo_platform (topK_of (demo_chat 2)) = Ok (Integer 2)
  /\ chat_completion demo_platform system_prompt
       (user_prompt
          (contextText (similarity_search [1; 0]%float (stored (world_with demo_db)) 2))
          demo_question) = Ok (js "Paris.")
  /\ ((forall c,
         In c (chunks_of (fst (post_chat demo_platform (demo_chat 2) (world_with demo_db)))) ->
         exists r, In r (stored (world_with demo_db))
                   /\ cite_id c = id r /\ cite_text c = text r
                   /\ cite_source c = source r
                   /\ cite_score c = cosineSim [1; 0]%float (numbers (embedding r)))
      /\ Z.of_nat (List.length
           (chunks_of (fst (post_chat demo_platform (demo_chat 2) (world_with demo_db)))))
         = kept (List.length (stored (world_with demo_db))) 2
      /\ (chat_topK (demo_chat 2) = None ->
          (List.length
             (chunks_of (fst (post_chat demo_platform (demo_chat 2) (world_with demo_db))))
           <= 5)%nat)).
Proof.
  assert (Hs : stored (world_with demo_db) <> []) by discriminate.
  split; [reflexivity|]. split; [reflexivity|]. split; [exact Hs|].
  split; [reflexivity|]. split; [reflexivity|]. split; [reflexivity|].
  split; [reflexivity|].
  exact (chat_citations demo_platform (world_with demo_db) (demo_chat 2) demo_question
           (fun _ => Ok [1; 0]%float) [1; 0]%float (Integer 2) (js "Paris.")
           eq_refl eq_refl Hs eq_refl eq_refl eq_refl eq_refl).
Defined.

(** Lines 197-207, run. *)
Lemma deleteBySource_run src w :
  deleteBySource src w =
  if (List.length (matching src (stored w)) =? 0)%nat
  then (Ok (Failure 404 (js "No vectors found for source") None (Some src)),
        log ReadStore w)
  else (Ok (Removed (List.length (matching src (stored w)))
                    (List.length (others src (stored w))) src),
        {| embedder := embedder w;
           vector_store := Some (others src (stored w));
           ticks := ticks w;
           trace := trace w ++ [ReadStore; WriteStore (others src (stored w))] |}).
Proof.
  unfold deleteBySource, bind, loadDb. fold (stored w). fold (others src (stored w)).
  rewrite removed_count.
  destruct (List.length (matching src (stored w)) =? 0)%nat; [reflexivity|].
  unfold saveDb, ret, log. simpl. now rewrite <- app_assoc.
Qed.

Lemma delete_docs_run P param w d :
  decodeURIComponent P param = Ok d -> truthy (trim d) = true ->
  delete_docs P param w =
  if (List.length (matching (trim d) (stored w)) =? 0)%nat
  then (Failure 404 (js "No vectors found for source") None (Some (trim d)),
        log ReadStore w)
  else (Removed (List.length (matching (trim d) (stored w)))
                (List.length (others (trim d) (stored w))) (trim d),
        {| embedder := embedder w;
           vector_store := Some (others (trim d) (stored w));
           ticks := ticks w;
           trace := trace w ++ [ReadStore; WriteStore (others (trim d) (stored w))] |}).
Proof.
  intros Hd Ht. unfold delete_docs, try_catch, delete_source.
  rewrite Hd, Ht. cbn [negb]. cbv iota. rewrite deleteBySource_run.
  now destruct (List.length (matching (trim d) (stored w)) =? 0)%nat.
Qed.

(** The store a deletion leaves, as it is read back. *)
Lemma stored_deleted src w (events : list Event) :
  stored {| embedder := embedder w;
            vector_store := Some (others src (stored w));
            ticks := ticks w;
            trace := events |}
  = others src (stored w).
Proof. unfold stored at 1. simpl. apply stored_others. Qed.

(** The three ways [DELETE /api/docs/:source] ends. *)
Lemma delete_docs_cases P param w :
  (exists msg, decodeURIComponent P param = Throw msg
               /\ delete_docs P param w
                  = (Failure 500 (js "Failed to delete source") (Some msg) None, w))
  \/ (exists d, decodeURIComponent P param = Ok d /\ truthy (trim d) = false
                /\ delete_docs P param w
                   = (Failure 400 (js "source is required") None None, w))
  \/ (exists d, decodeURIComponent P param = Ok d /\ truthy (trim d) = true).
Proof.
  destruct (decodeURIComponent P param) as [d|msg] eqn:Hd.
  - right. destruct (truthy (trim d)) eqn:Ht.
    + right. now exists d.
    + left. exists d. split; [reflexivity|]. split; [exact Ht|].
      unfold delete_docs, try_catch, delete_source. now rewrite Hd, Ht.
  - left. exists msg. split; [reflexivity|].
    unfold delete_docs, try_catch, delete_source. now rewrite Hd.
Qed.

(** What a delete request leaves alone: the loaded model and the clock
    always; the store file unless the answer is a 200; and everything
    when the path parameter does not decode, which is answered by a 500
    carrying the decoder's message. *)
Theorem delete_docs_frame (P : Platform) (w : World) (param : jsstring) :
  embedder (snd (delete_docs P param w)) = embedder w
  /\ ticks (snd (delete_docs P param w)) = ticks w
  /\ (status_of (fst (delete_docs P param w)) <> 200 ->
      vector_store (snd (delete_docs P param w)) = vector_store w)
  /\ (forall msg, decodeURIComponent P param = Throw msg ->
        delete_docs P param w
        = (Failure 500 (js "Failed to delete source") (Some msg) None, w)).
Proof.
  destruct (delete_docs_cases P param w)
    as [(msg & Hd & E)|[(d & Hd & Ht & E)|(d & Hd & Ht)]].
  - rewrite E. repeat split. intros m Hm. congruence.
  - rewrite E. repeat split. intros m Hm. congruence.
  - rewrite (delete_docs_run P param w d Hd Ht).
    destruct (List.length (matching (trim d) (stored w)) =? 0)%nat; simpl;
      repeat split; congruence.
Qed.

Lemma matching_others src db : matching src (others src db) = [].
Proof.
  unfold matching, others. induction db as [|r db IH]; simpl; [reflexivity|].
  destruct (has_source src r) eqn:E; simpl; [exact IH|]. now rewrite E.
Qed.

Lemma matching_nil_others src db : matching src db = [] -> others src db = db.
Proof.
  unfold matching, others. induction db as [|r db IH]; simpl; [reflexivity|].
  destruct (has_source src r); simpl; [discriminate|].
  intros H. now rewrite IH.
Qed.

(** Deleting a source twice: whatever the first request did, the second
    one finds nothing, answers 404 and leaves the store as the first
    left it. *)
Theorem delete_twice (P : Platform) (w : World) (param d : jsstring) :
  decodeURIComponent P param = Ok d ->
  truthy (trim d) = true ->
  delete_docs P param (snd (delete_docs P param w))
  = (Failure 404 (js "No vectors found for source") None (Some (trim d)),
     log ReadStore (snd (delete_docs P param w))).
Proof.
  intros Hd Ht.
  assert (M : matching (trim d) (stored (snd (delete_docs P param w))) = []).
  { rewrite (delete_docs_run P param w d Hd Ht).
    destruct (List.length (matching (trim d) (stored w)) =? 0)%nat eqn:E; simpl snd.
    - apply Nat.eqb_eq in E. change (stored (log ReadStore w)) with (stored w).
      now destruct (matching (trim d) (stored w)).
    - rewrite stored_deleted. apply matching_others. }
  rewrite (delete_docs_run P param _ d Hd Ht), M. reflexivity.
Qed.

Lemma delete_twice_witness :
  decodeURIComponent demo_platform (js "demo") = Ok (js "demo")
  /\ truthy (trim (js "demo")) = true
  /\ delete_docs demo_platform (js "demo")
       (snd (delete_docs demo_platform (js "demo") (world_with demo_db)))
     = (Failure 404 (js "No vectors found for source") None (Some (trim (js "demo"))),
        log ReadStore (snd (delete_docs demo_platform (js "demo") (world_with demo_db)))).
Proof.
  split; [reflexivity|]. split; [reflexivity|].
  apply (delete_twice demo_platform (world_with demo_db) (js "demo") (js "demo"));
    reflexivity.
Defined.

(** Ingestion stores the [source] label as given, deletion trims the one
    it is asked for and compares it as a string: a record whose label is
    no string, is empty or has white space at either end survives every
    delete request. *)
Theorem delete_spares_unreachable (P : Platform) (w : World) (param : jsstring)
        (r : ChunkRecord) :
  In r (stored w) ->
  unreachable_label (source r) ->
  In r (stored (snd (delete_docs P param w))).
Proof.
  intros Hin Hu.
  destruct (delete_docs_cases P param w)
    as [(msg & Hd & E)|[(d & Hd & Ht & E)|(d & Hd & Ht)]];
    try (rewrite E; exact Hin).
  rewrite (delete_docs_run P param w d Hd Ht).
  destruct (List.length (matching (trim d) (stored w)) =? 0)%nat; simpl snd; [exact Hin|].
  rewrite stored_deleted. unfold others. apply filter_In. split; [exact Hin|].
  apply negb_true_iff. destruct (has_source (trim d) r) eqn:E; [|reflexivity].
  exfalso. apply has_source_eq in E. rewrite E in Hu. destruct Hu as [Hu|Hu].
  - rewrite Hu in Ht. discriminate Ht.
  - apply Hu. apply trim_idem.
Qed.

Lemma delete_spares_unreachable_witness :
  In spaced_record (stored (world_with [spaced_record]))
  /\ unreachable_label (source spaced_record)
  /\ In spaced_record
        (stored (snd (delete_docs demo_platform (js " geo") (world_with [spaced_record])))).
Proof.
  assert (H1 : In spaced_record (stored (world_with [spaced_record]))) by now left.
  assert (H2 : unreachable_label (source spaced_record)) by (right; discriminate).
  split; [exact H1|]. split; [exact H2|].
  exact (delete_spares_unreachable demo_platform (world_with [spaced_record])
           (js " geo") spaced_record H1 H2).
Defined.

(* ================================================================= *)
(** ** Sequences of requests *)

Lemma getEmbedder_ticks P w :
  ticks (snd (getEmbedder P w)) = ticks w
  /\ vector_store (snd (getEmbedder P w)) = vector_store w.
Proof.
  unfold getEmbedder. destruct (embedder w); [now split|].
  destruct (pipeline P); now split.
Qed.

Lemma computeEmbedding_ticks P input w :
  ticks (snd (computeEmbedding P input w)) = ticks w
  /\ vector_store (snd (computeEmbedding P input w)) = vector_store w.
Proof.
  unfold computeEmbedding, bind.
  pose proof (getEmbedder_ticks P w) as H.
  destruct (getEmbedder P w) as [[e|msg] w1]; simpl in *; exact H.
Qed.

(** The embedding loop never sets the clock back. *)
Lemma embed_chunks_ticks P src chunks :
  forall i w, (ticks w <= ticks (snd (embed_chunks P src chunks i w)))%nat.
Proof.
  induction chunks as [|chunk rest IH]; intros i w; simpl; [lia|].
  unfold bind at 1.
  pose proof (computeEmbedding_ticks P chunk w) as [T1 _].
  destruct (computeEmbedding P chunk w) as [[v|msg] w1]; simpl in T1;
    [|simpl; lia].
  unfold bind at 1. unfold now at 1.
  unfold bind at 1.
  match goal with |- context [embed_chunks P src rest (S i) ?w2] =>
    specialize (IH (S i) w2);
    destruct (embed_chunks P src rest (S i) w2) as [[vs|msg] w3]
  end; simpl in IH |- *; lia.
Qed.

(** The records of a batch, one by one: the [j]-th is made at the
    [j]-th clock reading after the start, with index [i + j], from the
    [j]-th chunk and the label. *)
Lemma embed_chunks_records P src chunks :
  forall i w recs w',
    embed_chunks P src chunks i w = (Ok recs, w') ->
    ticks w' = (ticks w + List.length chunks)%nat
    /\ List.map id recs
       = List.map (fun j => id_at P ((ticks w + j)%nat, (i + j)%nat))
                  (seq 0 (List.length chunks))
    /\ List.map text recs = chunks
    /\ Forall (fun r => source r = src) recs.
Proof.
  induction chunks as [|chunk rest IH]; intros i w recs w' E; simpl in E.
  - injection E as <- <-. repeat split; [simpl; lia|constructor].
  - unfold bind at 1 in E.
    pose proof (computeEmbedding_ticks P chunk w) as [T1 _].
    destruct (computeEmbedding P chunk w) as [[v|msg] w1]; [|discriminate E].
    simpl in T1. unfold bind at 1 in E. unfold now at 1 in E.
    unfold bind at 1 in E.
    match type of E with context [embed_chunks P src rest (S i) ?w2] =>
      destruct (embed_chunks P src rest (S i) w2) as [[vs|msg] w3] eqn:Er;
        [|discriminate E];
      destruct (IH (S i) w2 vs w3 Er) as (T & I & X & S)
    end.
    injection E as <- <-. simpl in T.
    split; [simpl; lia|]. split; [|split].
    + cbn [List.length seq List.map]. f_equal.
      * unfold id_at, record_id. simpl fst. simpl snd.
        rewrite T1, !Nat.add_0_r. reflexivity.
      * rewrite I, <- seq_shift, map_map. apply map_ext. intros j.
        simpl ticks. rewrite T1. f_equal. f_equal; lia.
    + simpl. now rewrite X.
    + now constructor.
Qed.

(** What an ingestion request does to the store and the clock: nothing
    to the store, or one batch appended, stamped at the successive clock
    readings of the request and holding clean texts under the request's
    label. *)
Lemma post_docs_world P body w :
  (stored (snd (post_docs P body w)) = stored w
   /\ (ticks w <= ticks (snd (post_docs P body w)))%nat
   /\ status_of (fst (post_docs P body w)) <> 200)
  \/ exists recs,
       recs <> []
       /\ fst (post_docs P body w) = Inserted (List.length recs)
       /\ stored (snd (post_docs P body w)) = stored w ++ recs
       /\ ticks (snd (post_docs P body w)) = (ticks w + List.length recs)%nat
       /\ List.map id recs
          = List.map (fun j => id_at P ((ticks w + j)%nat, j))
                     (seq 0 (List.length recs))
       /\ Forall clean_text recs
       /\ Forall (fun r => source r = json_value (label_of body)) recs.
Proof.
  destruct (destructurable body) eqn:D;
    [|left; rewrite (post_docs_undestructurable P w body D); simpl;
      repeat split; [lia|discriminate]].
  destruct (field_cases (docs_text body)) as [B|[U|(t & Ht & Hnb)]].
  - left. rewrite (post_docs_blank P w body D B). simpl.
    repeat split; [lia|discriminate].
  - left. rewrite (post_docs_untrimmable P w body D U). simpl.
    repeat split; [lia|discriminate].
  - rewrite (post_docs_run P w body t Ht Hnb).
    pose proof (embed_chunks_untouched P (label_of body)
                  (chunkText t default_maxChars) 0 w) as U.
    pose proof (embed_chunks_ticks P (label_of body)
                  (chunkText t default_maxChars) 0 w) as T.
    destruct (embed_chunks P (label_of body) (chunkText t default_maxChars) 0 w)
      as [[recs|msg] w1] eqn:E; simpl in U, T.
    + right. exists (through_json recs).
      apply embed_chunks_records in E as (T1 & I & X & S).
      apply stored_untouched in U.
      assert (L : List.length recs = List.length (chunkText t default_maxChars))
        by (now rewrite <- X, length_map).
      assert (L' : List.length (through_json recs) = List.length recs)
        by apply length_map.
      simpl fst. simpl snd. rewrite stored_appended, U, L'. simpl ticks.
      split; [|split; [reflexivity|split; [reflexivity|split; [|split; [|split]]]]].
      * intros N. apply (f_equal (@List.length ChunkRecord)) in N.
        rewrite L', L in N. simpl in N. apply length_zero_iff_nil in N.
        apply chunkText_nil_blank in N. now rewrite N in Hnb.
      * now rewrite L.
      * now rewrite through_json_id, L.
      * pose proof (chunkText_all_trimmed t default_maxChars) as C.
        rewrite <- X in C. clear -C. unfold through_json.
        induction recs as [|r recs IH]; [constructor|].
        inversion C as [|? ? [C1 C2] C3]; subst. constructor; [|now apply IH].
        split; [|exact C2]. intros N. simpl in N. now rewrite N in C1.
      * unfold through_json. apply Forall_map. eapply Forall_impl; [|exact S].
        intros r H. simpl. now rewrite H.
    + left. simpl. apply stored_untouched in U.
      repeat split; [exact U|exact T|discriminate].
Qed.

(** A chat request leaves the store and the clock as they were. *)
Lemma post_chat_world P body w :
  vector_store (snd (post_chat P body w)) = vector_store w
  /\ ticks (snd (post_chat P body w)) = ticks w.
Proof.
  destruct (destructurable body) eqn:D;
    [|now rewrite (post_chat_undestructurable P w body D)].
  destruct (field_cases (chat_question body)) as [B|[U|(q & Hq & Hnb)]].
  - now rewrite (post_chat_blank P w body D B).
  - now rewrite (post_chat_untrimmable P w body D U).
  - destruct (stored w) as [|r db] eqn:Es.
    + now rewrite (post_chat_empty P w body q Hq Hnb Es).
    + assert (Hs : stored w <> []) by (rewrite Es; discriminate).
      rewrite (post_chat_run P w body q Hq Hnb Hs).
      pose proof (computeEmbedding_ticks P q (log ReadStore w)) as [T S].
      destruct (computeEmbedding P q (log ReadStore w)) as [[qE|msg] w1];
        simpl in T, S; [|now split].
      destruct (slice_end P (topK_of body)) as [end_|msg]; [|now split].
      cbv zeta. destruct (chat_completion P system_prompt _); now split.
Qed.

(** A delete request leaves the clock alone, and of the store it keeps
    either everything or the records under the other labels. *)
Lemma delete_docs_world P param w :
  ticks (snd (delete_docs P param w)) = ticks w
  /\ (stored (snd (delete_docs P param w)) = stored w
      \/ exists label, stored (snd (delete_docs P param w)) = others label (stored w)).
Proof.
  destruct (delete_docs_cases P param w)
    as [(msg & _ & ->)|[(d & _ & _ & ->)|(d & Hd & Ht)]];
    [split; [reflexivity|now left]..|].
  rewrite (delete_docs_run P param w d Hd Ht).
  destruct (List.length (matching (trim d) (stored w)) =? 0)%nat.
  - split; [reflexivity|now left].
  - split; [reflexivity|right]. exists (trim d). simpl snd. apply stored_deleted.
Qed.

(** *** Identifiers over a session *)

Lemma stamped_later P hi hi' ids :
  (hi <= hi')%nat -> stamped P hi ids -> stamped P hi' ids.
Proof.
  intros L (tags & E & S & B). exists tags. repeat split; try assumption.
  eapply Forall_impl; [|exact B]. simpl. intros; lia.
Qed.

Lemma filter_tags P (p : ChunkRecord -> bool) recs :
  forall tags,
    List.map id recs = List.map (id_at P) tags ->
    exists tags',
      List.map id (filter p recs) = List.map (id_at P) tags'
      /\ incl tags' tags
      /\ (StronglySorted lt (List.map fst tags) ->
          StronglySorted lt (List.map fst tags')).
Proof.
  induction recs as [|r recs IH]; intros tags E.
  - exists []. repeat split; [intros t []|constructor].
  - destruct tags as [|tk tags]; [discriminate E|].
    simpl in E. injection E as E1 E2.
    destruct (IH tags E2) as (tags' & E' & I' & S').
    simpl. destruct (p r).
    + exists (tk :: tags'). split; [simpl; now rewrite E1, E'|]. split.
      * intros t [<-|Ht]; [now left|right; now apply I'].
      * simpl. intros S. inversion S as [|? ? S1 S2]; subst.
        constructor; [now apply S'|].
        apply Forall_forall. intros n Hn. apply in_map_iff in Hn as (t & <- & Ht).
        rewrite Forall_forall in S2. apply S2, in_map, I', Ht.
    + exists tags'. split; [exact E'|]. split.
      * intros t Ht. right. now apply I'.
      * simpl. intros S. inversion S; subst. now apply S'.
Qed.

Lemma stamped_filter P hi (p : ChunkRecord -> bool) recs :
  stamped P hi (List.map id recs) -> stamped P hi (List.map id (filter p recs)).
Proof.
  intros (tags & E & S & B).
  destruct (filter_tags P p recs tags E) as (tags' & E' & I' & S').
  exists tags'. split; [exact E'|]. split; [now apply S'|].
  apply Forall_forall. intros n Hn. apply in_map_iff in Hn as (t & <- & Ht).
  rewrite Forall_forall in B. apply B, in_map, I', Ht.
Qed.

(** A batch made from clock reading [lo] on goes after everything made
    before [lo]. *)
Lemma stamped_app P lo n ids :
  stamped P lo ids ->
  stamped P (lo + n)
          (ids ++ List.map (fun j => id_at P ((lo + j)%nat, j)) (seq 0 n)).
Proof.
  intros (tags & E & S & B).
  exists (tags ++ List.map (fun j => ((lo + j)%nat, j)) (seq 0 n)).
  assert (F : List.map fst (List.map (fun j => ((lo + j)%nat, j)) (seq 0 n))
              = seq lo n).
  { rewrite map_map. simpl. clear. revert lo.
    induction n as [|n IH]; intros lo; [reflexivity|].
    simpl. rewrite Nat.add_0_r. f_equal.
    rewrite <- seq_shift, map_map, <- (IH (S lo)).
    apply map_ext. intros j. lia. }
  split; [|split].
  - now rewrite E, map_app, map_map.
  - rewrite map_app, F. clear E. induction S as [|t ts S IH H]; simpl.
    + clear. revert lo. induction n as [|n IH]; intros lo; constructor.
      * apply IH.
      * apply Forall_forall. intros m Hm. apply in_seq in Hm. lia.
    + inversion B as [|? ? B1 B2]; subst. constructor; [now apply IH|].
      apply Forall_app. split; [exact H|].
      apply Forall_forall. intros m Hm. apply in_seq in Hm. lia.
  - rewrite map_app, F. apply Forall_app. split.
    + eapply Forall_impl; [|exact B]. simpl. intros; lia.
    + apply Forall_forall. intros m Hm. apply in_seq in Hm. lia.
Qed.

(** With a clock that never reads the same twice, identifiers made at
    increasing readings are pairwise distinct. *)
Lemma stamped_NoDup P hi ids :
  (forall m n, Date_now P m = Date_now P n -> m = n) ->
  stamped P hi ids -> NoDup ids.
Proof.
  intros Inj (tags & -> & S & _). induction tags as [|tk tags IH]; [constructor|].
  simpl in S |- *. inversion S as [|? ? S1 S2]; subst.
  constructor; [|now apply IH].
  intros Hin. apply in_map_iff in Hin as (tk' & E & Hin').
  apply record_id_inj in E as [E _]. apply Inj in E.
  rewrite Forall_forall in S2. specialize (S2 (fst tk') (in_map fst _ _ Hin')). lia.
Qed.

Lemma serve_stamped P req w :
  stamped P (ticks w) (List.map id (stored w)) ->
  stamped P (ticks (snd (serve P req w)))
          (List.map id (stored (snd (serve P req w)))).
Proof.
  intros H. destruct req as [body|body|param]; simpl.
  - destruct (post_docs_world P body w)
      as [(S & T & _)|(recs & _ & _ & S & T & I & _)].
    + rewrite S. eapply stamped_later; eassumption.
    + rewrite S, T, map_app, I. now apply stamped_app.
  - destruct (post_chat_world P body w) as [S T].
    unfold stored. now rewrite S, T.
  - destruct (delete_docs_world P param w) as [T [S|(label & S)]]; rewrite T, S.
    + exact H.
    + now apply stamped_filter.
Qed.

Lemma serve_all_stamped P reqs :
  forall w,
    stamped P (ticks w) (List.map id (stored w)) ->
    stamped P (ticks (serve_all P reqs w))
            (List.map id (stored (serve_all P reqs w))).
Proof.
  induction reqs as [|req reqs IH]; intros w H; [exact H|].
  simpl. apply IH. now apply serve_stamped.
Qed.

(** Over requests handled one after another from an empty store, no two
    stored records share an identifier, provided the clock never reads
    the same millisecond twice. *)
Theorem session_ids_distinct (P : Platform) (reqs : list Request) (w : World) :
  (forall m n, Date_now P m = Date_now P n -> m = n) ->
  stored w = [] ->
  NoDup (List.map id (stored (serve_all P reqs w))).
Proof.
  intros Inj E. apply (stamped_NoDup P (ticks (serve_all P reqs w))); [exact Inj|].
  apply serve_all_stamped. rewrite E. exists []. repeat split; constructor.
Qed.

Lemma session_ids_distinct_witness :
  List.length (stored (serve_all ticking_platform demo_session fresh_world)) = 2%nat
  /\ NoDup (List.map id (stored (serve_all ticking_platform demo_session fresh_world))).
Proof.
  split; [vm_compute; reflexivity|].
  apply session_ids_distinct; [|reflexivity].
  intros m n H. cbv [ticking_platform Date_now] in H. lia.
Defined.

(** *** The model over a session *)

Lemma loaded_once_refl e w : loaded_once e w w.
Proof. left. now split. Qed.

Lemma loaded_once_trans e w1 w2 w3 :
  loaded_once e w1 w2 -> loaded_once e w2 w3 -> loaded_once e w1 w3.
Proof.
  intros [[E1 L1]|(N1 & E1 & L1)] [[E2 L2]|(N2 & E2 & L2)].
  - left. split; congruence.
  - right. repeat split; congruence.
  - right. repeat split; congruence.
  - congruence.
Qed.

(** Effects other than a load, with the model slot kept. *)
Lemma loaded_once_quiet e w w' events :
  embedder w' = embedder w ->
  trace w' = trace w ++ events ->
  forallb (fun ev => negb (is_load ev)) events = true ->
  loaded_once e w w'.
Proof.
  intros E T Q. left. split; [exact E|]. unfold loads. rewrite T, filter_app.
  replace (filter is_load events) with (@nil Event);
    [now rewrite app_nil_r|].
  clear T. induction events as [|ev events IH]; [reflexivity|].
  simpl in Q |- *. apply andb_prop in Q as [Q1 Q2].
  destruct (is_load ev); [discriminate Q1|now apply IH].
Qed.

Lemma loaded_once_log e ev w : is_load ev = false -> loaded_once e w (log ev w).
Proof.
  intros H. apply (loaded_once_quiet e w (log ev w) [ev]); try reflexivity.
  simpl. now rewrite H.
Qed.

Lemma loaded_once_in_use P e w w' :
  extractor_in_use P w = Ok e -> loaded_once e w w' ->
  extractor_in_use P w' = Ok e.
Proof.
  unfold extractor_in_use. intros H [[E _]|(_ & E & _)]; now rewrite E.
Qed.

Lemma getEmbedder_loaded_once P e w :
  extractor_in_use P w = Ok e -> loaded_once e w (snd (getEmbedder P w)).
Proof.
  unfold extractor_in_use, getEmbedder. intros H.
  destruct (embedder w) as [e'|] eqn:Ee; [apply loaded_once_refl|].
  rewrite H. simpl. right. repeat split; [exact Ee|].
  unfold loads. simpl. rewrite filter_app, length_app. simpl. lia.
Qed.

Lemma computeEmbedding_loaded_once P e input w :
  extractor_in_use P w = Ok e -> loaded_once e w (snd (computeEmbedding P input w)).
Proof.
  intros H. unfold computeEmbedding, bind.
  pose proof (getEmbedder_loaded_once P e w H) as G.
  destruct (getEmbedder P w) as [[e'|msg] w1]; simpl in G |- *; [|exact G].
  eapply loaded_once_trans; [exact G|]. now apply loaded_once_log.
Qed.

Lemma embed_chunks_loaded_once P e src chunks :
  forall i w,
    extractor_in_use P w = Ok e ->
    loaded_once e w (snd (embed_chunks P src chunks i w)).
Proof.
  induction chunks as [|chunk rest IH]; intros i w H; simpl.
  - apply loaded_once_refl.
  - unfold bind at 1.
    pose proof (computeEmbedding_loaded_once P e chunk w H) as H1.
    destruct (computeEmbedding P chunk w) as [[v|msg] w1]; simpl in H1; [|exact H1].
    unfold bind at 1. unfold now at 1. unfold bind at 1.
    match goal with |- context [embed_chunks P src rest (S i) ?w2] =>
      assert (H2 : loaded_once e w1 w2)
        by (apply (loaded_once_quiet e w1 w2 [ReadClock]); reflexivity);
      assert (H3 : loaded_once e w2 (snd (embed_chunks P src rest (S i) w2)))
        by (apply IH; eapply loaded_once_in_use; [|exact H2];
            eapply loaded_once_in_use; eassumption);
      destruct (embed_chunks P src rest (S i) w2) as [[vs|msg] w3]
    end; simpl in H3 |- *;
      (eapply loaded_once_trans; [exact H1|];
       eapply loaded_once_trans; [exact H2|exact H3]).
Qed.

Lemma serve_loaded_once P e req w :
  extractor_in_use P w = Ok e -> loaded_once e w (snd (serve P req w)).
Proof.
  intros H. destruct req as [body|body|param]; simpl.
  - destruct (destructurable body) eqn:D;
      [|rewrite (post_docs_undestructurable P w body D); apply loaded_once_refl].
    destruct (field_cases (docs_text body)) as [B|[U|(t & Ht & Hnb)]].
    + rewrite (post_docs_blank P w body D B). apply loaded_once_refl.
    + rewrite (post_docs_untrimmable P w body D U). apply loaded_once_refl.
    + rewrite (post_docs_run P w body t Ht Hnb).
      pose proof (embed_chunks_loaded_once P e (label_of body)
                    (chunkText t default_maxChars) 0 w H) as L.
      destruct (embed_chunks P (label_of body) (chunkText t default_maxChars) 0 w)
        as [[recs|msg] w1]; simpl in L |- *; [|exact L].
      eapply loaded_once_trans; [exact L|].
      eapply loaded_once_quiet; reflexivity.
  - destruct (destructurable body) eqn:D;
      [|rewrite (post_chat_undestructurable P w body D); apply loaded_once_refl].
    destruct (field_cases (chat_question body)) as [B|[U|(q & Hq & Hnb)]].
    + rewrite (post_chat_blank P w body D B). apply loaded_once_refl.
    + rewrite (post_chat_untrimmable P w body D U). apply loaded_once_refl.
    + destruct (stored w) as [|r db] eqn:Es.
      * rewrite (post_chat_empty P w body q Hq Hnb Es). now apply loaded_once_log.
      * assert (Hs : stored w <> []) by (rewrite Es; discriminate).
        rewrite (post_chat_run P w body q Hq Hnb Hs).
        assert (L0 : loaded_once e w (log ReadStore w)) by now apply loaded_once_log.
        pose proof (computeEmbedding_loaded_once P e q (log ReadStore w)
                      (loaded_once_in_use P e _ _ H L0)) as L.
        destruct (computeEmbedding P q (log ReadStore w)) as [[qE|msg] w1];
          simpl in L |- *; [|eapply loaded_once_trans; eassumption].
        destruct (slice_end P (topK_of body)) as [end_|msg]; simpl;
          [|eapply loaded_once_trans; eassumption].
        destruct (chat_completion P system_prompt _); simpl;
          (eapply loaded_once_trans; [exact L0|];
           eapply loaded_once_trans; [exact L|]; now apply loaded_once_log).
  - destruct (delete_docs_cases P param w)
      as [(msg & _ & ->)|[(d & _ & _ & ->)|(d & Hd & Ht)]];
      [apply loaded_once_refl..|].
    rewrite (delete_docs_run P param w d Hd Ht).
    destruct (List.length (matching (trim d) (stored w)) =? 0)%nat; simpl.
    + now apply loaded_once_log.
    + eapply loaded_once_quiet; reflexivity.
Qed.

(** Over requests handled one after another, with a model that loads:
    the model is loaded at most once, and only when it was not loaded
    already; whatever the requests, the extractor in use stays the same. *)
Theorem session_loads_model_once (P : Platform) (e : Extractor)
        (reqs : list Request) (w : World) :
  extractor_in_use P w = Ok e ->
  loaded_once e w (serve_all P reqs w)
  /\ extractor_in_use P (serve_all P reqs w) = Ok e.
Proof.
  intros H.
  assert (L : loaded_once e w (serve_all P reqs w)).
  { revert w H. induction reqs as [|req reqs IH]; intros w H; simpl.
    - apply loaded_once_refl.
    - pose proof (serve_loaded_once P e req w H) as L1.
      eapply loaded_once_trans; [exact L1|].
      apply IH. eapply loaded_once_in_use; eassumption. }
  split; [exact L|]. eapply loaded_once_in_use; eassumption.
Qed.

Lemma session_loads_model_once_witness :
  loads (serve_all ticking_platform demo_session fresh_world) = 1%nat
  /\ loaded_once (fun _ => Ok [1; 0]%float) fresh_world
       (serve_all ticking_platform demo_session fresh_world).
Proof.
  split; [vm_compute; reflexivity|].
  apply (session_loads_model_once ticking_platform). reflexivity.
Defined.

(** *** Stored texts over a session *)

Lemma serve_clean P req w :
  Forall clean_text (stored w) -> Forall clean_text (stored (snd (serve P req w))).
Proof.
  intros H. destruct req as [body|body|param]; simpl.
  - destruct (post_docs_world P body w)
      as [(S & _)|(recs & _ & _ & S & _ & _ & C & _)]; rewrite S; [exact H|].
    apply Forall_app. now split.
  - destruct (post_chat_world P body w) as [S _]. unfold stored. now rewrite S.
  - destruct (delete_docs_world P param w) as [_ [S|(label & S)]]; rewrite S;
      [exact H|].
    unfold others. apply Forall_forall. intros r Hr. apply filter_In in Hr as [Hr _].
    rewrite Forall_forall in H. now apply H.
Qed.

(** Over requests handled one after another, every text the store holds
    is non-empty and free of white space at both ends, if that was so at
    the start: ingestion only adds such texts, and nothing rewrites a
    stored record. *)
Theorem session_texts_clean (P : Platform) (reqs : list Request) (w : World) :
  Forall clean_text (stored w) ->
  Forall clean_text (stored (serve_all P reqs w)).
Proof.
  revert w. induction reqs as [|req reqs IH]; intros w H; [exact H|].
  simpl. apply IH. now apply serve_clean.
Qed.

Lemma session_texts_clean_witness :
  Forall clean_text (stored (serve_all ticking_platform demo_session fresh_world)).
Proof.
  apply session_texts_clean. constructor.
Defined.

(** *** Ingestion undone by deletion *)

Lemma matching_all label recs :
  Forall (fun r => source r = JString label) recs ->
  matching label recs = recs /\ others label recs = [].
Proof.
  unfold matching, others. induction 1 as [|r recs H _ [IH1 IH2]]; [now split|].
  simpl. apply has_source_eq in H. rewrite H. simpl. now rewrite IH1, IH2.
Qed.

(** A successful ingestion under a label nothing in the store carries,
    followed by the deletion of that label, removes exactly the records
    just inserted and gives back the store as it was. *)
Theorem ingest_then_delete (P : Platform) (w : World) (body : Body)
        (param d : jsstring) :
  status_of (fst (post_docs P body w)) = 200 ->
  matching (trim d) (stored w) = [] ->
  decodeURIComponent P param = Ok d ->
  label_of body = JString (trim d) ->
  trim d <> [] ->
  exists n,
    (0 < n)%nat
    /\ fst (post_docs P body w) = Inserted n
    /\ fst (delete_docs P param (snd (post_docs P body w)))
       = Removed n (List.length (stored w)) (trim d)
    /\ stored (snd (delete_docs P param (snd (post_docs P body w)))) = stored w.
Proof.
  intros H200 Hfresh Hd Hl Hnb.
  destruct (post_docs_world P body w)
    as [(_ & _ & N)|(recs & Hne & Hi & S & _ & _ & _ & Hsrc)]; [contradiction|].
  rewrite Hl in Hsrc. simpl json_value in Hsrc.
  apply matching_all in Hsrc as [M O].
  assert (Hm : matching (trim d) (stored (snd (post_docs P body w))) = recs).
  { rewrite S. unfold matching. rewrite filter_app.
    fold (matching (trim d) (stored w)). fold (matching (trim d) recs).
    now rewrite Hfresh, M. }
  assert (Ho : others (trim d) (stored (snd (post_docs P body w))) = stored w).
  { rewrite S. unfold others. rewrite filter_app.
    fold (others (trim d) (stored w)). fold (others (trim d) recs).
    now rewrite O, app_nil_r, (matching_nil_others _ _ Hfresh). }
  assert (Ht : truthy (trim d) = true) by now destruct (trim d).
  exists (List.length recs). split; [destruct recs; [contradiction|simpl; lia]|].
  split; [exact Hi|].
  rewrite (delete_docs_run P param _ d Hd Ht), Hm.
  destruct recs as [|r recs]; [contradiction|]. simpl fst. simpl snd.
  split; [now rewrite Ho|]. now rewrite stored_deleted.
Qed.

Lemma ingest_then_delete_witness :
  exists n,
    (0 < n)%nat
    /\ fst (post_docs ticking_platform (demo_docs "Paris.") (world_with demo_db))
       = Inserted n
    /\ fst (delete_docs ticking_platform (js " geo ")
              (snd (post_docs ticking_platform (demo_docs "Paris.")
                      (world_with demo_db))))
       = Removed n (List.length (stored (world_with demo_db))) (trim (js " geo "))
    /\ stored (snd (delete_docs ticking_platform (js " geo ")
                      (snd (post_docs ticking_platform (demo_docs "Paris.")
                              (world_with demo_db)))))
       = stored (world_with demo_db).
Proof.
  apply (ingest_then_delete ticking_platform (world_with demo_db)
           (demo_docs "Paris.") (js " geo ") (js " geo "));
    [reflexivity..|discriminate].
Defined.

(* ================================================================= *)
(** ** The scenario of the specification, end to end *)

(** Ingest one sentence, ask with [topK = 1], delete the source, ask
    again: one record is inserted; the single retrieved chunk is the
    sentence, with a score above one half; one record is removed and none
    remains; and the second question is refused for want of documents. *)
Example end_to_end_scenario :
  let req := demo_docs "Paris is the capital of France." in
  let w1 := snd (post_docs demo_platform req fresh_world) in
  let chat1 := post_chat demo_platform (demo_chat 1) w1 in
  let del := delete_docs demo_platform (js "geo") (snd chat1) in
  let chat2 := post_chat demo_platform (demo_chat 1) (snd del) in
  fst (post_docs demo_platform req fresh_world) = Inserted 1
  /\ List.map cite_text (chunks_of (fst chat1)) = [js "Paris is the capital of France."]
  /\ forallb (fun c => (0.5 <? cite_score c)%float) (chunks_of (fst chat1)) = true
  /\ fst del = Removed 1 0 (js "geo")
  /\ fst chat2 = Failure 400 (js "No documents indexed yet") None None.
Proof. repeat split; vm_compute; reflexivity. Qed.
